(** * The coalescing free-list allocator of acl

    A shallow embedding of [src/acl/allocators/coalescing_allocator.cpp]:
    the branchless lower-bound search [mini2] (direct and indirect form),
    [coalescing_allocator::allocate] (first fit) and
    [coalescing_allocator::deallocate] (three-way coalescing), followed by
    the properties of the free list that the specification states. *)

From Stdlib Require Import ZArith Lia Sorted.
From stdpp Require Import base tactics option list numbers.

Local Open Scope Z_scope.

(** ** Machine integers *)

(** Modelled from the spec: [coalescing_allocator::size_type] and the
    element type of [offsets_] and [sizes_] are declared in
    [coalescing_allocator.hpp], which is missing; the specification fixes the
    size type as a 32-bit unsigned integer, and [allocate] itself returns
    [std::numeric_limits<uint32_t>::max()] as a [size_type]. *)
Definition size_type_bits : Z := 32.

Definition UINT32_MAX : Z := 2 ^ size_type_bits - 1.

(** Unsigned 32-bit arithmetic wraps around. *)
Definition wrap32 (z : Z) : Z := z mod 2 ^ size_type_bits.

Definition is_u32 (z : Z) : Prop := 0 <= z <= UINT32_MAX.

(** ** Outcomes of a call

    A call either returns, or leaves defined behaviour: by reading or
    writing outside a sequence, or by failing an [assert].  The loop of
    [mini2] is run on fuel; running out of it is a third, separate fault. *)

Inductive fault : Type :=
| OutOfBounds
| AssertionFailed
| FuelExhausted.

Inductive result (A : Type) : Type :=
| Ok (a : A)
| Err (f : fault).

Arguments Ok {A} a.
Arguments Err {A} f.

#[global] Instance result_ret : MRet result := λ A a, Ok a.
#[global] Instance result_bind : MBind result := λ A B k m,
  match m with
  | Ok a => k a
  | Err f => Err f
  end.

(** ** The vector operations the allocator uses

    Each one names the [std::vector]-style member it stands for; an index
    outside the sequence is a fault, as it is undefined behaviour there. *)

Module vec.

(** [v[i]], and a read through [v.data() + i]. *)
Definition at_ {A} (v : list A) (i : nat) : result A :=
  match v !! i with
  | Some x => Ok x
  | None => Err OutOfBounds
  end.

(** [v[i] = x]. *)
Definition assign {A} (v : list A) (i : nat) (x : A) : result (list A) :=
  if (i <? length v)%nat then Ok (<[i:=x]> v) else Err OutOfBounds.

(** [v.front()] and [v.back()]. *)
Definition front {A} (v : list A) : result A := at_ v 0.
Definition back {A} (v : list A) : result A :=
  match v with
  | [] => Err OutOfBounds
  | _ => at_ v (length v - 1)
  end.

(** [v.erase(v.begin() + i)]. *)
Definition erase {A} (v : list A) (i : nat) : result (list A) :=
  if (i <? length v)%nat then Ok (delete i v) else Err OutOfBounds.

(** [v.insert(v.begin() + i, x)]. *)
Definition insert {A} (v : list A) (i : nat) (x : A) : result (list A) :=
  if (i <=? length v)%nat then Ok (take i v ++ x :: drop i v) else Err OutOfBounds.

(** [v.emplace_back(x)]. *)
Definition emplace_back {A} (v : list A) (x : A) : list A := v ++ [x].

End vec.

(** ** The search routine

    A pointer into the searched array is its distance from the start of the
    array.  [size] never exceeds the number of elements of an array, so
    [size + 1] stays below [SIZE_MAX] and is computed without wrap-around. *)

(** [ACL_BINARY_SEARCH_STEP2]. *)
Definition ACL_BINARY_SEARCH_STEP2 (a : list Z) (key : Z) (st : nat * nat)
  : result (nat * nat) :=
  let '(it, size) := st in
  let middle := (it + Nat.shiftr size 1)%nat in
  let size := Nat.shiftr (size + 1) 1 in
  m ← vec.at_ a middle;
  Ok (if m <? key then middle else it, size).

(** The [do { STEP; STEP; } while (size > 2)] loop of the direct [mini2].
    Two steps at least halve [size], so [size + 1] rounds of fuel are never
    used up ([mini2_loop_window] below). *)
Fixpoint mini2_loop (fuel : nat) (a : list Z) (key : Z) (it size : nat)
  : result (nat * nat) :=
  match fuel with
  | O => Err FuelExhausted
  | S fuel =>
      '(it, size) ← ACL_BINARY_SEARCH_STEP2 a key (it, size);
      '(it, size) ← ACL_BINARY_SEARCH_STEP2 a key (it, size);
      if (2 <? size)%nat then mini2_loop fuel a key it size else Ok (it, size)
  end.

(** [cond && deref(it) < key], with the short circuit of [&&]: the element is
    read only when [cond] holds. *)
Definition and_less (cond : bool) (a : list Z) (it : nat) (key : Z) : result nat :=
  if cond then x ← vec.at_ a it; Ok (if x <? key then 1%nat else 0%nat)
  else Ok 0%nat.

(** [mini2(it, size, key)], direct form, on the array [a]; the result is the
    returned pointer's distance from [a]'s start. *)
Definition mini2 (a : list Z) (size : nat) (key : Z) : result nat :=
  '(it, size) ← mini2_loop (S size) a key 0 size;
  d ← and_less (1 <? size)%nat a it key;
  let it := (it + d)%nat in
  d ← and_less (0 <? size)%nat a it key;
  Ok (it + d)%nat.

(** [ACL_BINARY_SEARCH_STEP_INDIRECT]: [it] walks the index array [ix], the
    compared value is [data[*middle]]. *)
Definition ACL_BINARY_SEARCH_STEP_INDIRECT (ix : list nat) (data : list Z)
  (key : Z) (st : nat * nat) : result (nat * nat) :=
  let '(it, size) := st in
  let middle := (it + Nat.shiftr size 1)%nat in
  let size := Nat.shiftr (size + 1) 1 in
  i ← vec.at_ ix middle;
  m ← vec.at_ data i;
  Ok (if m <? key then middle else it, size).

Fixpoint mini2_indirect_loop (fuel : nat) (ix : list nat) (data : list Z)
  (key : Z) (it size : nat) : result (nat * nat) :=
  match fuel with
  | O => Err FuelExhausted
  | S fuel =>
      '(it, size) ← ACL_BINARY_SEARCH_STEP_INDIRECT ix data key (it, size);
      '(it, size) ← ACL_BINARY_SEARCH_STEP_INDIRECT ix data key (it, size);
      if (2 <? size)%nat then mini2_indirect_loop fuel ix data key it size
      else Ok (it, size)
  end.

Definition and_less_indirect (cond : bool) (ix : list nat) (data : list Z)
  (it : nat) (key : Z) : result nat :=
  if cond then
    i ← vec.at_ ix it;
    x ← vec.at_ data i;
    Ok (if x <? key then 1%nat else 0%nat)
  else Ok 0%nat.

(** [mini2(it, data, size, key)], indirect form. *)
Definition mini2_indirect (ix : list nat) (data : list Z) (size : nat) (key : Z)
  : result nat :=
  '(it, size) ← mini2_indirect_loop (S size) ix data key 0 size;
  d ← and_less_indirect (1 <? size)%nat ix data it key;
  let it := (it + d)%nat in
  d ← and_less_indirect (0 <? size)%nat ix data it key;
  Ok (it + d)%nat.

(** ** The allocator *)

(** The two parallel sequences of the free list. *)
Record coalescing_allocator : Type := mk_allocator {
  offsets_ : list Z;
  sizes_ : list Z
}.

(** The [for] loop of [allocate] from index [i] on, [todo = end - i]
    iterations before [i] reaches [end]. *)
Fixpoint allocate_loop (todo : nat) (i : nat) (s : coalescing_allocator) (size : Z)
  : result (Z * coalescing_allocator) :=
  match todo with
  | O => Ok (UINT32_MAX, s)
  | S todo =>
      sz ← vec.at_ (sizes_ s) i;
      if size <=? sz then
        ret ← vec.at_ (offsets_ s) i;
        sizes1 ← vec.assign (sizes_ s) i (wrap32 (sz - size));
        offsets1 ← vec.assign (offsets_ s) i (wrap32 (ret + size));
        rest ← vec.at_ sizes1 i;
        if rest =? 0 then
          offsets2 ← vec.erase offsets1 i;
          sizes2 ← vec.erase sizes1 i;
          Ok (ret, mk_allocator offsets2 sizes2)
        else Ok (ret, mk_allocator offsets1 sizes1)
      else allocate_loop todo (S i) s size
  end.

(** [coalescing_allocator::allocate]; [end] is the element count cast to
    [uint32_t]. *)
Definition allocate (s : coalescing_allocator) (size : Z)
  : result (Z * coalescing_allocator) :=
  let end_ := Z.to_nat (wrap32 (Z.of_nat (length (sizes_ s)))) in
  allocate_loop end_ 0 s size.

(** [coalescing_allocator::deallocate].  The [assert] is modelled as it
    behaves when assertions are compiled in; without them the call on an
    empty store goes on into [mini2] and reads outside the offsets. *)
Definition deallocate (s : coalescing_allocator) (offset size : Z)
  : result coalescing_allocator :=
  let offsets := offsets_ s in
  let sizes := sizes_ s in
  if bool_decide (offsets = []) then Err AssertionFailed else
  it ← mini2 offsets (length offsets) offset;
  if (it =? 0)%nat then
    first ← vec.front offsets;
    if wrap32 (offset + size) =? first then
      offsets1 ← vec.assign offsets 0 offset;
      sz ← vec.front sizes;
      sizes1 ← vec.assign sizes 0 (wrap32 (sz + size));
      Ok (mk_allocator offsets1 sizes1)
    else
      offsets1 ← vec.insert offsets 0 offset;
      sizes1 ← vec.insert sizes 0 size;
      Ok (mk_allocator offsets1 sizes1)
  else if (it =? length offsets)%nat then
    lo ← vec.back offsets;
    ls ← vec.back sizes;
    if wrap32 (lo + ls) =? offset then
      sizes1 ← vec.assign sizes (length sizes - 1) (wrap32 (ls + size));
      Ok (mk_allocator offsets sizes1)
    else
      Ok (mk_allocator (vec.emplace_back offsets offset) (vec.emplace_back sizes size))
  else
    let idx := it in
    po ← vec.at_ offsets (idx - 1);
    ps ← vec.at_ sizes (idx - 1);
    if wrap32 (po + ps) =? offset then
      sizes1 ← vec.assign sizes (idx - 1) (wrap32 (ps + size));
      no ← vec.at_ offsets idx;
      ps1 ← vec.at_ sizes1 (idx - 1);
      if no =? wrap32 (po + ps1) then
        ns ← vec.at_ sizes1 idx;
        sizes2 ← vec.assign sizes1 (idx - 1) (wrap32 (ps1 + ns));
        offsets1 ← vec.erase offsets idx;
        sizes3 ← vec.erase sizes2 idx;
        Ok (mk_allocator offsets1 sizes3)
      else Ok (mk_allocator offsets sizes1)
    else
      no ← vec.at_ offsets idx;
      if no =? wrap32 (offset + size) then
        offsets1 ← vec.assign offsets idx (wrap32 (no - size));
        ns ← vec.at_ sizes idx;
        sizes1 ← vec.assign sizes idx (wrap32 (ns + size));
        Ok (mk_allocator offsets1 sizes1)
      else
        offsets1 ← vec.insert offsets idx offset;
        sizes1 ← vec.insert sizes idx size;
        Ok (mk_allocator offsets1 sizes1)
  .

(** ** The free list as the specification describes it *)

(** A free block is an (offset, size) pair; the store keeps the offsets and
    the sizes in two parallel sequences. *)
Abbreviation block := (Z * Z)%type.

Definition blocks (s : coalescing_allocator) : list block :=
  zip (offsets_ s) (sizes_ s).

Definition of_blocks (bs : list block) : coalescing_allocator :=
  mk_allocator bs.*1 bs.*2.

(** The standard lower bound, by a linear scan: the position of the first
    entry that is not less than the key, the length when there is none. *)
Fixpoint lower_bound (a : list Z) (key : Z) : nat :=
  match a with
  | [] => O
  | x :: a => if x <? key then S (lower_bound a key) else O
  end.

(** A property of every two consecutive entries. *)
Fixpoint consecutive (R : block → block → Prop) (bs : list block) : Prop :=
  match bs with
  | b1 :: bs =>
      match bs with
      | b2 :: _ => R b1 b2 ∧ consecutive R bs
      | [] => True
      end
  | [] => True
  end.

(** Invariants 1 to 4 of the data model. *)
Definition strictly_ascending (bs : list block) : Prop :=
  consecutive (λ b1 b2, b1.1 < b2.1) bs.
Definition non_overlapping (bs : list block) : Prop :=
  consecutive (λ b1 b2, b1.1 + b1.2 <= b2.1) bs.
Definition non_adjacent (bs : list block) : Prop :=
  consecutive (λ b1 b2, b1.1 + b1.2 < b2.1) bs.
Definition positive_sizes (bs : list block) : Prop :=
  Forall (λ b : block, 0 < b.2) bs.

Definition free_list_inv (s : coalescing_allocator) : Prop :=
  strictly_ascending (blocks s) ∧ non_overlapping (blocks s) ∧
  non_adjacent (blocks s) ∧ positive_sizes (blocks s).

(** A range of the managed address space: offset and size are values of the
    size type, and the range ends at or below the sentinel, so that
    [offset + size] does not wrap around and the sentinel is not the offset
    of any range that has room in it. *)
Definition in_space (b : block) : Prop :=
  0 <= b.1 ∧ 0 <= b.2 ∧ b.1 + b.2 <= UINT32_MAX.

(** The store is two sequences of equal length whose entries are ranges of
    the address space. *)
Definition well_formed (s : coalescing_allocator) : Prop :=
  length (offsets_ s) = length (sizes_ s) ∧ Forall in_space (blocks s).

(** Two ranges with no address in common. *)
Definition disjoint (b1 b2 : block) : Prop :=
  b1.1 + b1.2 <= b2.1 ∨ b2.1 + b2.2 <= b1.1.

(** The range is not marked free: it meets no block of the free list. *)
Definition not_free (s : coalescing_allocator) (offset size : Z) : Prop :=
  Forall (disjoint (offset, size)) (blocks s).

(** [within lo hi bs]: the blocks lie in ascending order between [lo] and
    [hi - 1], each with room in it and at least one address between a block
    and the next.  This is invariants 1 to 4 and the bounds in one
    recursion. *)
Fixpoint within (lo hi : Z) (bs : list block) : Prop :=
  match bs with
  | [] => lo <= hi
  | b :: bs => lo <= b.1 ∧ 0 < b.2 ∧ within (b.1 + b.2 + 1) hi bs
  end.

(** The sum of the sizes of the blocks. *)
Definition total_size (bs : list block) : Z :=
  foldr (λ b acc, b.2 + acc) 0 bs.

(** Elements below the key come first and exactly fill the positions
    before [lb]: what a lower-bound search needs of its input. *)
Definition partitioned (a : list Z) (key : Z) (lb : nat) : Prop :=
  (lb ≤ length a)%nat ∧
  ∀ i x, a !! i = Some x → (x < key ↔ (i < lb)%nat).

(** The block that remains of [b] after [size] was carved from its start,
    in the arithmetic of the size type; none when nothing remains. *)
Definition remainder32 (b : block) (size : Z) : list block :=
  if wrap32 (b.2 - size) =? 0 then []
  else [(wrap32 (b.1 + size), wrap32 (b.2 - size))].

(** The same in exact arithmetic. *)
Definition remainder (b : block) (size : Z) : list block :=
  if b.2 - size =? 0 then [] else [(b.1 + size, b.2 - size)].

(** What [deallocate] leaves in place of the first block [b] when the freed
    range belongs before it, in the arithmetic of the size type. *)
Definition coalesce_front32 (b : block) (offset size : Z) : list block :=
  if wrap32 (offset + size) =? b.1 then [(offset, wrap32 (b.2 + size))]
  else [(offset, size); b].

(** ... in place of the last block [b] when the range belongs after it. *)
Definition coalesce_back32 (b : block) (offset size : Z) : list block :=
  if wrap32 (b.1 + b.2) =? offset then [(b.1, wrap32 (b.2 + size))]
  else [b; (offset, size)].

(** ... in place of the neighbours [p] and [n] when the range belongs
    between them. *)
Definition coalesce_interior32 (p n : block) (offset size : Z) : list block :=
  if wrap32 (p.1 + p.2) =? offset then
    if n.1 =? wrap32 (p.1 + wrap32 (p.2 + size))
    then [(p.1, wrap32 (wrap32 (p.2 + size) + n.2))]
    else [(p.1, wrap32 (p.2 + size)); n]
  else if n.1 =? wrap32 (offset + size)
    then [p; (wrap32 (n.1 - size), wrap32 (n.2 + size))]
    else [p; (offset, size); n].

(** The same three replacements as the specification words them, in exact
    arithmetic: merge into the front block or insert before it; grow the last
    block or append after it; grow the predecessor and absorb the successor
    when the gap closes, else grow the successor backward, else insert
    between them. *)
Definition coalesce_front (b : block) (offset size : Z) : list block :=
  if offset + size =? b.1 then [(offset, b.2 + size)]
  else [(offset, size); b].

Definition coalesce_back (b : block) (offset size : Z) : list block :=
  if b.1 + b.2 =? offset then [(b.1, b.2 + size)]
  else [b; (offset, size)].

Definition coalesce_interior (p n : block) (offset size : Z) : list block :=
  if p.1 + p.2 =? offset then
    if p.1 + (p.2 + size) =? n.1 then [(p.1, p.2 + size + n.2)]
    else [(p.1, p.2 + size); n]
  else if n.1 =? offset + size then [p; (n.1 - size, n.2 + size)]
  else [p; (offset, size); n].

(** [deallocate] as the specification describes it: find the insertion
    point as the lower bound of the freed offset among the block offsets,
    then apply the case of that position. *)
Definition deallocate_spec (bs : list block) (offset size : Z) : list block :=
  let idx := lower_bound bs.*1 offset in
  if (idx =? 0)%nat then
    match bs with
    | first :: rest => coalesce_front first offset size ++ rest
    | [] => bs
    end
  else if (idx =? length bs)%nat then
    match bs !! (idx - 1)%nat with
    | Some last => take (idx - 1) bs ++ coalesce_back last offset size
    | None => bs
    end
  else
    match bs !! (idx - 1)%nat, bs !! idx with
    | Some pred, Some succ =>
        take (idx - 1) bs ++ coalesce_interior pred succ offset size
          ++ drop (idx + 1) bs
    | _, _ => bs
    end.

(** ** Calls and their preconditions *)

Inductive call : Type :=
| Allocate (size : Z)
| Deallocate (offset size : Z).

(** The free list a call leaves behind. *)
Definition run_call (s : coalescing_allocator) (c : call) : result coalescing_allocator :=
  match c with
  | Allocate size => '(_, s') ← allocate s size; Ok s'
  | Deallocate offset size => deallocate s offset size
  end.

(** The preconditions the specification states: any request of the size
    type may be allocated; a range may be freed when the free list is not
    empty and the range, a range of the address space, is not marked free. *)
Definition stated_precondition (s : coalescing_allocator) (c : call) : Prop :=
  match c with
  | Allocate size => is_u32 size
  | Deallocate offset size =>
      offsets_ s ≠ [] ∧ in_space (offset, size) ∧ not_free s offset size
  end.

(** The same, with freed ranges that have room in them. *)
Definition precondition (s : coalescing_allocator) (c : call) : Prop :=
  match c with
  | Allocate size => is_u32 size
  | Deallocate offset size =>
      offsets_ s ≠ [] ∧ in_space (offset, size) ∧ 0 < size ∧
      not_free s offset size
  end.

(** ** A client of the allocator

    The free list together with the allocations that are live: returned by
    [allocate] with an offset other than the sentinel, and not yet handed
    back to [deallocate]. *)
Record client : Type := mk_client {
  store : coalescing_allocator;
  live : list block
}.

(** Takes one copy of [b] out of a list of live allocations. *)
Fixpoint release (b : block) (l : list block) : list block :=
  match l with
  | [] => []
  | x :: l => if decide (x = b) then l else x :: release b l
  end.

Definition client_call (st : client) (c : call) : result client :=
  match c with
  | Allocate size =>
      '(r, s') ← allocate (store st) size;
      Ok (mk_client s' (if r =? UINT32_MAX then live st else (r, size) :: live st))
  | Deallocate offset size =>
      s' ← deallocate (store st) offset size;
      Ok (mk_client s' (release (offset, size) (live st)))
  end.

Fixpoint client_run (st : client) (cs : list call) : result client :=
  match cs with
  | [] => Ok st
  | c :: cs => st' ← client_call st c; client_run st' cs
  end.

(** A call is valid when it asks for a size of the size type, or frees a
    live allocation while the free list is not empty. *)
Definition valid_call (st : client) (c : call) : Prop :=
  match c with
  | Allocate size => is_u32 size
  | Deallocate offset size =>
      offsets_ (store st) ≠ [] ∧ (offset, size) ∈ live st
  end.

(** A sequence of calls each of which is valid in the state it is made in. *)
Fixpoint valid_calls (st : client) (cs : list call) : Prop :=
  match cs with
  | [] => True
  | c :: cs =>
      valid_call st c ∧
      match client_call st c with
      | Ok st' => valid_calls st' cs
      | Err _ => True
      end
  end.

(** The ranges a client holds and the free blocks, all inside the address
    space, and the two sequences of the store of equal length. *)
Definition client_ok (st : client) : Prop :=
  well_formed (store st) ∧ Forall in_space (live st).

(** What is free and what is live, in total. *)
Definition balance (st : client) : Z :=
  total_size (blocks (store st)) + total_size (live st).

(** ** Addresses

    An address belongs to a range when it lies from the offset up to, not
    including, offset plus size; it is free when a block of the free list
    holds it. *)
Definition in_range (b : block) (x : Z) : Prop := b.1 <= x < b.1 + b.2.

Definition covers (bs : list block) (x : Z) : Prop := Exists (λ b, in_range b x) bs.

Definition is_free (s : coalescing_allocator) (x : Z) : Prop := covers (blocks s) x.

(** No two ranges of a list have an address in common. *)
Fixpoint pairwise_disjoint (l : list block) : Prop :=
  match l with
  | [] => True
  | b :: l => Forall (disjoint b) l ∧ pairwise_disjoint l
  end.

(** A request for at least one address. *)
Definition asks_room (c : call) : Prop :=
  match c with
  | Allocate size => 0 < size
  | Deallocate _ _ => True
  end.

(** The free list obeys the invariants; the live allocations have room in
    them, lie in the address space, share no address with one another and are
    not marked free. *)
Definition client_safe (st : client) : Prop :=
  length (offsets_ (store st)) = length (sizes_ (store st)) ∧
  within 0 (UINT32_MAX + 1) (blocks (store st)) ∧
  Forall (λ l : block, in_space l ∧ 0 < l.2) (live st) ∧
  pairwise_disjoint (live st) ∧
  Forall (λ l : block, not_free (store st) l.1 l.2) (live st).

(** * The entity collection of [ouly/ecs/collection.hpp]

    A set of entity indices kept as bits: pool [p] of [pool_size] indices has
    a page of 64-bit words, one bit per index, and, when revisions are
    tracked, a second page of one byte per index.  The pages hang off
    [items_], in pool order. *)

Module collection.

(** Modelled from the spec: the specification says nothing of
    [ouly::default_config], [ouly::detail::pool_size_v], [ouly::detail::log2]
    and [ouly::debug], which live in headers that are missing; the two
    constants the class derives from them are taken as parameters:
    [pool_mul], the binary logarithm of the pool size, and [has_revision]. *)
Record config : Type := mk_config {
  pool_mul : Z;
  has_revision : bool
}.

(** Modelled from the spec: the entity type [EntityTy] is a template
    parameter; what the class uses of it is [get()], [revision()] and the
    constructors from an index and from an index and a revision.  The
    constructor from an index alone is taken to leave the revision 0. *)
Record entity_type : Type := mk_entity {
  get : Z;
  revision : Z
}.

Definition word_shift : Z := 6.
Definition word_mask : Z := 63.

Definition wrap64 (z : Z) : Z := z mod 2 ^ 64.
Definition wrap8 (z : Z) : Z := z mod 2 ^ 8.

(** [static_cast<size_type>(1) << pool_mul] and [pool_size - 1]. *)
Definition pool_size (cfg : config) : Z := wrap32 (Z.shiftl 1 (pool_mul cfg)).
Definition pool_mod (cfg : config) : Z := wrap32 (pool_size cfg - 1).

(** The number of words of a bit page:
    [bit_page_size / sizeof(storage) = (pool_size + word_mask) >> word_shift]. *)
Definition bit_page_words (cfg : config) : nat :=
  Z.to_nat (Z.shiftr (wrap32 (pool_size cfg + word_mask)) word_shift).

(** The number of bytes of a hazard page: [haz_page_size]. *)
Definition haz_page_bytes (cfg : config) : nat := Z.to_nat (pool_size cfg).

(** The members [items_], [length_] and [max_lnk_]; a page is the sequence
    of its words or of its bytes. *)
Record t : Type := mk {
  items_ : list (list Z);
  length_ : Z;
  max_lnk_ : Z
}.

(** A default-constructed collection. *)
Definition empty_collection : t := mk [] 0 0.

Definition with_items (c : t) (items : list (list Z)) : t :=
  mk items (length_ c) (max_lnk_ c).

Definition bit_page (cfg : config) (p : Z) : Z :=
  if has_revision cfg then wrap32 (p * 2) else p.

Definition hazard_page (cfg : config) (p : Z) : Z :=
  if has_revision cfg then wrap32 (wrap32 (p * 2) + 1) else UINT32_MAX.

Definition is_bit_set (cfg : config) (c : t) (nb : Z) : result bool :=
  let block := bit_page cfg (Z.shiftr nb (pool_mul cfg)) in
  let index := Z.land nb (pool_mod cfg) in
  let word_index := Z.shiftr index word_shift in
  let bit_offset := Z.land index word_mask in
  if Z.of_nat (length (items_ c)) <=? block then Ok false else
  words ← vec.at_ (items_ c) (Z.to_nat block);
  w ← vec.at_ words (Z.to_nat word_index);
  Ok (negb (Z.land w (Z.shiftl 1 bit_offset) =? 0)).

Definition unset_bit (cfg : config) (c : t) (nb : Z) : result t :=
  let block := bit_page cfg (Z.shiftr nb (pool_mul cfg)) in
  let index := Z.land nb (pool_mod cfg) in
  let word_index := Z.shiftr index word_shift in
  let bit_offset := Z.land index word_mask in
  words ← vec.at_ (items_ c) (Z.to_nat block);
  w ← vec.at_ words (Z.to_nat word_index);
  words ← vec.assign words (Z.to_nat word_index)
            (Z.land w (wrap64 (Z.lnot (Z.shiftl 1 bit_offset))));
  items ← vec.assign (items_ c) (Z.to_nat block) words;
  Ok (with_items c items).

(** The pages [set_bit] appends for a pool that has none: a bit page and,
    with revisions, a hazard page, both zeroed by [memset]. *)
Definition fresh_pages (cfg : config) : list (list Z) :=
  replicate (bit_page_words cfg) 0 ::
  (if has_revision cfg then [replicate (haz_page_bytes cfg) 0] else []).

Definition set_bit (cfg : config) (c : t) (nb : Z) : result t :=
  let block := bit_page cfg (Z.shiftr nb (pool_mul cfg)) in
  let index := Z.land nb (pool_mod cfg) in
  let items :=
    if Z.of_nat (length (items_ c)) <=? block
    then items_ c ++ fresh_pages cfg
    else items_ c in
  let word_index := Z.shiftr index word_shift in
  let bit_offset := Z.land index word_mask in
  words ← vec.at_ items (Z.to_nat block);
  w ← vec.at_ words (Z.to_nat word_index);
  words ← vec.assign words (Z.to_nat word_index)
            (Z.lor w (Z.shiftl 1 bit_offset));
  items ← vec.assign items (Z.to_nat block) words;
  Ok (with_items c items).

Definition set_hazard (cfg : config) (c : t) (nb hz : Z) : result t :=
  let block := hazard_page cfg (Z.shiftr nb (pool_mul cfg)) in
  let index := Z.land nb (pool_mod cfg) in
  bytes ← vec.at_ (items_ c) (Z.to_nat block);
  bytes ← vec.assign bytes (Z.to_nat index) hz;
  items ← vec.assign (items_ c) (Z.to_nat block) bytes;
  Ok (with_items c items).

Definition get_hazard (cfg : config) (c : t) (nb : Z) : result Z :=
  let block := hazard_page cfg (Z.shiftr nb (pool_mul cfg)) in
  let index := Z.land nb (pool_mod cfg) in
  bytes ← vec.at_ (items_ c) (Z.to_nat block);
  vec.at_ bytes (Z.to_nat index).

(** [OULY_ASSERT] is taken to be compiled in: [validate_hazard] is called
    only when [has_revision] holds, which a debug build is needed for. *)
Definition validate_hazard (cfg : config) (c : t) (nb hz : Z) : result unit :=
  stored ← get_hazard cfg c nb;
  if stored =? hz then Ok tt else Err AssertionFailed.

Definition emplace (cfg : config) (c : t) (l : entity_type) : result t :=
  let idx := get l in
  let c := mk (items_ c) (length_ c) (Z.max idx (max_lnk_ c)) in
  present ← is_bit_set cfg c idx;
  if (present : bool) then Ok c else
    c ← set_bit cfg c idx;
    c ← (if has_revision cfg then set_hazard cfg c idx (wrap8 (revision l))
         else Ok c);
    Ok (mk (items_ c) (wrap32 (length_ c + 1)) (max_lnk_ c)).

Definition erase (cfg : config) (c : t) (l : entity_type) : result t :=
  let idx := get l in
  present ← is_bit_set cfg c idx;
  if (present : bool) then
    _ ← (if has_revision cfg then validate_hazard cfg c idx (wrap8 (revision l))
         else Ok tt);
    c ← unset_bit cfg c idx;
    Ok (mk (items_ c) (wrap32 (length_ c - 1)) (max_lnk_ c))
  else Ok c.

Definition contains (cfg : config) (c : t) (l : entity_type) : result bool :=
  is_bit_set cfg c (get l).

Definition size (c : t) : Z := length_ c.

Definition empty (c : t) : bool := length_ c =? 0.

Definition capacity (cfg : config) (c : t) : Z :=
  wrap32 (wrap32 (Z.of_nat (length (items_ c))) * pool_size cfg).

Definition range (c : t) : Z := wrap32 (max_lnk_ c + 1).

Definition clear (c : t) : t := mk (items_ c) 0 0.

(** [for_each_l].  The container is its lookup [find]; the lambda acts on a
    state [acc].  An entity the container does not hold is passed over.
    [todo] counts the increments that take [first] to [last]. *)
Fixpoint for_each_l_loop {V St : Type} (cfg : config) (c : t)
    (find : entity_type → option V) (lambda : entity_type → V → St → St)
    (todo : nat) (first : Z) (acc : St) : result St :=
  match todo with
  | O => Ok acc
  | S todo =>
      present ← is_bit_set cfg c first;
      acc ← (if (present : bool) then
               l ← (if has_revision cfg
                    then hz ← get_hazard cfg c first; Ok (mk_entity first hz)
                    else Ok (mk_entity first 0));
               match find l with
               | Some v => Ok (lambda l v acc)
               | None => Ok acc
               end
             else Ok acc);
      for_each_l_loop cfg c find lambda todo (wrap32 (first + 1)) acc
  end.

Definition for_each_l {V St : Type} (cfg : config) (c : t)
    (find : entity_type → option V) (lambda : entity_type → V → St → St)
    (first last : Z) (acc : St) : result St :=
  for_each_l_loop cfg c find lambda (Z.to_nat (wrap32 (last - first))) first acc.

(** [for_each] over the whole range. *)
Definition for_each {V St : Type} (cfg : config) (c : t)
    (find : entity_type → option V) (lambda : entity_type → V → St → St)
    (acc : St) : result St :=
  for_each_l cfg c find lambda 0 (range c) acc.

(** ** The collection as its users see it *)

(** The class is compiled for a pool size from 1 to 2^31, and for at least
    two indices to a pool when revisions are tracked, so that the page
    numbers [p * 2] and [p * 2 + 1] of every index fit the size type. *)
Definition valid_config (cfg : config) : Prop :=
  0 <= pool_mul cfg < 32 ∧ (has_revision cfg = true → 0 < pool_mul cfg).

(** The pages of a pool: one, or two with revisions. *)
Definition pages_per_pool (cfg : config) : nat :=
  if has_revision cfg then 2%nat else 1%nat.

(** Every pool has its pages, each of the length it was allocated with. *)
Definition shaped (cfg : config) (c : t) : Prop :=
  (∃ pools : nat, length (items_ c) = (pools * pages_per_pool cfg)%nat) ∧
  ∀ i page, items_ c !! i = Some page →
    length page = if has_revision cfg && Nat.odd i
                  then haz_page_bytes cfg else bit_page_words cfg.

(** Where the bit of index [nb] is: page, word and bit. *)
Definition page_of (cfg : config) (nb : Z) : nat :=
  Z.to_nat (bit_page cfg (Z.shiftr nb (pool_mul cfg))).
Definition word_of (cfg : config) (nb : Z) : nat :=
  Z.to_nat (Z.shiftr (Z.land nb (pool_mod cfg)) word_shift).
Definition bit_of (cfg : config) (nb : Z) : Z :=
  Z.land (Z.land nb (pool_mod cfg)) word_mask.

(** The bit at a place of the pages, clear where there is no such place. *)
Definition bit_at (items : list (list Z)) (page word : nat) (bit : Z) : bool :=
  match items !! page with
  | Some words =>
      match words !! word with
      | Some w => Z.testbit w bit
      | None => false
      end
  | None => false
  end.

(** Index [nb] is a member. *)
Definition member (cfg : config) (c : t) (nb : Z) : bool :=
  bit_at (items_ c) (page_of cfg nb) (word_of cfg nb) (bit_of cfg nb).

(** The pool of the index has its pages, or is the first pool without. *)
Definition in_reach (cfg : config) (c : t) (nb : Z) : Prop :=
  (page_of cfg nb ≤ length (items_ c))%nat.

(** The revision stored for index [nb], when its pool has a hazard page. *)
Definition stored_revision (cfg : config) (c : t) (nb : Z) : option Z :=
  items_ c !! S (page_of cfg nb) ≫= (.!! Z.to_nat (Z.land nb (pool_mod cfg))).

(** The entity carries the revision that is stored for its index; nothing
    is asked without revisions, or of an entity that is not a member. *)
Definition revision_matches (cfg : config) (c : t) (l : entity_type) : Prop :=
  has_revision cfg = true → member cfg c (get l) = true →
  stored_revision cfg c (get l) = Some (wrap8 (revision l)).

(** The entity [for_each_l] makes of a member index. *)
Definition entity_at (cfg : config) (c : t) (nb : Z) : entity_type :=
  mk_entity nb (if has_revision cfg then default 0 (stored_revision cfg c nb) else 0).

(** What a traversal does at one index: the lambda runs when the index is a
    member and the container holds its entity. *)
Definition visit {V St : Type} (cfg : config) (c : t)
    (find : entity_type → option V) (lambda : entity_type → V → St → St)
    (acc : St) (nb : Z) : St :=
  if member cfg c nb then
    match find (entity_at cfg c nb) with
    | Some v => lambda (entity_at cfg c nb) v acc
    | None => acc
    end
  else acc.

(** The two calls that change the members. *)
Inductive op : Type :=
| Emplace (l : entity_type)
| Erase (l : entity_type).

Definition apply_op (cfg : config) (c : t) (o : op) : result t :=
  match o with
  | Emplace l => emplace cfg c l
  | Erase l => erase cfg c l
  end.

(** A call the class can serve: an index of the size type that [emplace]
    can reach, or that [erase] is given the stored revision for. *)
Definition op_in_order (cfg : config) (c : t) (o : op) : Prop :=
  match o with
  | Emplace l => is_u32 (get l) ∧ in_reach cfg c (get l)
  | Erase l => is_u32 (get l) ∧ revision_matches cfg c l
  end.

(** [size()] is the number of members, modulo 2^32: the members are the
    entries of a list without duplicates, as long as [size()] says. *)
Definition counted (cfg : config) (c : t) : Prop :=
  ∃ L : list Z,
    List.NoDup L ∧
    (∀ nb, In nb L ↔ is_u32 nb ∧ member cfg c nb = true) ∧
    size c = wrap32 (Z.of_nat (length L)).

(** No member lies above [max_lnk_], so that [range()] spans them all. *)
Definition covered (cfg : config) (c : t) : Prop :=
  ∀ nb, is_u32 nb → member cfg c nb = true → nb <= max_lnk_ c.

(** A run of calls, each on the collection the one before has left. *)
Fixpoint run_ops (cfg : config) (c : t) (ops : list op) : result t :=
  match ops with
  | [] => Ok c
  | o :: ops => c ← apply_op cfg c o; run_ops cfg c ops
  end.

Fixpoint ops_in_order (cfg : config) (c : t) (ops : list op) : Prop :=
  match ops with
  | [] => True
  | o :: ops =>
      op_in_order cfg c o ∧
      ∀ c', apply_op cfg c o = Ok c' → ops_in_order cfg c' ops
  end.

End collection.

(** * Properties *)

(** ** Machine integers and vectors *)

Lemma wrap32_id z : is_u32 z → wrap32 z = z.
Proof.
  unfold is_u32, wrap32, UINT32_MAX, size_type_bits. intros H.
  apply Z.mod_small. lia.
Qed.

Lemma UINT32_MAX_eq : UINT32_MAX = 4294967295.
Proof. reflexivity. Qed.

Lemma shiftr1_bounds (n : nat) :
  (2 * Nat.shiftr n 1 ≤ n ≤ 2 * Nat.shiftr n 1 + 1)%nat.
Proof.
  rewrite Nat.shiftr_div_pow2. change (2 ^ 1)%nat with 2%nat.
  pose proof (Nat.div_mod_eq n 2). pose proof (Nat.mod_upper_bound n 2). lia.
Qed.

Lemma at_middle {A} (l1 l2 : list A) x i :
  i = length l1 → vec.at_ (l1 ++ x :: l2) i = Ok x.
Proof. intros ->. unfold vec.at_. by rewrite list_lookup_middle. Qed.

Lemma at_lookup {A} (l : list A) i x : l !! i = Some x → vec.at_ l i = Ok x.
Proof. unfold vec.at_. by intros ->. Qed.

Lemma assign_middle {A} (l1 l2 : list A) x y i :
  i = length l1 → vec.assign (l1 ++ x :: l2) i y = Ok (l1 ++ y :: l2).
Proof.
  intros ->. unfold vec.assign.
  destruct (Nat.ltb_spec (length l1) (length (l1 ++ x :: l2))) as [_|H].
  - rewrite insert_app_r_alt by lia. by rewrite Nat.sub_diag.
  - rewrite length_app in H. simpl in H. lia.
Qed.

Lemma erase_middle {A} (l1 l2 : list A) x i :
  i = length l1 → vec.erase (l1 ++ x :: l2) i = Ok (l1 ++ l2).
Proof.
  intros ->. unfold vec.erase.
  destruct (Nat.ltb_spec (length l1) (length (l1 ++ x :: l2))) as [_|H].
  - by rewrite delete_middle.
  - rewrite length_app in H. simpl in H. lia.
Qed.

Lemma insert_middle {A} (l1 l2 : list A) y i :
  i = length l1 → vec.insert (l1 ++ l2) i y = Ok (l1 ++ y :: l2).
Proof.
  intros ->. unfold vec.insert.
  destruct (Nat.leb_spec (length l1) (length (l1 ++ l2))) as [_|H].
  - by rewrite take_app_length, drop_app_length.
  - rewrite length_app in H. lia.
Qed.

Lemma at_middle2 {A} (l1 l2 : list A) x y i :
  i = S (length l1) → vec.at_ (l1 ++ x :: y :: l2) i = Ok y.
Proof.
  intros ->. rewrite (cons_middle x l1), app_assoc. apply at_middle.
  rewrite length_app. simpl. lia.
Qed.

Lemma assign_middle2 {A} (l1 l2 : list A) x y z i :
  i = S (length l1) → vec.assign (l1 ++ x :: y :: l2) i z = Ok (l1 ++ x :: z :: l2).
Proof.
  intros ->. rewrite (cons_middle x l1 (y :: l2)), (cons_middle x l1 (z :: l2)), !app_assoc.
  apply assign_middle. rewrite length_app. simpl. lia.
Qed.

Lemma erase_middle2 {A} (l1 l2 : list A) x y i :
  i = S (length l1) → vec.erase (l1 ++ x :: y :: l2) i = Ok (l1 ++ x :: l2).
Proof.
  intros ->. rewrite (cons_middle x l1 (y :: l2)), (cons_middle x l1 l2), !app_assoc.
  apply erase_middle. rewrite length_app. simpl. lia.
Qed.

Lemma insert_middle2 {A} (l1 l2 : list A) x z i :
  i = S (length l1) → vec.insert (l1 ++ x :: l2) i z = Ok (l1 ++ x :: z :: l2).
Proof.
  intros ->. rewrite (cons_middle x l1 l2), (cons_middle x l1 (z :: l2)), !app_assoc.
  apply insert_middle. rewrite length_app. simpl. lia.
Qed.

Lemma back_snoc {A} (l : list A) x : vec.back (l ++ [x]) = Ok x.
Proof.
  unfold vec.back. destruct (l ++ [x]) as [|y k] eqn:E; [by destruct l|].
  rewrite <- E. apply at_middle. rewrite length_app. simpl. lia.
Qed.

Lemma assign_last {A} (l : list A) x y i :
  i = length l → vec.assign (l ++ [x]) i y = Ok (l ++ [y]).
Proof. apply assign_middle. Qed.

(** Runs the vector operations of a call on a sequence that is split at
    the index in use. *)
Ltac vec_len := rewrite ?length_app, ?length_fmap; simpl; first [reflexivity | lia].
Ltac vec_run :=
  repeat first
    [ progress cbn [mbind result_bind]
    | match goal with
      | |- context [vec.at_ (?l1 ++ ?x :: ?l2) ?i] =>
          rewrite (at_middle l1 l2 x i) by vec_len
      | |- context [vec.at_ (?l1 ++ ?x :: ?y :: ?l2) ?i] =>
          rewrite (at_middle2 l1 l2 x y i) by vec_len
      | |- context [vec.assign (?l1 ++ ?x :: ?l2) ?i ?z] =>
          rewrite (assign_middle l1 l2 x z i) by vec_len
      | |- context [vec.assign (?l1 ++ ?x :: ?y :: ?l2) ?i ?z] =>
          rewrite (assign_middle2 l1 l2 x y z i) by vec_len
      | |- context [vec.erase (?l1 ++ ?x :: ?l2) ?i] =>
          rewrite (erase_middle l1 l2 x i) by vec_len
      | |- context [vec.erase (?l1 ++ ?x :: ?y :: ?l2) ?i] =>
          rewrite (erase_middle2 l1 l2 x y i) by vec_len
      | |- context [vec.insert (?l1 ++ ?x :: ?l2) ?i ?z] =>
          first [ rewrite (insert_middle l1 (x :: l2) z i) by vec_len
                | rewrite (insert_middle2 l1 l2 x z i) by vec_len ]
      end ].

(** ** The search routine *)

Section search.
Variables (a : list Z) (key : Z).

Lemma step2_run it size :
  (1 ≤ size)%nat → (it + size ≤ length a)%nat →
  ∃ x, a !! (it + Nat.shiftr size 1)%nat = Some x ∧
    ACL_BINARY_SEARCH_STEP2 a key (it, size) =
      Ok (if x <? key then (it + Nat.shiftr size 1)%nat else it,
          Nat.shiftr (size + 1) 1).
Proof.
  intros Hs Hb. pose proof (shiftr1_bounds size) as Hh.
  destruct (lookup_lt_is_Some_2 a (it + Nat.shiftr size 1)) as [x Hx]; [lia|].
  exists x. split; [done|]. unfold ACL_BINARY_SEARCH_STEP2.
  by rewrite (at_lookup _ _ _ Hx).
Qed.

(** One step keeps the window inside the array and the lower bound inside
    the window. *)
Lemma step2_window it size :
  (1 ≤ size)%nat → (it + size ≤ length a)%nat →
  ∃ it' size', ACL_BINARY_SEARCH_STEP2 a key (it, size) = Ok (it', size') ∧
    (1 ≤ size')%nat ∧ (it' + size' ≤ length a)%nat ∧
    (2 * size' ≤ size + 1)%nat ∧
    ∀ lb, partitioned a key lb → (it ≤ lb ≤ it + size)%nat →
          (it' ≤ lb ≤ it' + size')%nat.
Proof.
  intros Hs Hb. destruct (step2_run it size Hs Hb) as (x & Hx & ->).
  pose proof (shiftr1_bounds size) as Hh.
  pose proof (shiftr1_bounds (size + 1)) as Hh'.
  eexists _, _. split; [done|].
  destruct (Z.ltb_spec x key) as [Hlt|Hge].
  - do 3 (split; [lia|]). intros lb [_ Hp] Hr.
    apply (Hp _ _ Hx) in Hlt. lia.
  - do 3 (split; [lia|]). intros lb [_ Hp] Hr.
    destruct (decide (it + Nat.shiftr size 1 < lb)%nat) as [Hc|Hc]; [|lia].
    apply (Hp _ _ Hx) in Hc. lia.
Qed.

Lemma mini2_loop_window fuel : ∀ it size,
  (1 ≤ size)%nat → (it + size ≤ length a)%nat → (size < fuel)%nat →
  ∃ it' size', mini2_loop fuel a key it size = Ok (it', size') ∧
    (1 ≤ size' ≤ 2)%nat ∧ (it' + size' ≤ length a)%nat ∧
    ∀ lb, partitioned a key lb → (it ≤ lb ≤ it + size)%nat →
          (it' ≤ lb ≤ it' + size')%nat.
Proof.
  induction fuel as [|fuel IH]; intros it size Hs Hb Hf; [lia|].
  destruct (step2_window it size Hs Hb) as (it1 & size1 & E1 & Hs1 & Hb1 & Hd1 & Hw1).
  destruct (step2_window it1 size1 Hs1 Hb1) as (it2 & size2 & E2 & Hs2 & Hb2 & Hd2 & Hw2).
  cbn [mini2_loop]. rewrite E1. cbn [mbind result_bind]. rewrite E2.
  cbn [mbind result_bind].
  destruct (Nat.ltb_spec 2 size2) as [Hgt|Hle].
  - destruct (IH it2 size2) as (it' & size' & E & Hs' & Hb' & Hw'); [lia..|].
    exists it', size'. do 3 (split; [done || lia|]). intros lb Hp Hr.
    apply (Hw' lb Hp), (Hw2 lb Hp), (Hw1 lb Hp), Hr.
  - exists it2, size2. do 3 (split; [done || lia|]). intros lb Hp Hr.
    apply (Hw2 lb Hp), (Hw1 lb Hp), Hr.
Qed.

(** On a non-empty array the direct form returns, reads inside the array
    only, and returns the lower bound of a partitioned array. *)
Lemma mini2_run :
  a ≠ [] →
  ∃ r, mini2 a (length a) key = Ok r ∧ (r ≤ length a)%nat ∧
    ∀ lb, partitioned a key lb → r = lb.
Proof.
  intros Hne. assert (1 ≤ length a)%nat as Hl by (destruct a; simpl; [done|lia]).
  destruct (mini2_loop_window (S (length a)) 0 (length a))
    as (it & size & E & Hs & Hb & Hw); [lia..|].
  unfold mini2. rewrite E. cbn [mbind result_bind].
  destruct (lookup_lt_is_Some_2 a it) as [x Hx]; [lia|].
  destruct (Nat.ltb_spec 1 size) as [H2|H1].
  - assert (size = 2%nat) as -> by lia.
    cbn [and_less Nat.ltb Nat.leb]. rewrite (at_lookup _ _ _ Hx).
    cbn [mbind result_bind].
    destruct (Z.ltb_spec x key) as [Hlt|Hge].
    + destruct (lookup_lt_is_Some_2 a (it + 1)) as [y Hy]; [lia|].
      rewrite (at_lookup _ _ _ Hy). cbn [mbind result_bind].
      eexists. split; [done|].
      destruct (Z.ltb_spec y key) as [Hlt'|Hge'].
      * split; [lia|]. intros lb Hp. specialize (Hw lb Hp).
        destruct Hp as [Hpl Hp]. apply (Hp _ _ Hy) in Hlt'. lia.
      * split; [lia|]. intros lb Hp. specialize (Hw lb Hp).
        destruct Hp as [Hpl Hp]. apply (Hp _ _ Hx) in Hlt.
        destruct (decide (it + 1 < lb)%nat) as [Hc|Hc]; [|lia].
        apply (Hp _ _ Hy) in Hc. lia.
    + rewrite Nat.add_0_r, (at_lookup _ _ _ Hx). cbn [mbind result_bind].
      destruct (Z.ltb_spec x key) as [Hlt|_]; [lia|].
      eexists. split; [done|]. split; [lia|]. intros lb Hp.
      specialize (Hw lb Hp). destruct Hp as [Hpl Hp].
      destruct (decide (it < lb)%nat) as [Hc|Hc]; [|lia].
      apply (Hp _ _ Hx) in Hc. lia.
  - assert (size = 1%nat) as -> by lia.
    cbn [and_less Nat.ltb Nat.leb mbind result_bind].
    rewrite Nat.add_0_r, (at_lookup _ _ _ Hx). cbn [mbind result_bind].
    eexists. split; [done|].
    destruct (Z.ltb_spec x key) as [Hlt|Hge].
    + split; [lia|]. intros lb Hp. specialize (Hw lb Hp).
      destruct Hp as [Hpl Hp]. apply (Hp _ _ Hx) in Hlt. lia.
    + split; [lia|]. intros lb Hp. specialize (Hw lb Hp).
      destruct Hp as [Hpl Hp].
      destruct (decide (it < lb)%nat) as [Hc|Hc]; [|lia].
      apply (Hp _ _ Hx) in Hc. lia.
Qed.

End search.

(** A sorted array is partitioned at its lower bound, for every key. *)
Lemma lower_bound_le a key : (lower_bound a key ≤ length a)%nat.
Proof. induction a as [|x a IH]; simpl; [lia|]. destruct (x <? key); simpl; lia. Qed.

Lemma lower_bound_partitioned a key :
  Sorted Z.le a → partitioned a key (lower_bound a key).
Proof.
  intros Hs. apply Sorted_StronglySorted in Hs; [|intros x y z; lia].
  split; [apply lower_bound_le|].
  induction Hs as [|x a Hs IH Hall]; intros i y Hy; [done|].
  simpl. destruct (Z.ltb_spec x key) as [Hlt|Hge].
  - destruct i as [|i]; simpl in Hy.
    + injection Hy as <-. split; [lia|done].
    + rewrite (IH i y Hy). lia.
  - split; [|lia]. intros Hlt. exfalso.
    destruct i as [|i]; simpl in Hy; [injection Hy as <-; lia|].
    rewrite List.Forall_forall in Hall.
    apply list_elem_of_lookup_2, list_elem_of_In, Hall in Hy. lia.
Qed.

(** The lower bound of an array that starts with entries below the key and
    goes on with one that is not. *)
Lemma lower_bound_app l1 l2 key :
  Forall (λ x, x < key) l1 →
  match l2 with x :: _ => key <= x | [] => True end →
  lower_bound (l1 ++ l2) key = length l1.
Proof.
  intros H1 H2. induction H1 as [|x l1 Hx _ IH]; simpl.
  - destruct l2 as [|y l2]; simpl; [done|].
    destruct (Z.ltb_spec y key); [lia|done].
  - destruct (Z.ltb_spec x key); [|lia]. by rewrite IH.
Qed.

(** The indirect form on an index array is the direct form on the array of
    the values the indices select. *)
Section indirect.
Variables (ix : list nat) (data a : list Z) (key : Z).
Hypothesis selects : Forall2 (λ i x, data !! i = Some x) ix a.

Lemma at_indirect m : vec.at_ ix m ≫= vec.at_ data = vec.at_ a m.
Proof using selects.
  unfold vec.at_. destruct (ix !! m) as [i|] eqn:E; cbn [mbind result_bind].
  - destruct (Forall2_lookup_l _ _ _ _ _ selects E) as (x & Ha & Hx).
    by rewrite Ha, Hx.
  - apply lookup_ge_None in E. pose proof selects as Hlen. apply Forall2_length in Hlen. rewrite Hlen in E.
    apply lookup_ge_None in E. by rewrite E.
Qed.

Lemma step_indirect st :
  ACL_BINARY_SEARCH_STEP_INDIRECT ix data key st =
  ACL_BINARY_SEARCH_STEP2 a key st.
Proof using selects.
  destruct st as [it size].
  unfold ACL_BINARY_SEARCH_STEP_INDIRECT, ACL_BINARY_SEARCH_STEP2.
  rewrite <- at_indirect.
  by destruct (vec.at_ ix (it + Nat.shiftr size 1)).
Qed.

Lemma loop_indirect fuel : ∀ it size,
  mini2_indirect_loop fuel ix data key it size = mini2_loop fuel a key it size.
Proof using selects.
  induction fuel as [|fuel IH]; intros it size; [done|].
  cbn [mini2_indirect_loop mini2_loop]. rewrite step_indirect.
  destruct (ACL_BINARY_SEARCH_STEP2 a key (it, size)) as [[it1 size1]|];
    cbn [mbind result_bind]; [|done].
  rewrite step_indirect.
  destruct (ACL_BINARY_SEARCH_STEP2 a key (it1, size1)) as [[it2 size2]|];
    cbn [mbind result_bind]; [|done].
  by rewrite IH.
Qed.

Lemma and_less_indirect_eq c it :
  and_less_indirect c ix data it key = and_less c a it key.
Proof using selects.
  unfold and_less_indirect, and_less. destruct c; [|done].
  rewrite <- at_indirect. by destruct (vec.at_ ix it).
Qed.

Lemma mini2_indirect_direct size :
  mini2_indirect ix data size key = mini2 a size key.
Proof using selects.
  unfold mini2_indirect, mini2. rewrite loop_indirect.
  destruct (mini2_loop (S size) a key 0 size) as [[it size']|];
    cbn [mbind result_bind]; [|done].
  rewrite and_less_indirect_eq.
  destruct (and_less (1 <? size')%nat a it key) as [d|];
    cbn [mbind result_bind]; [|done].
  by rewrite and_less_indirect_eq.
Qed.

End indirect.

(** C4, as the code has it.  For every non-empty sorted sequence
    (single-element ones included) and every key, both forms of the
    branchless search return the position a standard lower bound returns:
    the direct form on the sequence [a] itself, the indirect form on an index
    array [ix] whose entries select the values [a] out of [data].  The empty
    sequence is left out: there the first step reads the element at the
    start position, which lies outside the sequence. *)
Theorem mini2_lower_bound (a : list Z) (ix : list nat) (data : list Z) (key : Z) :
  a ≠ [] → Sorted Z.le a → Forall2 (λ i x, data !! i = Some x) ix a →
  mini2 a (length a) key = Ok (lower_bound a key) ∧
  mini2_indirect ix data (length ix) key = Ok (lower_bound a key).
Proof.
  intros Hne Hs Hsel.
  destruct (mini2_run a key Hne) as (r & E & _ & Hr).
  rewrite (Hr _ (lower_bound_partitioned a key Hs)) in E.
  split; [done|].
  rewrite (mini2_indirect_direct ix data a key Hsel).
  apply Forall2_length in Hsel. by rewrite Hsel.
Qed.

Lemma mini2_lower_bound_witness :
  mini2 [3; 5; 5; 9; 12] 5 5 = Ok 1%nat ∧
  mini2_indirect [2; 0; 4; 3; 1]%nat [5; 12; 3; 9; 5] 5 5 = Ok 1%nat.
Proof.
  apply (mini2_lower_bound [3; 5; 5; 9; 12] [2; 0; 4; 3; 1]%nat [5; 12; 3; 9; 5] 5).
  - discriminate.
  - repeat first [apply Sorted_cons | apply Sorted_nil
                 | apply HdRel_cons | apply HdRel_nil | lia].
  - repeat first [apply Forall2_nil | apply Forall2_cons; [reflexivity|]].
Defined.

(** C4 as stated fails on the empty sequence: the loop body runs before
    [size] is looked at, so with [size = 0] both forms read the element at
    the start position of an empty sequence and do not return the end
    position. *)
Lemma mini2_empty_reads_out_of_bounds :
  Sorted Z.le [] ∧
  mini2 [] (length ([] : list Z)) 7 = Err OutOfBounds ∧
  mini2_indirect [] [] (length ([] : list nat)) 7 = Err OutOfBounds ∧
  mini2 [] (length ([] : list Z)) 7 ≠ Ok (lower_bound [] 7).
Proof. split; [constructor|]. split; [done|]. split; [done|]. discriminate. Qed.

(** ** The two views of the store *)

Lemma blocks_of_blocks bs : blocks (of_blocks bs) = bs.
Proof. apply zip_fst_snd. Qed.

Lemma of_blocks_blocks s :
  length (offsets_ s) = length (sizes_ s) → of_blocks (blocks s) = s.
Proof.
  destruct s as [os ss]. simpl. intros Hl. unfold of_blocks, blocks. simpl.
  rewrite fst_zip, snd_zip by lia. done.
Qed.

Lemma of_blocks_app bs1 bs2 :
  of_blocks (bs1 ++ bs2) = mk_allocator (bs1.*1 ++ bs2.*1) (bs1.*2 ++ bs2.*2).
Proof. unfold of_blocks. by rewrite !fmap_app. Qed.

(** ** Invariants 1 to 4 as one recursion *)

Lemma within_weaken lo hi lo' hi' bs :
  within lo hi bs → lo' <= lo → hi <= hi' → within lo' hi' bs.
Proof.
  revert lo lo'. induction bs as [|b bs IH]; simpl; intros lo lo' H Hlo Hhi; [lia|].
  destruct H as (H1 & H2 & H3). repeat split; [lia..|].
  by apply (IH _ _ H3).
Qed.

Lemma within_bounds lo hi bs : within lo hi bs → lo <= hi.
Proof.
  revert lo. induction bs as [|b bs IH]; simpl; intros lo H; [done|].
  destruct H as (H1 & H2 & H3). apply IH in H3. lia.
Qed.

Lemma within_app lo hi bs1 bs2 :
  within lo hi (bs1 ++ bs2) ↔ ∃ m, within lo m bs1 ∧ within m hi bs2.
Proof.
  revert lo. induction bs1 as [|b bs1 IH]; simpl; intros lo.
  - split.
    + intros H. exists lo. split; [lia|done].
    + intros (m & Hm & H). by apply (within_weaken m hi).
  - rewrite IH. split.
    + intros (H1 & H2 & m & H3 & H4). by exists m.
    + intros (m & (H1 & H2 & H3) & H4). repeat split; [done..|]. by exists m.
Qed.

(** Every block takes an address and leaves one free after it, so a free
    list that obeys the invariants has at most 2^31 entries. *)
Lemma within_length lo hi bs :
  within lo hi bs → lo + 2 * Z.of_nat (length bs) <= hi.
Proof.
  revert lo. induction bs as [|b bs IH]; simpl length; intros lo H.
  - simpl in H. lia.
  - destruct H as (H1 & H2 & H3). apply IH in H3. lia.
Qed.

Lemma within_in_space lo hi bs :
  0 <= lo → hi <= UINT32_MAX + 1 → within lo hi bs → Forall in_space bs.
Proof.
  revert lo. induction bs as [|b bs IH]; intros lo Hlo Hhi H; [constructor|].
  destruct H as (H1 & H2 & H3). constructor.
  - apply within_bounds in H3. unfold in_space. lia.
  - apply (IH (b.1 + b.2 + 1)); [lia|done..].
Qed.

Lemma within_consecutive lo hi bs :
  within lo hi bs →
  strictly_ascending bs ∧ non_overlapping bs ∧ non_adjacent bs ∧ positive_sizes bs.
Proof.
  unfold strictly_ascending, non_overlapping, non_adjacent, positive_sizes.
  revert lo. induction bs as [|b bs IH]; intros lo H.
  - repeat split; constructor.
  - destruct H as (H1 & H2 & H3).
    destruct (IH _ H3) as (I1 & I2 & I3 & I4).
    destruct bs as [|b' bs].
    + repeat split. by repeat constructor.
    + destruct H3 as (H3 & _). simpl. repeat split; try done; try lia.
      by constructor.
Qed.

Lemma consecutive_within lo bs :
  Forall in_space bs → non_adjacent bs → positive_sizes bs →
  match bs with b :: _ => lo <= b.1 | [] => lo <= UINT32_MAX + 1 end →
  within lo (UINT32_MAX + 1) bs.
Proof.
  unfold non_adjacent, positive_sizes.
  revert lo. induction bs as [|b bs IH]; intros lo Hsp Hadj Hpos Hlo; [done|].
  apply Forall_cons_1 in Hsp as [Hb Hsp]. apply Forall_cons_1 in Hpos as [Hp Hpos].
  simpl. repeat split; [done..|]. apply IH; [done| |done|].
  - destruct bs; [done|]. apply Hadj.
  - destruct bs as [|b' bs]; [unfold in_space in Hb; lia|].
    destruct Hadj as [Hadj _]. lia.
Qed.

(** A well-formed store obeys invariants 1 to 4 exactly when its blocks lie
    [within] the address space. *)
Lemma inv_within s :
  well_formed s → free_list_inv s → within 0 (UINT32_MAX + 1) (blocks s).
Proof.
  intros [_ Hsp] (_ & _ & Hadj & Hpos). apply consecutive_within; try done.
  destruct (blocks s) as [|b bs]; [rewrite UINT32_MAX_eq; lia|].
  apply Forall_cons_1 in Hsp as [Hb _]. unfold in_space in Hb. lia.
Qed.

Lemma within_inv bs :
  within 0 (UINT32_MAX + 1) bs →
  well_formed (of_blocks bs) ∧ free_list_inv (of_blocks bs).
Proof.
  intros H. unfold well_formed, free_list_inv. rewrite blocks_of_blocks.
  split; [split|].
  - unfold of_blocks. simpl. by rewrite !length_fmap.
  - by apply (within_in_space 0 (UINT32_MAX + 1)).
  - by apply (within_consecutive 0 (UINT32_MAX + 1)).
Qed.

Lemma inv_length s :
  well_formed s → free_list_inv s →
  Z.of_nat (length (sizes_ s)) <= UINT32_MAX.
Proof.
  intros Hwf Hinv. pose proof (inv_within s Hwf Hinv) as H.
  apply within_length in H. destruct Hwf as [Hl _].
  unfold blocks in H. rewrite length_zip_with, Hl, Nat.min_id in H.
  rewrite UINT32_MAX_eq in *. lia.
Qed.

Lemma within_sorted lo hi bs : within lo hi bs → Sorted Z.le bs.*1.
Proof.
  revert lo. induction bs as [|b bs IH]; intros lo H; [constructor|].
  destruct H as (H1 & H2 & H3). simpl. constructor; [by apply (IH _ H3)|].
  destruct bs as [|b' bs]; [constructor|]. destruct H3 as [H3 _].
  constructor. lia.
Qed.

(** Decides the invariants, and the like, of a store that is written out. *)
Ltac concrete :=
  unfold well_formed, free_list_inv, strictly_ascending, non_overlapping,
    non_adjacent, positive_sizes, not_free, disjoint, in_space;
  rewrite ?UINT32_MAX_eq;
  cbn [blocks zip zip_with offsets_ sizes_ consecutive fst snd length within];
  repeat match goal with
    | |- _ ∧ _ => split
    | |- Forall _ (_ :: _) => apply Forall_cons
    | |- Forall _ [] => apply Forall_nil
    | |- True => exact I
    end;
  try first [reflexivity | cbn [fst snd]; lia].

(** ** allocate *)

(** The element count of a store whose count fits 32 bits survives the
    cast to [uint32_t]. *)
Lemma end_cast n : Z.of_nat n <= UINT32_MAX → Z.to_nat (wrap32 (Z.of_nat n)) = n.
Proof. intros H. rewrite wrap32_id by (unfold is_u32; lia). lia. Qed.

(** The cast never makes the loop run past the end of the store. *)
Lemma end_cast_le n : (Z.to_nat (wrap32 (Z.of_nat n)) ≤ n)%nat.
Proof.
  unfold wrap32, size_type_bits.
  pose proof (Z.mod_le (Z.of_nat n) (2 ^ 32)). lia.
Qed.

(** The scan passes over blocks that are too small. *)
Lemma allocate_loop_none size s : ∀ todo i,
  (i + todo ≤ length (sizes_ s))%nat →
  (∀ j sz, (i ≤ j < i + todo)%nat → sizes_ s !! j = Some sz → sz < size) →
  allocate_loop todo i s size = Ok (UINT32_MAX, s).
Proof.
  induction todo as [|todo IH]; intros i Hi Hall; [done|].
  destruct (lookup_lt_is_Some_2 (sizes_ s) i) as [sz Hsz]; [lia|].
  cbn [allocate_loop]. rewrite (at_lookup _ _ _ Hsz). cbn [mbind result_bind].
  pose proof (Hall i sz ltac:(lia) Hsz) as Hlt.
  destruct (Z.leb_spec size sz); [lia|]. apply IH; [lia|].
  intros j sz' Hj. apply Hall. lia.
Qed.

Lemma allocate_all_small s size :
  Forall (λ sz, sz < size) (sizes_ s) → allocate s size = Ok (UINT32_MAX, s).
Proof.
  intros Hall. unfold allocate. apply allocate_loop_none.
  - pose proof (end_cast_le (length (sizes_ s))). lia.
  - intros j sz _ Hsz. by apply (proj1 (Forall_lookup _ _) Hall j sz).
Qed.

Lemma sizes_at pre (b : block) post :
  vec.at_ (sizes_ (of_blocks (pre ++ b :: post))) (length pre) = Ok b.2.
Proof. rewrite of_blocks_app. simpl. apply at_middle. by rewrite length_fmap. Qed.

(** The scan stops at the first block that is large enough. *)
Lemma allocate_loop_found size b post : ∀ pre2 pre1 todo,
  Forall (λ p : block, p.2 < size) pre2 → size <= b.2 →
  (length pre2 < todo)%nat →
  allocate_loop todo (length pre1) (of_blocks (pre1 ++ pre2 ++ b :: post)) size =
    Ok (b.1, of_blocks ((pre1 ++ pre2) ++ remainder32 b size ++ post)).
Proof.
  induction pre2 as [|p pre2 IH]; intros pre1 todo Hall Hb Htodo;
    (destruct todo as [|todo]; [simpl in Htodo; lia|]).
  - rewrite app_nil_r. cbn [app allocate_loop].
    rewrite !of_blocks_app. cbn [fmap list_fmap sizes_ offsets_].
    vec_run. assert ((size <=? b.2) = true) as -> by (apply Z.leb_le; lia).
    vec_run. unfold remainder32. destruct (wrap32 (b.2 - size) =? 0); vec_run; done.
  - apply Forall_cons_1 in Hall as [Hp Hall].
    cbn [app allocate_loop]. rewrite sizes_at. cbn [mbind result_bind].
    assert ((size <=? p.2) = false) as -> by (apply Z.leb_gt; lia).
    replace (pre1 ++ p :: pre2 ++ b :: post) with ((pre1 ++ [p]) ++ pre2 ++ b :: post)
      by (by rewrite <- app_assoc).
    replace (S (length pre1)) with (length (pre1 ++ [p]))
      by (rewrite length_app; simpl; lia).
    rewrite IH; [|done..|simpl in Htodo; lia].
    by rewrite <- !app_assoc.
Qed.

(** Inside the address space the arithmetic of the size type is exact. *)
Lemma remainder32_exact b size :
  in_space b → 0 <= size <= b.2 →
  remainder32 b size = remainder b size.
Proof.
  unfold in_space, remainder32, remainder. intros (H1 & H2 & H3) Hs.
  rewrite !wrap32_id by (unfold is_u32; lia). done.
Qed.

(** The first block that is large enough, when there is one. *)
Lemma first_fit_split size (bs : list block) :
  Exists (λ b : block, size <= b.2) bs →
  ∃ pre b post, bs = pre ++ b :: post ∧
    Forall (λ p : block, p.2 < size) pre ∧ size <= b.2.
Proof.
  induction 1 as [b bs Hb|b bs _ IH].
  - exists [], b, bs. by repeat split.
  - destruct (Z.le_gt_cases size b.2) as [Hle|Hgt].
    + exists [], b, bs. by repeat split.
    + destruct IH as (pre & b' & post & -> & Hpre & Hb').
      exists (b :: pre), b', post. repeat split; [|done]. constructor; [lia|done].
Qed.

Lemma allocate_found pre b post size :
  Z.of_nat (length (pre ++ b :: post)) <= UINT32_MAX →
  Forall (λ p : block, p.2 < size) pre → size <= b.2 →
  allocate (of_blocks (pre ++ b :: post)) size =
    Ok (b.1, of_blocks (pre ++ remainder32 b size ++ post)).
Proof.
  intros Hlen Hpre Hb. unfold allocate. rewrite end_cast.
  - apply (allocate_loop_found size b post pre []); [done..|].
    unfold of_blocks. simpl. rewrite length_fmap, length_app. simpl. lia.
  - unfold of_blocks. simpl. by rewrite length_fmap.
Qed.

(** C3.  On a free list that obeys the invariants, a request that some
    block can hold is served from the first block, in list order, whose size
    is at least the request: its offset is returned; the block's offset
    advances and its size shrinks by the request; it is removed exactly when
    nothing remains of it; the blocks before and after it stay as they were. *)
Theorem allocate_first_fit (s : coalescing_allocator) (size : Z) :
  well_formed s → free_list_inv s → 0 <= size →
  Exists (λ b : block, size <= b.2) (blocks s) →
  ∃ pre b post,
    blocks s = pre ++ b :: post ∧
    Forall (λ p : block, p.2 < size) pre ∧ size <= b.2 ∧
    allocate s size = Ok (b.1, of_blocks (pre ++ remainder b size ++ post)).
Proof.
  intros Hwf Hinv Hsize Hex.
  destruct (first_fit_split size _ Hex) as (pre & b & post & E & Hpre & Hb).
  exists pre, b, post. do 3 (split; [done|]).
  pose proof (inv_length s Hwf Hinv) as Hlen. destruct Hwf as [Hpar Hsp].
  rewrite <- (of_blocks_blocks s Hpar), E.
  rewrite allocate_found; [|rewrite <- E|done..].
  - rewrite remainder32_exact; [done| |lia].
    rewrite E in Hsp. by apply Forall_app in Hsp as [_ [Hsp _]%Forall_cons_1].
  - unfold blocks. rewrite length_zip_with, Hpar, Nat.min_id. done.
Qed.

Lemma allocate_first_fit_witness :
  ∃ pre b post,
    [(0, 50); (100, 10); (200, 100)] = pre ++ b :: post ∧
    Forall (λ p : block, p.2 < 20) pre ∧ 20 <= b.2 ∧
    allocate (mk_allocator [0; 100; 200] [50; 10; 100]) 20 =
      Ok (b.1, of_blocks (pre ++ remainder b 20 ++ post)).
Proof.
  apply (allocate_first_fit (mk_allocator [0; 100; 200] [50; 10; 100]) 20).
  - concrete.
  - concrete.
  - lia.
  - apply Exists_cons_hd. simpl. lia.
Defined.

(** The 50-sized block is the one chosen among sizes [50, 10, 100]. *)
Example first_fit_among_50_10_100 :
  allocate (mk_allocator [0; 100; 200] [50; 10; 100]) 20 =
    Ok (0, mk_allocator [20; 100; 200] [30; 10; 100]).
Proof. reflexivity. Qed.

(** C5.  When no stored block is as large as the request, [allocate]
    returns the largest value of the size type and the free list is the one
    it was. *)
Theorem allocate_exhausted (s : coalescing_allocator) (size : Z) :
  Forall (λ sz, sz < size) (sizes_ s) →
  allocate s size = Ok (UINT32_MAX, s).
Proof.
  apply allocate_all_small.
Qed.

Lemma allocate_exhausted_witness :
  allocate (mk_allocator [0] [10]) 20 = Ok (4294967295, mk_allocator [0] [10]).
Proof.
  apply (allocate_exhausted (mk_allocator [0] [10]) 20).
  apply Forall_cons; [simpl; lia|apply Forall_nil].
Defined.

(** C10, as the code has it.  [allocate(0)] on any free list of the size
    type, of two sequences of equal length with fewer than 2^32 entries,
    sorted or not: the empty list gives the sentinel and stays empty; a
    non-empty list gives the offset of its first entry, and stays as it is
    when the size of that entry is not zero, but loses the entry when its
    size is zero. *)
Theorem allocate_zero (s : coalescing_allocator) :
  length (offsets_ s) = length (sizes_ s) →
  Z.of_nat (length (sizes_ s)) <= UINT32_MAX →
  Forall is_u32 (offsets_ s) → Forall is_u32 (sizes_ s) →
  match blocks s with
  | [] => allocate s 0 = Ok (UINT32_MAX, s)
  | b :: rest => allocate s 0 = Ok (b.1, if b.2 =? 0 then of_blocks rest else s)
  end.
Proof.
  destruct s as [[|first os] [|sz ss]]; simpl; intros Hlen Hmax Hos Hss;
    [done|lia|lia|].
  apply Forall_cons_1 in Hos as [Hfirst _].
  apply Forall_cons_1 in Hss as [Hsz _].
  replace (of_blocks (zip os ss)) with (mk_allocator os ss)
    by (symmetry; apply (of_blocks_blocks (mk_allocator os ss)); simpl; lia).
  unfold allocate. cbn [sizes_ length].
  rewrite wrap32_id by (unfold is_u32; lia). rewrite Nat2Z.id.
  cbn [allocate_loop sizes_ offsets_]. unfold vec.at_, vec.assign.
  cbn [lookup list_lookup mbind result_bind length Nat.ltb Nat.leb].
  destruct (Z.leb_spec 0 sz) as [_|]; [|unfold is_u32 in Hsz; lia].
  cbn [mbind result_bind list_insert insert lookup list_lookup].
  rewrite Z.sub_0_r, Z.add_0_r, !wrap32_id by done.
  destruct (sz =? 0); [|done].
  unfold vec.erase. by cbn [length Nat.ltb Nat.leb mbind result_bind delete list_delete].
Qed.

Lemma allocate_zero_witness :
  match blocks (mk_allocator [200; 30] [5; 70]) with
  | [] => allocate (mk_allocator [200; 30] [5; 70]) 0
          = Ok (UINT32_MAX, mk_allocator [200; 30] [5; 70])
  | b :: rest =>
      allocate (mk_allocator [200; 30] [5; 70]) 0
      = Ok (b.1, if b.2 =? 0 then of_blocks rest else mk_allocator [200; 30] [5; 70])
  end.
Proof.
  apply (allocate_zero (mk_allocator [200; 30] [5; 70])).
  - reflexivity.
  - rewrite UINT32_MAX_eq. simpl. lia.
  - simpl. unfold is_u32. rewrite UINT32_MAX_eq. repeat constructor; lia.
  - simpl. unfold is_u32. rewrite UINT32_MAX_eq. repeat constructor; lia.
Defined.

(** C10 as stated fails on a free list whose first entry has size zero,
    which calls that are valid lead to: from the free list [{0,10},{20,10}],
    [allocate(0)], [allocate(10)] and [deallocate(0,0)] of the first
    allocation leave [{0,0},{20,10}]; on it [allocate(0)] returns offset 0
    and removes the first entry instead of leaving the free list unchanged. *)
Lemma allocate_zero_erases_zero_size_entry :
  valid_calls (mk_client (mk_allocator [0; 20] [10; 10]) [])
    [Allocate 0; Allocate 10; Deallocate 0 0] ∧
  client_run (mk_client (mk_allocator [0; 20] [10; 10]) [])
    [Allocate 0; Allocate 10; Deallocate 0 0]
    = Ok (mk_client (mk_allocator [0; 20] [0; 10]) [(0, 10)]) ∧
  offsets_ (mk_allocator [0; 20] [0; 10]) ≠ [] ∧
  allocate (mk_allocator [0; 20] [0; 10]) 0 = Ok (0, mk_allocator [20] [10]) ∧
  allocate (mk_allocator [0; 20] [0; 10]) 0 ≠ Ok (0, mk_allocator [0; 20] [0; 10]).
Proof.
  split.
  { simpl. unfold is_u32. rewrite UINT32_MAX_eq.
    repeat split; try lia; try discriminate.
    apply elem_of_cons. right. apply elem_of_cons. by left. }
  split; [reflexivity|]. split; [discriminate|]. split; [reflexivity|discriminate].
Qed.

(** ** deallocate *)

Section deallocate_run.
Variables (offset size : Z).

(** The search result selects the branch; each branch, run on a store
    that is split at the insertion point. *)
Lemma deallocate_front b tl :
  let s := of_blocks (b :: tl) in
  mini2 (offsets_ s) (length (offsets_ s)) offset = Ok 0%nat →
  deallocate s offset size = Ok (of_blocks (coalesce_front32 b offset size ++ tl)).
Proof.
  intros s E. unfold deallocate. cbv zeta. rewrite E. subst s.
  cbn [of_blocks offsets_ sizes_ fmap list_fmap bool_decide].
  rewrite bool_decide_eq_false_2 by done. cbn [mbind result_bind Nat.eqb].
  unfold coalesce_front32, vec.front, vec.assign, vec.insert.
  cbn [vec.at_ lookup list_lookup length Nat.ltb Nat.leb mbind result_bind].
  destruct (wrap32 (offset + size) =? b.1); reflexivity.
Qed.

Lemma deallocate_back pre b :
  let s := of_blocks (pre ++ [b]) in
  mini2 (offsets_ s) (length (offsets_ s)) offset = Ok (length (pre ++ [b])) →
  deallocate s offset size = Ok (of_blocks (pre ++ coalesce_back32 b offset size)).
Proof.
  intros s E. unfold deallocate. cbv zeta. rewrite E. subst s.
  rewrite !of_blocks_app. cbn [offsets_ sizes_ fmap list_fmap].
  rewrite bool_decide_eq_false_2 by (by destruct pre).
  cbn [mbind result_bind].
  replace (length (pre ++ [b]) =? 0)%nat with false
    by (symmetry; apply Nat.eqb_neq; rewrite length_app; simpl; lia).
  replace (length (pre ++ [b]) =? length (pre.*1 ++ [b.1]))%nat with true
    by (symmetry; apply Nat.eqb_eq; rewrite !length_app, length_fmap; done).
  rewrite !back_snoc. cbn [mbind result_bind].
  unfold coalesce_back32. destruct (wrap32 (b.1 + b.2) =? offset).
  - rewrite assign_last by (rewrite length_app, length_fmap; simpl; lia).
    cbn [mbind result_bind]. done.
  - unfold vec.emplace_back. simpl. by rewrite <- !app_assoc.
Qed.

Lemma deallocate_interior pre p n post :
  let s := of_blocks (pre ++ p :: n :: post) in
  mini2 (offsets_ s) (length (offsets_ s)) offset = Ok (S (length pre)) →
  deallocate s offset size =
    Ok (of_blocks (pre ++ coalesce_interior32 p n offset size ++ post)).
Proof.
  intros s E. unfold deallocate. cbv zeta. rewrite E. subst s.
  rewrite !of_blocks_app. cbn [offsets_ sizes_ fmap list_fmap].
  rewrite bool_decide_eq_false_2 by (by destruct pre).
  cbn [mbind result_bind]. change (S (length pre) =? 0)%nat with false.
  rewrite (proj2 (Nat.eqb_neq (S (length pre)) _))
    by (rewrite length_app, length_fmap; simpl; lia).
  cbn [Nat.sub]. rewrite Nat.sub_0_r.
  vec_run. unfold coalesce_interior32.
  destruct (wrap32 (p.1 + p.2) =? offset).
  - vec_run. destruct (n.1 =? wrap32 (p.1 + wrap32 (p.2 + size))); vec_run; done.
  - vec_run. destruct (n.1 =? wrap32 (offset + size)); vec_run; done.
Qed.

End deallocate_run.

Lemma mini2_sorted a key :
  a ≠ [] → Sorted Z.le a → mini2 a (length a) key = Ok (lower_bound a key).
Proof.
  intros Hne Hs. destruct (mini2_run a key Hne) as (r & E & _ & Hr).
  by rewrite (Hr _ (lower_bound_partitioned a key Hs)) in E.
Qed.

(** Every list of blocks splits into the blocks that start below a key and
    the rest, which is empty or starts with a block that does not. *)
Lemma split_at_key (bs : list block) key :
  ∃ pre post, bs = pre ++ post ∧ Forall (λ x, x < key) pre.*1 ∧
    match post with b :: _ => key <= b.1 | [] => True end.
Proof.
  induction bs as [|b bs (pre & post & -> & Hpre & Hpost)].
  - by exists [], [].
  - destruct (Z.lt_ge_cases b.1 key) as [Hlt|Hge].
    + exists (b :: pre), post. repeat split; [|done]. by constructor.
    + exists [], (b :: pre ++ post). by repeat split.
Qed.

Lemma snoc_cases {A} (l : list A) : l = [] ∨ ∃ l' x, l = l' ++ [x].
Proof. induction l using rev_ind; [by left|right; eauto]. Qed.

(** On a free list that obeys the invariants, the branch [deallocate] takes
    and the neighbours it looks at. *)
Lemma deallocate_sorted lo hi bs offset size :
  within lo hi bs → bs ≠ [] →
  (∃ b tl, bs = b :: tl ∧ offset <= b.1 ∧ lower_bound bs.*1 offset = 0%nat ∧
     deallocate (of_blocks bs) offset size =
       Ok (of_blocks (coalesce_front32 b offset size ++ tl))) ∨
  (∃ pre b, bs = pre ++ [b] ∧ b.1 < offset ∧
     lower_bound bs.*1 offset = length bs ∧
     deallocate (of_blocks bs) offset size =
       Ok (of_blocks (pre ++ coalesce_back32 b offset size))) ∨
  (∃ pre p n post, bs = pre ++ p :: n :: post ∧ p.1 < offset <= n.1 ∧
     lower_bound bs.*1 offset = S (length pre) ∧
     deallocate (of_blocks bs) offset size =
       Ok (of_blocks (pre ++ coalesce_interior32 p n offset size ++ post))).
Proof.
  intros Hw Hne.
  assert (mini2 (offsets_ (of_blocks bs)) (length (offsets_ (of_blocks bs))) offset
          = Ok (lower_bound bs.*1 offset)) as E.
  { apply mini2_sorted; [by destruct bs|by apply (within_sorted lo hi)]. }
  destruct (split_at_key bs offset) as (pre & post & -> & Hpre & Hpost).
  assert (lower_bound (pre ++ post).*1 offset = length pre) as Hlb.
  { rewrite fmap_app, lower_bound_app, length_fmap; [done..|by destruct post]. }
  rewrite Hlb in E.
  destruct (snoc_cases pre) as [->|(pre' & p & ->)].
  - destruct post as [|b tl]; [done|]. left. exists b, tl.
    do 3 (split; [done|]). by apply deallocate_front.
  - assert (p.1 < offset) as Hp.
    { rewrite fmap_app in Hpre. apply Forall_app in Hpre as [_ Hp].
      by apply Forall_cons_1 in Hp as [Hp _]. }
    destruct post as [|n post].
    + right; left. exists pre', p. rewrite app_nil_r in *.
      do 3 (split; [done|]). by apply deallocate_back.
    + right; right. exists pre', p, n, post. rewrite <- app_assoc in *.
      split; [done|]. split; [lia|]. rewrite length_app in *. simpl in *.
      replace (length pre' + 1)%nat with (S (length pre')) in * by lia.
      split; [done|]. by apply deallocate_interior.
Qed.

(** On any non-empty store with parallel sequences, [deallocate] returns:
    the search stays inside the offsets, and the branch it selects touches
    positions that exist. *)
Lemma deallocate_cases bs offset size :
  bs ≠ [] →
  (∃ b tl, bs = b :: tl ∧
     deallocate (of_blocks bs) offset size =
       Ok (of_blocks (coalesce_front32 b offset size ++ tl))) ∨
  (∃ pre b, bs = pre ++ [b] ∧
     deallocate (of_blocks bs) offset size =
       Ok (of_blocks (pre ++ coalesce_back32 b offset size))) ∨
  (∃ pre p n post, bs = pre ++ p :: n :: post ∧
     deallocate (of_blocks bs) offset size =
       Ok (of_blocks (pre ++ coalesce_interior32 p n offset size ++ post))).
Proof.
  intros Hne.
  destruct (mini2_run (offsets_ (of_blocks bs)) offset) as (r & E & Hr & _);
    [by destruct bs|].
  simpl in Hr. rewrite length_fmap in Hr.
  destruct r as [|r].
  - destruct bs as [|b tl]; [done|]. left. exists b, tl. split; [done|].
    by apply deallocate_front.
  - destruct (decide (S r = length bs)) as [Hlast|Hmid].
    + destruct (snoc_cases bs) as [->|(pre & b & ->)]; [done|].
      right; left. exists pre, b. split; [done|]. apply deallocate_back.
      by rewrite <- Hlast.
    + right; right.
      destruct (lookup_lt_is_Some_2 bs r) as [p Hp]; [lia|].
      destruct (lookup_lt_is_Some_2 bs (S r)) as [n Hn]; [lia|].
      exists (take r bs), p, n, (drop (S (S r)) bs).
      assert (bs = take r bs ++ p :: n :: drop (S (S r)) bs) as Hsplit.
      { rewrite <- (take_drop r bs) at 1.
        by rewrite (drop_S bs p r Hp), (drop_S bs n (S r) Hn). }
      split; [done|]. rewrite Hsplit at 1. apply deallocate_interior.
      rewrite <- Hsplit, length_take. replace (r `min` length bs)%nat with r by lia.
      done.
Qed.

(** ** Coalescing, case by case *)

Lemma total_size_app bs1 bs2 :
  total_size (bs1 ++ bs2) = total_size bs1 + total_size bs2.
Proof. induction bs1 as [|b bs1 IH]; simpl; [done|]. unfold total_size in *. simpl. lia. Qed.

Lemma total_size_cons (b : block) bs : total_size (b :: bs) = b.2 + total_size bs.
Proof. done. Qed.

Ltac coalesce_cases :=
  repeat match goal with
    | |- context [?x =? ?y] => destruct (Z.eqb_spec x y)
    end.

(** Inside the address space the arithmetic of the size type is exact. *)
Lemma coalesce_front32_exact b offset size :
  in_space b → in_space (offset, size) →
  coalesce_front32 b offset size = coalesce_front b offset size.
Proof.
  unfold in_space, coalesce_front32, coalesce_front. simpl.
  intros (H1 & H2 & H3) (H4 & H5 & H6).
  rewrite (wrap32_id (offset + size)) by (unfold is_u32; lia).
  destruct (Z.eqb_spec (offset + size) b.1); [|done].
  by rewrite wrap32_id by (unfold is_u32; lia).
Qed.

Lemma coalesce_back32_exact b offset size :
  in_space b → in_space (offset, size) →
  coalesce_back32 b offset size = coalesce_back b offset size.
Proof.
  unfold in_space, coalesce_back32, coalesce_back. simpl.
  intros (H1 & H2 & H3) (H4 & H5 & H6).
  rewrite (wrap32_id (b.1 + b.2)) by (unfold is_u32; lia).
  destruct (Z.eqb_spec (b.1 + b.2) offset); [|done].
  by rewrite wrap32_id by (unfold is_u32; lia).
Qed.

Lemma coalesce_interior32_exact p n offset size :
  in_space p → in_space n → in_space (offset, size) →
  coalesce_interior32 p n offset size = coalesce_interior p n offset size.
Proof.
  unfold in_space, coalesce_interior32, coalesce_interior. simpl.
  intros (H1 & H2 & H3) (H4 & H5 & H6) (H7 & H8 & H9).
  rewrite (wrap32_id (p.1 + p.2)) by (unfold is_u32; lia).
  destruct (Z.eqb_spec (p.1 + p.2) offset).
  - rewrite (wrap32_id (p.2 + size)) by (unfold is_u32; lia).
    rewrite (wrap32_id (p.1 + (p.2 + size))) by (unfold is_u32; lia).
    rewrite (Z.eqb_sym n.1).
    destruct (Z.eqb_spec (p.1 + (p.2 + size)) n.1); [|done].
    by rewrite wrap32_id by (unfold is_u32; lia).
  - rewrite (wrap32_id (offset + size)) by (unfold is_u32; lia).
    destruct (Z.eqb_spec n.1 (offset + size)); [|done].
    by rewrite !wrap32_id by (unfold is_u32; lia).
Qed.

(** Each case keeps the blocks inside the address space and adds the freed
    size to the sum of the sizes. *)
Lemma coalesce_front_space b offset size :
  in_space b → in_space (offset, size) →
  Forall in_space (coalesce_front b offset size) ∧
  total_size (coalesce_front b offset size) = b.2 + size.
Proof.
  unfold in_space, coalesce_front, total_size. simpl.
  intros (H1 & H2 & H3) (H4 & H5 & H6).
  coalesce_cases; simpl; (split; [repeat constructor; simpl; lia|lia]).
Qed.

Lemma coalesce_back_space b offset size :
  in_space b → in_space (offset, size) →
  Forall in_space (coalesce_back b offset size) ∧
  total_size (coalesce_back b offset size) = b.2 + size.
Proof.
  unfold in_space, coalesce_back, total_size. simpl.
  intros (H1 & H2 & H3) (H4 & H5 & H6).
  coalesce_cases; simpl; (split; [repeat constructor; simpl; lia|lia]).
Qed.

Lemma coalesce_interior_space p n offset size :
  in_space p → in_space n → in_space (offset, size) →
  Forall in_space (coalesce_interior p n offset size) ∧
  total_size (coalesce_interior p n offset size) = p.2 + n.2 + size.
Proof.
  unfold in_space, coalesce_interior, total_size. simpl.
  intros (H1 & H2 & H3) (H4 & H5 & H6) (H7 & H8 & H9).
  coalesce_cases; simpl; (split; [repeat constructor; simpl; lia|lia]).
Qed.

(** Each case keeps invariants 1 to 4 when the freed range has room in it
    and lies between the neighbours. *)
Lemma coalesce_front_within lo hi b tl offset size :
  within lo hi (b :: tl) → lo <= offset → 0 < size → offset + size <= b.1 →
  within lo hi (coalesce_front b offset size ++ tl).
Proof.
  unfold coalesce_front. simpl. intros (H1 & H2 & H3) Ho Hs He.
  coalesce_cases; simpl; repeat split; try lia;
    (eapply within_weaken; [eassumption|lia..]).
Qed.

Lemma coalesce_back_within lo hi b offset size :
  within lo hi [b] → b.1 + b.2 <= offset → 0 < size → offset + size + 1 <= hi →
  within lo hi (coalesce_back b offset size).
Proof.
  unfold coalesce_back. simpl. intros (H1 & H2 & H3) Ho Hs He.
  coalesce_cases; simpl; repeat split; lia.
Qed.

Lemma coalesce_interior_within lo hi p n post offset size :
  within lo hi (p :: n :: post) →
  p.1 + p.2 <= offset → 0 < size → offset + size <= n.1 →
  within lo hi (coalesce_interior p n offset size ++ post).
Proof.
  unfold coalesce_interior. simpl. intros (H1 & H2 & H3 & H4 & H5) Ho Hs He.
  coalesce_cases; simpl; repeat split; try lia;
    (eapply within_weaken; [eassumption|lia..]).
Qed.

(** ** Invariant preservation *)

Lemma fits_or_not size (bs : list block) :
  Forall (λ b : block, b.2 < size) bs ∨ Exists (λ b : block, size <= b.2) bs.
Proof.
  induction bs as [|b bs [IH|IH]]; [by left| |by right; apply Exists_cons_tl].
  destruct (Z.lt_ge_cases b.2 size); [left; by constructor|].
  right. by apply Exists_cons_hd.
Qed.

Lemma remainder_within lo hi pre b post size :
  within lo hi (pre ++ b :: post) → 0 <= size <= b.2 →
  within lo hi (pre ++ remainder b size ++ post).
Proof.
  rewrite !within_app. intros (m & Hpre & H1 & H2 & H3) Hs.
  exists m. split; [done|]. unfold remainder.
  destruct (Z.eqb_spec (b.2 - size) 0); simpl.
  - apply (within_weaken _ _ _ _ _ H3); lia.
  - repeat split; [lia..|]. apply (within_weaken _ _ _ _ _ H3); lia.
Qed.

(** [allocate] on a free list that obeys the invariants. *)
Lemma allocate_within bs size :
  within 0 (UINT32_MAX + 1) bs → 0 <= size →
  (Forall (λ b : block, b.2 < size) bs ∧
   allocate (of_blocks bs) size = Ok (UINT32_MAX, of_blocks bs)) ∨
  (∃ pre b post, bs = pre ++ b :: post ∧
     Forall (λ p : block, p.2 < size) pre ∧ size <= b.2 ∧
     allocate (of_blocks bs) size =
       Ok (b.1, of_blocks (pre ++ remainder b size ++ post)) ∧
     within 0 (UINT32_MAX + 1) (pre ++ remainder b size ++ post)).
Proof.
  intros Hw Hs. destruct (fits_or_not size bs) as [Hall|Hex].
  - left. split; [done|]. apply allocate_all_small.
    unfold of_blocks. simpl. by apply Forall_fmap.
  - right. destruct (first_fit_split size _ Hex) as (pre & b & post & -> & Hpre & Hb).
    exists pre, b, post. do 3 (split; [done|]).
    pose proof (within_in_space _ _ _ (Z.le_refl 0) (Z.le_refl _) Hw) as Hsp.
    apply Forall_app in Hsp as [_ [Hsp _]%Forall_cons_1].
    split; [|by apply remainder_within].
    rewrite allocate_found, remainder32_exact; [done|done|lia| |done|done].
    apply within_length in Hw. rewrite UINT32_MAX_eq in *. lia.
Qed.

(** [deallocate] on a free list that obeys the invariants, of a range that
    has room in it and is not marked free. *)
Lemma deallocate_within bs offset size :
  within 0 (UINT32_MAX + 1) bs → bs ≠ [] →
  in_space (offset, size) → 0 < size → Forall (disjoint (offset, size)) bs →
  ∃ bs', deallocate (of_blocks bs) offset size = Ok (of_blocks bs') ∧
    within 0 (UINT32_MAX + 1) bs'.
Proof.
  intros Hw Hne Hr Hs Hfree.
  pose proof (within_in_space _ _ _ (Z.le_refl 0) (Z.le_refl _) Hw) as Hsp.
  pose proof Hr as (Hr1 & Hr2 & Hr3). simpl in Hr1, Hr2, Hr3.
  destruct (deallocate_sorted _ _ _ offset size Hw Hne)
    as [(b & tl & -> & Hb & _ & E)|[(pre & b & -> & Hb & _ & E)
       |(pre & p & n & post & -> & Hpn & _ & E)]]; rewrite E; clear E.
  - apply Forall_cons_1 in Hsp as [Hsb _].
    apply Forall_cons_1 in Hfree as [[Hd|Hd] _]; simpl in Hd;
      [|destruct Hw as (_ & Hw & _); lia].
    rewrite coalesce_front32_exact by done. eexists. split; [done|].
    by apply coalesce_front_within.
  - apply Forall_app in Hsp as [_ [Hsb _]%Forall_cons_1].
    apply Forall_app in Hfree as [_ [[Hd|Hd] _]%Forall_cons_1]; simpl in Hd; [lia|].
    rewrite coalesce_back32_exact by done. eexists. split; [done|].
    apply within_app in Hw as (m & Hpre & Hw). apply within_app.
    exists m. split; [done|]. apply coalesce_back_within; [done..|lia].
  - apply Forall_app in Hsp as [_ [Hsp [Hsn _]%Forall_cons_1]%Forall_cons_1].
    apply Forall_app in Hfree as [_ [Hdp [Hdn _]%Forall_cons_1]%Forall_cons_1].
    apply within_app in Hw as (m & Hpre & Hw).
    rewrite coalesce_interior32_exact by done. eexists. split; [done|].
    apply within_app. exists m. split; [done|].
    pose proof Hw as (_ & _ & _ & Hn & _).
    apply coalesce_interior_within; [done| |done|].
    + destruct Hdp as [Hd|Hd]; simpl in Hd; lia.
    + destruct Hdn as [Hd|Hd]; simpl in Hd; lia.
Qed.

(** C1, as the code has it.  On a free list that obeys invariants 1 to 4,
    every [allocate] call, and every [deallocate] call on a non-empty free
    list of a range that has room in it (size above zero), lies in the
    address space and is not marked free, returns and leaves a free list
    that obeys invariants 1 to 4 again. *)
Theorem invariants_preserved (s : coalescing_allocator) (c : call) :
  well_formed s → free_list_inv s → precondition s c →
  ∃ s', run_call s c = Ok s' ∧ well_formed s' ∧ free_list_inv s'.
Proof.
  intros Hwf Hinv Hpre. pose proof (inv_within s Hwf Hinv) as Hw.
  destruct Hwf as [Hpar Hsp]. rewrite <- (of_blocks_blocks s Hpar) in *.
  rewrite blocks_of_blocks in *.
  destruct c as [size|offset size]; simpl in Hpre.
  - destruct Hpre as [Hs _].
    destruct (allocate_within _ size Hw Hs)
      as [[_ E]|(pre & b & post & _ & _ & _ & E & Hw')];
      simpl; rewrite E; cbn [mbind result_bind]; eexists; (split; [done|]);
      by apply within_inv.
  - destruct Hpre as (Hne & Hr & Hs & Hfree).
    unfold not_free in Hfree. rewrite blocks_of_blocks in Hfree.
    assert (blocks s ≠ []) as Hne' by (by destruct (blocks s)).
    destruct (deallocate_within _ offset size Hw Hne' Hr Hs Hfree) as (bs' & E & Hw').
    simpl. rewrite E. eexists. split; [done|]. by apply within_inv.
Qed.

Lemma invariants_preserved_witness :
  ∃ s', run_call (mk_allocator [0; 20] [10; 10]) (Deallocate 10 10) = Ok s' ∧
    well_formed s' ∧ free_list_inv s'.
Proof.
  apply (invariants_preserved (mk_allocator [0; 20] [10; 10]) (Deallocate 10 10)).
  - concrete.
  - concrete.
  - unfold precondition. split; [discriminate|]. concrete.
Defined.

(** C1 as stated fails for freed ranges of size zero, which the stated
    preconditions allow: from the free list [{0,10},{20,10}], [allocate(0)]
    and [allocate(10)] both return offset 0 and leave [{20,10}]; handing the
    first allocation back with [deallocate(0,0)] inserts the entry {0,0},
    which invariant 4 forbids. *)
Lemma zero_size_deallocate_breaks_invariant_4 :
  client_run (mk_client (mk_allocator [0; 20] [10; 10]) []) [Allocate 0; Allocate 10]
    = Ok (mk_client (mk_allocator [20] [10]) [(0, 10); (0, 0)]) ∧
  well_formed (mk_allocator [20] [10]) ∧
  free_list_inv (mk_allocator [20] [10]) ∧
  stated_precondition (mk_allocator [20] [10]) (Deallocate 0 0) ∧
  run_call (mk_allocator [20] [10]) (Deallocate 0 0)
    = Ok (mk_allocator [0; 20] [0; 10]) ∧
  ¬ free_list_inv (mk_allocator [0; 20] [0; 10]).
Proof.
  split; [reflexivity|]. split; [concrete|]. split; [concrete|].
  split; [split; [discriminate|concrete]|]. split; [reflexivity|].
  intros (_ & _ & _ & Hpos). apply Forall_cons_1 in Hpos as [Hpos _].
  simpl in Hpos. lia.
Qed.

(** ** Memory safety of deallocate *)

(** C9.  On a non-empty free list, [deallocate] returns: every read of the
    search, the front and back accesses, and the accesses at [idx - 1] and
    [idx] fall inside the two sequences, and the assertion holds.  Only the
    equal length of the two sequences is used; the invariants are not
    needed. *)
Theorem deallocate_in_bounds (s : coalescing_allocator) (offset size : Z) :
  offsets_ s ≠ [] → length (offsets_ s) = length (sizes_ s) →
  ∃ s', deallocate s offset size = Ok s'.
Proof.
  intros Hne Hpar. rewrite <- (of_blocks_blocks s Hpar) in *.
  destruct (deallocate_cases (blocks s) offset size)
    as [(b & tl & _ & E)|[(pre & b & _ & E)|(pre & p & n & post & _ & E)]];
    [by destruct (blocks s)|rewrite E; eauto..].
Qed.

Lemma deallocate_in_bounds_witness :
  ∃ s', deallocate (mk_allocator [0; 50; 90] [10; 10; 5]) 20 10 = Ok s'.
Proof.
  apply (deallocate_in_bounds (mk_allocator [0; 50; 90] [10; 10; 5]) 20 10).
  - discriminate.
  - reflexivity.
Defined.

Lemma lookup_second {A} (pre post : list A) p n :
  (pre ++ p :: n :: post) !! S (length pre) = Some n.
Proof.
  rewrite (cons_middle p pre (n :: post)), app_assoc.
  apply list_lookup_middle. rewrite length_app. simpl. lia.
Qed.

Lemma drop_second {A} (pre post : list A) p n :
  drop (S (length pre) + 1) (pre ++ p :: n :: post) = post.
Proof.
  replace (pre ++ p :: n :: post) with ((pre ++ [p; n]) ++ post)
    by (by rewrite <- app_assoc).
  replace (S (length pre) + 1)%nat with (length (pre ++ [p; n]))
    by (rewrite length_app; simpl; lia).
  apply drop_app_length.
Qed.

(** ** deallocate against its description *)

(** C2.  On a non-empty free list that obeys the invariants, [deallocate]
    of a range of the address space does what the specification describes:
    it finds the lower bound of the freed offset and applies the case of
    that position (front: merge into the first entry or insert before it;
    past the end: grow the last entry or append; interior: grow the
    predecessor and absorb the successor when the gap closes, else grow the
    successor backward, else insert a standalone entry). *)
Theorem deallocate_by_cases (s : coalescing_allocator) (offset size : Z) :
  well_formed s → free_list_inv s → offsets_ s ≠ [] → in_space (offset, size) →
  deallocate s offset size = Ok (of_blocks (deallocate_spec (blocks s) offset size)).
Proof.
  intros Hwf Hinv Hne Hr. pose proof (inv_within s Hwf Hinv) as Hw.
  destruct Hwf as [Hpar Hsp]. rewrite <- (of_blocks_blocks s Hpar) at 1.
  assert (blocks s ≠ []) as Hne'.
  { rewrite <- (of_blocks_blocks s Hpar) in Hne. by destruct (blocks s). }
  unfold deallocate_spec.
  destruct (deallocate_sorted _ _ _ offset size Hw Hne')
    as [(b & tl & Hbs & _ & Hlb & E)|[(pre & b & Hbs & _ & Hlb & E)
       |(pre & p & n & post & Hbs & _ & Hlb & E)]];
    rewrite E, Hlb; clear E Hlb; rewrite Hbs in *; clear Hbs.
  - apply Forall_cons_1 in Hsp as [Hsb _].
    by rewrite coalesce_front32_exact.
  - apply Forall_app in Hsp as [_ [Hsb _]%Forall_cons_1].
    rewrite coalesce_back32_exact by done.
    rewrite length_app. simpl length.
    rewrite (proj2 (Nat.eqb_neq _ 0)) by lia. rewrite Nat.eqb_refl.
    replace (length pre + 1 - 1)%nat with (length pre) by lia.
    by rewrite list_lookup_middle, take_app_length.
  - apply Forall_app in Hsp as [_ [Hsp [Hsn _]%Forall_cons_1]%Forall_cons_1].
    rewrite coalesce_interior32_exact by done.
    change (S (length pre) =? 0)%nat with false.
    rewrite (proj2 (Nat.eqb_neq (S (length pre)) _))
      by (rewrite length_app; simpl; lia).
    replace (S (length pre) - 1)%nat with (length pre) by lia.
    rewrite list_lookup_middle by done.
    by rewrite lookup_second, drop_second, take_app_length.
Qed.

(** The merge-both and the no-merge scenario, by the theorem. *)
Lemma deallocate_by_cases_witness :
  deallocate (mk_allocator [0; 20] [10; 10]) 10 10 = Ok (mk_allocator [0] [30]) ∧
  deallocate (mk_allocator [0; 50] [10; 10]) 20 10
    = Ok (mk_allocator [0; 20; 50] [10; 10; 10]).
Proof.
  split.
  - apply (deallocate_by_cases (mk_allocator [0; 20] [10; 10]) 10 10);
      [concrete|concrete|discriminate|concrete].
  - apply (deallocate_by_cases (mk_allocator [0; 50] [10; 10]) 20 10);
      [concrete|concrete|discriminate|concrete].
Defined.

(** ** Round trip *)

Lemma within_lower lo hi bs : within lo hi bs → Forall (λ x, lo <= x) bs.*1.
Proof.
  revert lo. induction bs as [|b bs IH]; intros lo H; [constructor|].
  destruct H as (H1 & H2 & H3). simpl. constructor; [done|].
  pose proof (IH _ H3) as IH'. rewrite Forall_forall in *.
  intros x Hx. specialize (IH' x Hx). simpl in IH'. lia.
Qed.

(** The blocks before a block start below it. *)
Lemma within_before lo hi pre b post :
  within lo hi (pre ++ b :: post) → Forall (λ x, x < b.1) pre.*1.
Proof.
  revert lo. induction pre as [|p pre IH]; intros lo H; [constructor|].
  destruct H as (H1 & H2 & H3). simpl. constructor; [|by apply (IH _ H3)].
  apply within_lower in H3. rewrite fmap_app in H3.
  apply Forall_app in H3 as [_ [H3 _]%Forall_cons_1]. lia.
Qed.

(** C6, as the code has it.  On a free list that obeys the invariants, when
    [allocate(size)] succeeds and leaves a free list that is not empty,
    [deallocate] of the returned offset with the same size gives back the
    free list as it was before the allocation. *)
Theorem allocate_deallocate_round_trip
    (s s' : coalescing_allocator) (size r : Z) :
  well_formed s → free_list_inv s → is_u32 size →
  allocate s size = Ok (r, s') → r ≠ UINT32_MAX → offsets_ s' ≠ [] →
  deallocate s' r size = Ok s.
Proof.
  intros Hwf Hinv [Hs0 Hs1] Halloc Hr Hne.
  pose proof (inv_within s Hwf Hinv) as Hw. destruct Hwf as [Hpar _].
  pose proof (of_blocks_blocks s Hpar) as Hs.
  remember (blocks s) as bs eqn:Hbs0. clear Hbs0 Hpar Hinv. subst s.
  destruct (allocate_within _ size Hw Hs0)
    as [[_ E]|(pre & b & post & Hbs & _ & Hb & E & Hw')];
    rewrite E in Halloc; injection Halloc as <- <-; [done|]; clear E.
  rewrite Hbs in *. clear Hbs.
  pose proof (within_in_space _ _ _ (Z.le_refl 0) (Z.le_refl _) Hw) as Hsp.
  pose proof (within_in_space _ _ _ (Z.le_refl 0) (Z.le_refl _) Hw') as Hsp'.
  pose proof (within_before _ _ _ _ _ Hw) as Hlt.
  apply Forall_app in Hsp as [_ [Hsb _]%Forall_cons_1].
  assert (in_space (b.1, size)) as Hrange
    by (unfold in_space in *; simpl; lia).
  apply within_app in Hw as (m & Hwpre & Hm & Hb0 & Hwpost).
  set (bs' := pre ++ remainder b size ++ post) in *.
  assert (mini2 (offsets_ (of_blocks bs')) (length (offsets_ (of_blocks bs'))) b.1
          = Ok (length pre)) as E.
  { simpl. rewrite mini2_sorted;
      [|by destruct bs'|by apply (within_sorted 0 (UINT32_MAX + 1))].
    subst bs'. rewrite fmap_app, lower_bound_app, length_fmap; [done..|].
    unfold remainder. destruct (Z.eqb_spec (b.2 - size) 0); simpl; [|lia].
    destruct post as [|n post]; simpl; [done|]. destruct Hwpost. lia. }
  subst bs'. destruct b as [o sz]. simpl in *.
  unfold remainder in *. simpl in *.
  destruct (snoc_cases pre) as [->|(pre' & p & ->)].
  - destruct (Z.eqb_spec (sz - size) 0) as [Hz|Hz]; simpl in *.
    + destruct post as [|n post]; [done|].
      rewrite (deallocate_front _ _ n post E).
      apply Forall_cons_1 in Hsp' as [Hsn _]. destruct Hwpost as [Hn _].
      rewrite coalesce_front32_exact by done. unfold coalesce_front. simpl.
      destruct (Z.eqb_spec (o + size) n.1); [lia|].
      by replace size with sz by lia.
    + rewrite (deallocate_front _ _ (o + size, sz - size) post E).
      apply Forall_cons_1 in Hsp' as [Hsn _].
      rewrite coalesce_front32_exact by done. unfold coalesce_front. simpl.
      rewrite Z.eqb_refl. by replace (sz - size + size) with sz by lia.
  - apply within_app in Hwpre as (m' & _ & _ & _ & Hpm). simpl in Hpm.
    rewrite length_app in E. simpl in E.
    replace (length pre' + 1)%nat with (S (length pre')) in E by lia.
    rewrite <- !app_assoc in *. simpl in *.
    apply Forall_app in Hsp' as [_ [Hsp Hsp']%Forall_cons_1].
    destruct (Z.eqb_spec (sz - size) 0) as [Hz|Hz]; simpl in *.
    + destruct post as [|n post].
      * replace (S (length pre')) with (length (pre' ++ [p])) in E
          by (rewrite length_app; simpl; lia).
        rewrite (deallocate_back _ _ pre' p E).
        rewrite coalesce_back32_exact by done. unfold coalesce_back.
        destruct (Z.eqb_spec (p.1 + p.2) o); [lia|].
        by replace size with sz by lia.
      * rewrite (deallocate_interior _ _ pre' p n post E).
        apply Forall_cons_1 in Hsp' as [Hsn _]. destruct Hwpost as [Hn _].
        rewrite coalesce_interior32_exact by done. unfold coalesce_interior.
        destruct (Z.eqb_spec (p.1 + p.2) o); [lia|].
        destruct (Z.eqb_spec n.1 (o + size)); [lia|].
        by replace size with sz by lia.
    + rewrite (deallocate_interior _ _ pre' p (o + size, sz - size) post E).
      apply Forall_cons_1 in Hsp' as [Hsn _].
      rewrite coalesce_interior32_exact by done. unfold coalesce_interior.
      simpl. destruct (Z.eqb_spec (p.1 + p.2) o); [lia|].
      rewrite Z.eqb_refl.
      by replace (o + size - size) with o by lia;
         replace (sz - size + size) with sz by lia.
Qed.

Lemma allocate_deallocate_round_trip_witness :
  deallocate (mk_allocator [30] [70]) 0 30 = Ok (mk_allocator [0] [100]).
Proof.
  apply (allocate_deallocate_round_trip
           (mk_allocator [0] [100]) (mk_allocator [30] [70]) 30 0).
  - concrete.
  - concrete.
  - unfold is_u32. rewrite UINT32_MAX_eq. lia.
  - reflexivity.
  - rewrite UINT32_MAX_eq. lia.
  - discriminate.
Defined.

(** C6 as stated fails when the allocation takes the whole of the only
    free block: the free list is then empty, and [deallocate] on an empty
    free list fails its assertion instead of restoring the block. *)
Lemma round_trip_fails_on_emptied_list :
  well_formed (mk_allocator [0] [100]) ∧ free_list_inv (mk_allocator [0] [100]) ∧
  allocate (mk_allocator [0] [100]) 100 = Ok (0, mk_allocator [] []) ∧
  0 ≠ UINT32_MAX ∧
  deallocate (mk_allocator [] []) 0 100 = Err AssertionFailed ∧
  deallocate (mk_allocator [] []) 0 100 ≠ Ok (mk_allocator [0] [100]).
Proof.
  split; [concrete|]. split; [concrete|]. split; [reflexivity|].
  split; [rewrite UINT32_MAX_eq; lia|]. split; [reflexivity|discriminate].
Qed.

(** ** Conservation *)

(** Whatever the store holds, the scan returns: with the sentinel and the
    store as it was, or with the start of a block that is large enough and
    that block cut down. *)
Lemma allocate_loop_any bs size todo :
  (todo ≤ length bs)%nat →
  allocate_loop todo 0 (of_blocks bs) size = Ok (UINT32_MAX, of_blocks bs) ∨
  ∃ pre b post, bs = pre ++ b :: post ∧ size <= b.2 ∧
    allocate_loop todo 0 (of_blocks bs) size =
      Ok (b.1, of_blocks (pre ++ remainder32 b size ++ post)).
Proof.
  intros Htodo. destruct (fits_or_not size (take todo bs)) as [Hall|Hex].
  - left. apply allocate_loop_none; [simpl; rewrite length_fmap; lia|].
    intros j sz Hj Hsz. simpl in Hsz. rewrite list_lookup_fmap in Hsz.
    destruct (bs !! j) as [b|] eqn:Hb; [|done]. injection Hsz as <-.
    rewrite Forall_lookup in Hall. apply (Hall j b).
    rewrite lookup_take_lt by lia. done.
  - right. destruct (first_fit_split size _ Hex) as (pre & b & post & E & Hpre & Hb).
    exists pre, b, (post ++ drop todo bs).
    assert (bs = pre ++ b :: post ++ drop todo bs) as Hbs.
    { rewrite <- (take_drop todo bs) at 1. rewrite E. by rewrite <- app_assoc. }
    assert (length pre < todo)%nat as Hlen.
    { apply (f_equal length) in E. rewrite length_take, length_app in E.
      simpl in E. lia. }
    split; [done|]. split; [done|].
    generalize dependent (drop todo bs). intros rest ->.
    apply (allocate_loop_found size b (post ++ rest) pre [] todo); done.
Qed.

Lemma allocate_scan bs size :
  allocate (of_blocks bs) size = Ok (UINT32_MAX, of_blocks bs) ∨
  ∃ pre b post, bs = pre ++ b :: post ∧ size <= b.2 ∧
    allocate (of_blocks bs) size =
      Ok (b.1, of_blocks (pre ++ remainder32 b size ++ post)).
Proof.
  unfold allocate. apply allocate_loop_any. simpl. rewrite length_fmap.
  apply end_cast_le.
Qed.

Lemma remainder_space b size :
  in_space b → 0 <= size <= b.2 →
  Forall in_space (remainder b size) ∧ in_space (b.1, size) ∧
  total_size (remainder b size) + size = b.2.
Proof.
  unfold in_space, remainder, total_size. intros (H1 & H2 & H3) Hs.
  destruct (Z.eqb_spec (b.2 - size) 0); simpl;
    (split; [repeat constructor; simpl; lia|split; lia]).
Qed.

Lemma allocate_conserves st size :
  client_ok st → valid_call st (Allocate size) →
  ∃ st', client_call st (Allocate size) = Ok st' ∧ client_ok st' ∧
    balance st' = balance st.
Proof.
  intros [[Hpar Hsp] Hlive] [Hs0 Hs1]. destruct st as [s lv]. simpl in *.
  pose proof (of_blocks_blocks s Hpar) as Hs.
  remember (blocks s) as bs eqn:Hbs0. clear Hbs0 Hpar. subst s.
  unfold balance, client_ok, well_formed. simpl.
  destruct (allocate_scan bs size) as [E|(pre & b & post & -> & Hb & E)];
    rewrite E; cbn [mbind result_bind].
  - eexists. split; [done|]. simpl. rewrite blocks_of_blocks, !length_fmap.
    done.
  - apply Forall_app in Hsp as [Hpre [Hsb Hpost]%Forall_cons_1].
    rewrite remainder32_exact by (done || lia).
    destruct (remainder_space b size Hsb) as (Hrem & Hrange & Htot); [lia|].
    eexists. split; [done|]. simpl. rewrite !blocks_of_blocks.
    split; [split; [split|]|].
    + unfold of_blocks. simpl. by rewrite !length_fmap.
    + by rewrite !Forall_app.
    + destruct (Z.eqb_spec b.1 UINT32_MAX); [done|]. by constructor.
    + rewrite !total_size_app, total_size_cons.
      unfold in_space in Hrange. cbn [fst snd] in Hrange.
      destruct (Z.eqb_spec b.1 UINT32_MAX) as [Hmax|_];
        rewrite ?total_size_cons; cbn [fst snd]; lia.
Qed.

Lemma release_total b l :
  b ∈ l → total_size (release b l) + b.2 = total_size l.
Proof.
  induction l as [|x l IH]; intros Hb; [by apply not_elem_of_nil in Hb|].
  simpl. destruct (decide (x = b)) as [->|Hne].
  - unfold total_size. simpl. lia.
  - apply elem_of_cons in Hb as [->|Hb]; [done|].
    specialize (IH Hb). unfold total_size in *. simpl. lia.
Qed.

Lemma release_Forall (P : block → Prop) b l :
  Forall P l → Forall P (release b l).
Proof.
  induction 1 as [|x l Hx Hl IH]; simpl; [constructor|].
  destruct (decide (x = b)); [done|by constructor].
Qed.

Lemma deallocate_conserves st offset size :
  client_ok st → valid_call st (Deallocate offset size) →
  ∃ st', client_call st (Deallocate offset size) = Ok st' ∧ client_ok st' ∧
    balance st' = balance st.
Proof.
  intros [[Hpar Hsp] Hlive] [Hne Hin]. destruct st as [s lv].
  cbn [store live] in *.
  pose proof (of_blocks_blocks s Hpar) as Hs.
  remember (blocks s) as bs eqn:Hbs0. clear Hbs0 Hpar. subst s.
  assert (in_space (offset, size)) as Hr.
  { rewrite Forall_forall in Hlive. by apply Hlive, list_elem_of_In. }
  pose proof (release_total _ _ Hin) as Hrel. cbn [snd] in Hrel.
  pose proof (release_Forall _ (offset, size) _ Hlive) as Hlive'.
  unfold balance, client_ok, well_formed, client_call. cbn [store live].
  assert (∀ bs' : list block, Forall in_space bs' →
            length (offsets_ (of_blocks bs')) = length (sizes_ (of_blocks bs')) ∧
            Forall in_space bs') as Hwf.
  { intros bs' H. split; [|done]. simpl. by rewrite !length_fmap. }
  destruct (deallocate_cases bs offset size)
    as [(b & tl & -> & E)|[(pre & b & -> & E)|(pre & p & n & post & -> & E)]];
    [by destruct bs|rewrite E; cbn [mbind result_bind]; eexists;
     (split; [done|]); cbn [store live]; rewrite !blocks_of_blocks..].
  - apply Forall_cons_1 in Hsp as [Hsb Htl].
    rewrite coalesce_front32_exact in * by done.
    destruct (coalesce_front_space b offset size Hsb Hr) as [Hc Ht].
    split; [split; [apply Hwf; by rewrite Forall_app|done]|].
    rewrite total_size_app, Ht, total_size_cons. lia.
  - apply Forall_app in Hsp as [Hpre [Hsb _]%Forall_cons_1].
    rewrite coalesce_back32_exact in * by done.
    destruct (coalesce_back_space b offset size Hsb Hr) as [Hc Ht].
    split; [split; [apply Hwf; by rewrite Forall_app|done]|].
    rewrite !total_size_app, Ht, total_size_cons.
    change (total_size []) with 0. lia.
  - apply Forall_app in Hsp as [Hpre [Hsp [Hsn Hpost]%Forall_cons_1]%Forall_cons_1].
    rewrite coalesce_interior32_exact in * by done.
    destruct (coalesce_interior_space p n offset size Hsp Hsn Hr) as [Hc Ht].
    split; [split; [apply Hwf; by rewrite !Forall_app|done]|].
    rewrite !total_size_app, Ht, !total_size_cons. lia.
Qed.

Lemma client_call_conserves st c :
  client_ok st → valid_call st c →
  ∃ st', client_call st c = Ok st' ∧ client_ok st' ∧ balance st' = balance st.
Proof.
  destruct c; [apply allocate_conserves|apply deallocate_conserves].
Qed.

Lemma client_run_conserves cs : ∀ st,
  client_ok st → valid_calls st cs →
  ∃ st', client_run st cs = Ok st' ∧ client_ok st' ∧ balance st' = balance st.
Proof.
  induction cs as [|c cs IH]; intros st Hok Hvalid; [by exists st|].
  destruct Hvalid as [Hc Hcs].
  destruct (client_call_conserves st c Hok Hc) as (st1 & E & Hok1 & Hbal1).
  rewrite E in Hcs. destruct (IH st1 Hok1 Hcs) as (st' & E' & Hok' & Hbal').
  exists st'. simpl. rewrite E. cbn [mbind result_bind].
  split; [done|]. split; [done|lia].
Qed.

Lemma valid_calls_take cs : ∀ st n,
  valid_calls st cs → valid_calls st (take n cs).
Proof.
  induction cs as [|c cs IH]; intros st n H; [by destruct n|].
  destruct n as [|n]; [done|]. destruct H as [Hc Hcs]. simpl. split; [done|].
  destruct (client_call st c); [by apply IH|done].
Qed.

(** C8.  From a seeded free list whose blocks are ranges of the address
    space, along every sequence of valid calls (any [allocate]; [deallocate]
    of a live allocation while the free list is not empty) each call
    returns, and after every call the sizes of the free blocks and the sizes
    of the live allocations add up to what the seed made free. *)
Theorem conservation (seed : coalescing_allocator) (cs : list call) (n : nat) :
  well_formed seed → valid_calls (mk_client seed []) cs →
  ∃ st, client_run (mk_client seed []) (take n cs) = Ok st ∧
    total_size (blocks (store st)) + total_size (live st)
      = total_size (blocks seed).
Proof.
  intros Hwf Hvalid.
  destruct (client_run_conserves (take n cs) (mk_client seed []))
    as (st & E & _ & Hbal); [by split| by apply valid_calls_take|].
  exists st. split; [done|]. unfold balance in Hbal. simpl in Hbal.
  change (total_size []) with 0 in Hbal. lia.
Qed.

Lemma conservation_witness :
  ∃ st,
    client_run (mk_client (mk_allocator [0] [100]) [])
      (take 3 [Allocate 30; Allocate 60; Deallocate 0 30; Deallocate 30 60]) = Ok st ∧
    total_size (blocks (store st)) + total_size (live st)
      = total_size (blocks (mk_allocator [0] [100])).
Proof.
  apply (conservation (mk_allocator [0] [100])
           [Allocate 30; Allocate 60; Deallocate 0 30; Deallocate 30 60] 3).
  - concrete.
  - simpl. unfold is_u32. rewrite UINT32_MAX_eq.
    repeat split; try lia; try discriminate; repeat constructor.
Defined.

(** ** The end-to-end scenario *)

(** C7, as the code has it.  From the free list [{0,100}]: [allocate(30)]
    returns 0 and leaves [{30,70}]; [allocate(70)] returns 30 and leaves the
    empty list; [allocate(1)] returns the sentinel and leaves the empty list;
    [deallocate(0,30)] is then a call on an empty free list and fails the
    assertion of its precondition.  On the free list [{0,30}],
    [deallocate(30,70)] merges into the last block and leaves [{0,100}]. *)
Theorem end_to_end_scenario :
  allocate (mk_allocator [0] [100]) 30 = Ok (0, mk_allocator [30] [70]) ∧
  allocate (mk_allocator [30] [70]) 70 = Ok (30, mk_allocator [] []) ∧
  allocate (mk_allocator [] []) 1 = Ok (UINT32_MAX, mk_allocator [] []) ∧
  deallocate (mk_allocator [] []) 0 30 = Err AssertionFailed ∧
  deallocate (mk_allocator [0] [30]) 30 70 = Ok (mk_allocator [0] [100]).
Proof. repeat split. Qed.

(** C7 as stated fails at its fourth call: the three allocations leave the
    free list empty, and [deallocate(0,30)] does not produce [{0,30}] from
    it. *)
Lemma end_to_end_fails_at_first_deallocate :
  client_run (mk_client (mk_allocator [0] [100]) [])
    [Allocate 30; Allocate 70; Allocate 1]
    = Ok (mk_client (mk_allocator [] []) [(30, 70); (0, 30)]) ∧
  client_run (mk_client (mk_allocator [0] [100]) [])
    [Allocate 30; Allocate 70; Allocate 1; Deallocate 0 30; Deallocate 30 70]
    = Err AssertionFailed ∧
  run_call (mk_allocator [] []) (Deallocate 0 30) ≠ Ok (mk_allocator [0] [30]).
Proof. split; [reflexivity|]. split; [reflexivity|discriminate]. Qed.

(** * Further properties of the allocator *)

(** ** The search on arrays that are not sorted *)

(** X1.  On every non-empty array, sorted or not, the direct search returns
    a position from 0 to the length and reads inside the array only; when
    the entries below the key are exactly the entries before some position,
    it returns that position.  Sortedness is not needed, a partition is
    enough. *)
Theorem mini2_partition_point (a : list Z) (key : Z) :
  a ≠ [] →
  ∃ r, mini2 a (length a) key = Ok r ∧ (r ≤ length a)%nat ∧
    ∀ lb, partitioned a key lb → r = lb.
Proof. apply mini2_run. Qed.

Lemma mini2_partition_point_witness :
  ∃ r, mini2 [4; 1; 3; 9; 7] 5 5 = Ok r ∧ (r ≤ 5)%nat ∧
    ∀ lb, partitioned [4; 1; 3; 9; 7] 5 lb → r = lb.
Proof. apply (mini2_partition_point [4; 1; 3; 9; 7] 5). discriminate. Defined.

Section prefix.
Variables (a rest : list Z) (key : Z).

Lemma step2_prefix it size :
  (1 ≤ size)%nat → (it + size ≤ length a)%nat →
  ACL_BINARY_SEARCH_STEP2 (a ++ rest) key (it, size) =
  ACL_BINARY_SEARCH_STEP2 a key (it, size).
Proof.
  intros Hs Hb. pose proof (shiftr1_bounds size).
  unfold ACL_BINARY_SEARCH_STEP2, vec.at_. by rewrite lookup_app_l by lia.
Qed.

Lemma mini2_loop_prefix fuel : ∀ it size,
  (1 ≤ size)%nat → (it + size ≤ length a)%nat →
  mini2_loop fuel (a ++ rest) key it size = mini2_loop fuel a key it size.
Proof.
  induction fuel as [|fuel IH]; intros it size Hs Hb; [done|].
  destruct (step2_window a key it size Hs Hb) as (it1 & size1 & E1 & Hs1 & Hb1 & _).
  destruct (step2_window a key it1 size1 Hs1 Hb1) as (it2 & size2 & E2 & Hs2 & Hb2 & _).
  cbn [mini2_loop]. rewrite step2_prefix, E1 by done. cbn [mbind result_bind].
  rewrite step2_prefix, E2 by done. cbn [mbind result_bind].
  destruct (2 <? size2)%nat; [by apply IH|done].
Qed.

Lemma and_less_prefix c it :
  (it < length a)%nat → and_less c (a ++ rest) it key = and_less c a it key.
Proof.
  intros Hit. unfold and_less, vec.at_. destruct c; [|done].
  by rewrite lookup_app_l.
Qed.

End prefix.

Lemma and_less_small c a it key d :
  and_less c a it key = Ok d → (d ≤ 1)%nat ∧ (c = false → d = 0%nat).
Proof.
  unfold and_less. destruct c.
  - destruct (vec.at_ a it) as [x|]; cbn [mbind result_bind]; [|done].
    intros [= <-]. split; [by destruct (x <? key); lia|done].
  - intros [= <-]. split; [lia|done].
Qed.

(** X2.  With a size below the number of elements, the search looks at the
    first [size] elements only: what follows them in the array neither
    changes the result nor is read. *)
Theorem mini2_reads_prefix_only (a rest : list Z) (key : Z) :
  a ≠ [] → mini2 (a ++ rest) (length a) key = mini2 a (length a) key.
Proof.
  intros Hne. assert (1 ≤ length a)%nat as Hl by (destruct a; simpl; [done|lia]).
  unfold mini2. rewrite mini2_loop_prefix by lia.
  destruct (mini2_loop_window a key (S (length a)) 0 (length a))
    as (it & size & E & Hs & Hb & _); [lia..|].
  rewrite E. cbn [mbind result_bind].
  rewrite and_less_prefix by lia.
  destruct (and_less (1 <? size)%nat a it key) as [d|] eqn:Ed;
    cbn [mbind result_bind]; [|done].
  destruct (and_less_small _ _ _ _ _ Ed) as [Hd Hd0].
  rewrite and_less_prefix; [done|].
  destruct (Nat.ltb_spec 1 size); [lia|]. rewrite Hd0 by done. lia.
Qed.

Lemma mini2_reads_prefix_only_witness :
  mini2 ([3; 8] ++ [1; 0; 42]) 2 5 = mini2 [3; 8] 2 5.
Proof. apply (mini2_reads_prefix_only [3; 8] [1; 0; 42] 5). discriminate. Defined.

(** ** The sentinel *)

(** X3.  On a free list that obeys the invariants the sentinel is returned
    on exhaustion only: when [allocate] returns the largest value of the size
    type, no stored block is as large as the request and the free list is the
    one it was.  A caller can tell failure from success by the value. *)
Theorem allocate_sentinel_means_exhausted
    (s s' : coalescing_allocator) (size : Z) :
  well_formed s → free_list_inv s → 0 <= size →
  allocate s size = Ok (UINT32_MAX, s') →
  s' = s ∧ Forall (λ sz, sz < size) (sizes_ s).
Proof.
  intros Hwf Hinv Hs Halloc. pose proof (inv_within s Hwf Hinv) as Hw.
  destruct Hwf as [Hpar _]. pose proof (of_blocks_blocks s Hpar) as E.
  remember (blocks s) as bs eqn:Hbs0. clear Hbs0 Hpar Hinv. subst s.
  destruct (allocate_within _ size Hw Hs)
    as [[Hall E]|(pre & b & post & -> & _ & Hb & E & _)];
    rewrite E in Halloc.
  - injection Halloc as <-. split; [done|]. simpl. by apply Forall_fmap.
  - exfalso. injection Halloc as Hr _.
    pose proof (within_in_space _ _ _ (Z.le_refl 0) (Z.le_refl _) Hw) as Hsp.
    apply Forall_app in Hsp as [_ [(H1 & H2 & H3) _]%Forall_cons_1].
    apply within_app in Hw as (m & _ & _ & Hpos & _). lia.
Qed.

Lemma allocate_sentinel_means_exhausted_witness :
  mk_allocator [0; 40] [10; 15] = mk_allocator [0; 40] [10; 15] ∧
  Forall (λ sz, sz < 20) (sizes_ (mk_allocator [0; 40] [10; 15])).
Proof.
  apply (allocate_sentinel_means_exhausted
           (mk_allocator [0; 40] [10; 15]) (mk_allocator [0; 40] [10; 15]) 20).
  - concrete.
  - concrete.
  - lia.
  - reflexivity.
Defined.

(** ** What is free, address by address *)

Lemma covers_app bs1 bs2 x : covers (bs1 ++ bs2) x ↔ covers bs1 x ∨ covers bs2 x.
Proof. apply Exists_app. Qed.

Lemma covers_cons b bs x : covers (b :: bs) x ↔ in_range b x ∨ covers bs x.
Proof. apply Exists_cons. Qed.

Lemma covers_nil x : covers [] x ↔ False.
Proof. apply Exists_nil. Qed.

Ltac covers_cases :=
  unfold in_range; coalesce_cases;
  rewrite ?covers_cons, ?covers_nil; unfold in_range; cbn [fst snd]; lia.

Lemma remainder_covers b size x :
  0 <= size <= b.2 →
  covers (remainder b size) x ↔ in_range b x ∧ ¬ (b.1 <= x < b.1 + size).
Proof. intros Hs. unfold remainder. covers_cases. Qed.

Lemma coalesce_front_covers b offset size x :
  0 <= size → 0 <= b.2 →
  covers (coalesce_front b offset size) x ↔
    in_range b x ∨ offset <= x < offset + size.
Proof. intros Hs Hb. unfold coalesce_front. covers_cases. Qed.

Lemma coalesce_back_covers b offset size x :
  0 <= size → 0 <= b.2 →
  covers (coalesce_back b offset size) x ↔
    in_range b x ∨ offset <= x < offset + size.
Proof. intros Hs Hb. unfold coalesce_back. covers_cases. Qed.

Lemma coalesce_interior_covers p n offset size x :
  0 <= size → 0 <= p.2 → 0 <= n.2 →
  covers (coalesce_interior p n offset size) x ↔
    in_range p x ∨ in_range n x ∨ offset <= x < offset + size.
Proof. intros Hs Hp Hn. unfold coalesce_interior. covers_cases. Qed.

(** Whatever the order of its blocks, a store inside the address space
    gains exactly the freed range. *)
Lemma deallocate_covers bs offset size :
  bs ≠ [] → Forall in_space bs → in_space (offset, size) →
  ∃ bs', deallocate (of_blocks bs) offset size = Ok (of_blocks bs') ∧
    Forall in_space bs' ∧
    ∀ x, covers bs' x ↔ covers bs x ∨ offset <= x < offset + size.
Proof.
  intros Hne Hsp Hr. pose proof Hr as (Hr1 & Hr2 & Hr3). cbn [fst snd] in *.
  destruct (deallocate_cases bs offset size Hne)
    as [(b & tl & -> & E)|[(pre & b & -> & E)|(pre & p & n & post & -> & E)]];
    rewrite E; clear E; eexists; (split; [done|]).
  - apply Forall_cons_1 in Hsp as [Hsb Htl].
    rewrite coalesce_front32_exact by done.
    destruct (coalesce_front_space b offset size Hsb Hr) as [Hc _].
    split; [by rewrite Forall_app|]. intros x.
    rewrite covers_app, covers_cons, coalesce_front_covers;
      [tauto|done|apply Hsb].
  - apply Forall_app in Hsp as [Hpre [Hsb _]%Forall_cons_1].
    rewrite coalesce_back32_exact by done.
    destruct (coalesce_back_space b offset size Hsb Hr) as [Hc _].
    split; [by rewrite Forall_app|]. intros x.
    rewrite !covers_app, covers_cons, covers_nil, coalesce_back_covers;
      [tauto|done|apply Hsb].
  - apply Forall_app in Hsp as [Hpre [Hsp [Hsn Hpost]%Forall_cons_1]%Forall_cons_1].
    rewrite coalesce_interior32_exact by done.
    destruct (coalesce_interior_space p n offset size Hsp Hsn Hr) as [Hc _].
    split; [by rewrite !Forall_app|]. intros x.
    rewrite !covers_app, !covers_cons, coalesce_interior_covers;
      [tauto|done|apply Hsp|apply Hsn].
Qed.

(** X4.  [deallocate] marks exactly the freed range free.  On a non-empty
    store whose blocks are ranges of the address space, in whatever order
    and whether or not the range was free before, the call returns, and an
    address is free afterwards exactly when it was free before or belongs to
    the freed range. *)
Theorem deallocate_frees_exactly (s : coalescing_allocator) (offset size : Z) :
  well_formed s → offsets_ s ≠ [] → in_space (offset, size) →
  ∃ s', deallocate s offset size = Ok s' ∧ well_formed s' ∧
    ∀ x, is_free s' x ↔ is_free s x ∨ offset <= x < offset + size.
Proof.
  intros [Hpar Hsp] Hne Hr. pose proof (of_blocks_blocks s Hpar) as E.
  unfold is_free. remember (blocks s) as bs eqn:Hbs0. clear Hbs0 Hpar. subst s.
  destruct (deallocate_covers bs offset size) as (bs' & E & Hsp' & Hcov);
    [by destruct bs|done..|].
  exists (of_blocks bs'). rewrite !blocks_of_blocks. split; [done|].
  split; [|done]. split; [|by rewrite blocks_of_blocks].
  simpl. by rewrite !length_fmap.
Qed.

Lemma deallocate_frees_exactly_witness :
  ∃ s', deallocate (mk_allocator [0; 20] [10; 10]) 10 10 = Ok s' ∧ well_formed s' ∧
    ∀ x, is_free s' x ↔ is_free (mk_allocator [0; 20] [10; 10]) x ∨ 10 <= x < 10 + 10.
Proof.
  apply (deallocate_frees_exactly (mk_allocator [0; 20] [10; 10]) 10 10).
  - concrete.
  - discriminate.
  - concrete.
Defined.

(** The addresses of the blocks of a free list that obeys the invariants
    lie between its bounds. *)
Lemma within_covers lo hi bs x : within lo hi bs → covers bs x → lo <= x < hi - 1.
Proof.
  revert lo. induction bs as [|b bs IH]; intros lo Hw Hx.
  - by apply covers_nil in Hx.
  - destruct Hw as (H1 & H2 & H3). pose proof (within_bounds _ _ _ H3).
    apply covers_cons in Hx as [Hx|Hx]; [unfold in_range in Hx; lia|].
    specialize (IH _ H3 Hx). lia.
Qed.

(** On a free list that obeys the invariants, a successful [allocate]
    takes the start of a free block and nothing else. *)
Lemma allocate_covers bs size :
  within 0 (UINT32_MAX + 1) bs → 0 <= size →
  (allocate (of_blocks bs) size = Ok (UINT32_MAX, of_blocks bs)) ∨
  ∃ r bs', allocate (of_blocks bs) size = Ok (r, of_blocks bs') ∧
    r ≠ UINT32_MAX ∧ in_space (r, size) ∧
    within 0 (UINT32_MAX + 1) bs' ∧
    (∀ x, r <= x < r + size → covers bs x) ∧
    (∀ x, covers bs' x ↔ covers bs x ∧ ¬ (r <= x < r + size)).
Proof.
  intros Hw Hs.
  destruct (allocate_within _ size Hw Hs)
    as [[_ E]|(pre & b & post & -> & _ & Hb & E & Hw')]; [by left|right].
  exists b.1, (pre ++ remainder b size ++ post). split; [done|].
  pose proof (within_in_space _ _ _ (Z.le_refl 0) (Z.le_refl _) Hw) as Hsp.
  apply Forall_app in Hsp as [_ [(H1 & H2 & H3) _]%Forall_cons_1].
  apply within_app in Hw as (m & Hpre & Hm & Hpos & Hpost).
  split; [lia|]. split; [unfold in_space; cbn [fst snd]; lia|].
  split; [done|]. split.
  - intros x Hx. rewrite covers_app, covers_cons. right; left.
    unfold in_range. lia.
  - intros x. rewrite !covers_app, covers_cons, remainder_covers by lia.
    pose proof (within_covers _ _ _ x Hpre). pose proof (within_covers _ _ _ x Hpost).
    unfold in_range. tauto || (split; intros; intuition lia).
Qed.

(** X5.  A successful [allocate] hands out addresses that were free and
    takes exactly those out of the free list: on a free list that obeys the
    invariants, every address of the returned range was free before the call,
    and an address is free afterwards exactly when it was free before and
    does not belong to the returned range. *)
Theorem allocate_takes_exactly (s s' : coalescing_allocator) (size r : Z) :
  well_formed s → free_list_inv s → 0 <= size →
  allocate s size = Ok (r, s') → r ≠ UINT32_MAX →
  in_space (r, size) ∧
  (∀ x, r <= x < r + size → is_free s x) ∧
  (∀ x, is_free s' x ↔ is_free s x ∧ ¬ (r <= x < r + size)).
Proof.
  intros Hwf Hinv Hs Halloc Hr. pose proof (inv_within s Hwf Hinv) as Hw.
  destruct Hwf as [Hpar _]. pose proof (of_blocks_blocks s Hpar) as E.
  unfold is_free. remember (blocks s) as bs eqn:Hbs0. clear Hbs0 Hpar Hinv. subst s.
  destruct (allocate_covers bs size Hw Hs)
    as [E|(r' & bs' & E & _ & Hsp & _ & Hin & Hcov)];
    rewrite E in Halloc; injection Halloc as <- <-; [done|].
  rewrite !blocks_of_blocks. done.
Qed.

Lemma allocate_takes_exactly_witness :
  in_space (100, 10) ∧
  (∀ x, 100 <= x < 100 + 10 → is_free (mk_allocator [0; 100] [5; 30]) x) ∧
  (∀ x, is_free (mk_allocator [0; 110] [5; 20]) x ↔
        is_free (mk_allocator [0; 100] [5; 30]) x ∧ ¬ (100 <= x < 100 + 10)).
Proof.
  apply (allocate_takes_exactly
           (mk_allocator [0; 100] [5; 30]) (mk_allocator [0; 110] [5; 20]) 10 100).
  - concrete.
  - concrete.
  - lia.
  - reflexivity.
  - rewrite UINT32_MAX_eq. lia.
Defined.

(** ** A double free *)

(** X6.  A double free is not detected.  On a free list that obeys the
    invariants, freeing a range that is exactly one of the free blocks
    returns normally and enters the block a second time, next to itself;
    the free list then no longer obeys invariant 1. *)
Theorem double_free_enters_block_twice
    (s : coalescing_allocator) (pre post : list block) (b : block) :
  well_formed s → free_list_inv s → blocks s = pre ++ b :: post →
  deallocate s b.1 b.2 = Ok (of_blocks (pre ++ b :: b :: post)) ∧
  ¬ strictly_ascending (pre ++ b :: b :: post).
Proof.
  intros Hwf Hinv Hbs. pose proof (inv_within s Hwf Hinv) as Hw.
  destruct Hwf as [Hpar Hsp]. pose proof (of_blocks_blocks s Hpar) as E0.
  rewrite Hbs in E0, Hw, Hsp. clear Hbs Hpar Hinv. subst s. split.
  - pose proof (within_before _ _ _ _ _ Hw) as Hlt.
    apply Forall_app in Hsp as [Hsppre [Hsb _]%Forall_cons_1].
    assert (in_space (b.1, b.2)) as Hr by (by destruct b).
    assert (mini2 (offsets_ (of_blocks (pre ++ b :: post)))
              (length (offsets_ (of_blocks (pre ++ b :: post)))) b.1
            = Ok (length pre)) as E.
    { simpl. rewrite mini2_sorted;
        [|by destruct pre|by apply (within_sorted 0 (UINT32_MAX + 1))].
      rewrite fmap_app, lower_bound_app, length_fmap; [done..|simpl; lia]. }
    apply within_app in Hw as (m & Hwpre & Hm & Hpos & Hwpost).
    destruct (snoc_cases pre) as [->|(pre' & p & ->)].
    + cbn [app] in *. rewrite (deallocate_front _ _ b post E).
      rewrite coalesce_front32_exact by done. unfold coalesce_front.
      destruct (Z.eqb_spec (b.1 + b.2) b.1); [lia|]. by destruct b.
    + apply within_app in Hwpre as (m' & _ & _ & _ & Hpm). simpl in Hpm.
      rewrite length_app in E. simpl in E.
      replace (length pre' + 1)%nat with (S (length pre')) in E by lia.
      rewrite <- !app_assoc in *. simpl in *.
      rewrite (deallocate_interior _ _ pre' p b post E).
      apply Forall_app in Hsppre as [_ [Hsp _]%Forall_cons_1].
      rewrite coalesce_interior32_exact by done. unfold coalesce_interior.
      destruct (Z.eqb_spec (p.1 + p.2) b.1); [lia|].
      destruct (Z.eqb_spec b.1 (b.1 + b.2)); [lia|]. by destruct b.
  - clear. induction pre as [|p pre IH]; simpl.
    + intros [H _]. lia.
    + destruct pre as [|p' pre]; simpl in *; intros [_ H]; by apply IH.
Qed.

Lemma double_free_enters_block_twice_witness :
  deallocate (mk_allocator [0; 20] [10; 10]) 20 10
    = Ok (mk_allocator [0; 20; 20] [10; 10; 10]) ∧
  ¬ strictly_ascending ([(0, 10)] ++ (20, 10) :: (20, 10) :: []).
Proof.
  apply (double_free_enters_block_twice
           (mk_allocator [0; 20] [10; 10]) [(0, 10)] [] (20, 10)).
  - concrete.
  - concrete.
  - reflexivity.
Defined.

(** ** No range is handed out twice *)

Lemma disjoint_no_common (l b : block) x :
  disjoint l b → in_range l x → in_range b x → False.
Proof. unfold disjoint, in_range. lia. Qed.

Lemma no_common_disjoint (l b : block) :
  0 < l.2 → 0 < b.2 → (∀ x, in_range l x → ¬ in_range b x) → disjoint l b.
Proof.
  unfold disjoint, in_range. intros Hl Hb H.
  specialize (H (Z.max l.1 b.1)). lia.
Qed.

Lemma disjoint_sym (l b : block) : disjoint l b → disjoint b l.
Proof. unfold disjoint. lia. Qed.

Lemma not_covered_disjoint (l : block) bs :
  0 < l.2 → Forall (λ b : block, 0 < b.2) bs →
  (∀ x, in_range l x → ¬ covers bs x) → Forall (disjoint l) bs.
Proof.
  intros Hl Hpos H. induction Hpos as [|b bs Hb _ IH]; [constructor|].
  constructor.
  - apply no_common_disjoint; [done..|]. intros x Hx Hbx.
    apply (H x Hx), covers_cons. by left.
  - apply IH. intros x Hx Hc. apply (H x Hx), covers_cons. by right.
Qed.

Lemma disjoint_not_covered (l : block) bs x :
  Forall (disjoint l) bs → in_range l x → ¬ covers bs x.
Proof.
  intros Hall Hx Hc. induction Hall as [|b bs Hb _ IH].
  - by apply covers_nil in Hc.
  - apply covers_cons in Hc as [Hc|Hc]; [|by apply IH].
    by apply (disjoint_no_common l b x).
Qed.

Lemma release_subset b (l : list block) x : x ∈ release b l → x ∈ l.
Proof.
  induction l as [|y l IH]; simpl; [done|].
  destruct (decide (y = b)); [intros H; apply elem_of_cons; by right|].
  intros [->|H]%elem_of_cons; apply elem_of_cons; [by left|right; by apply IH].
Qed.

Lemma release_pairwise b l : pairwise_disjoint l → pairwise_disjoint (release b l).
Proof.
  induction l as [|y l IH]; simpl; [done|]. intros [Hy Hl].
  destruct (decide (y = b)); [done|]. split; [|by apply IH].
  rewrite Forall_forall in *. intros x Hx.
  by apply Hy, list_elem_of_In, (release_subset b), list_elem_of_In.
Qed.

Lemma release_disjoint b l :
  pairwise_disjoint l → b ∈ l → Forall (disjoint b) (release b l).
Proof.
  induction l as [|y l IH]; simpl; [constructor|]. intros [Hy Hl] Hb.
  destruct (decide (y = b)) as [->|Hne]; [done|].
  apply elem_of_cons in Hb as [->|Hb]; [done|].
  constructor; [|by apply IH]. apply disjoint_sym.
  rewrite Forall_forall in Hy. by apply Hy, list_elem_of_In.
Qed.

Lemma allocate_safe st size :
  client_safe st → is_u32 size → 0 < size →
  ∃ st', client_call st (Allocate size) = Ok st' ∧ client_safe st'.
Proof.
  intros (Hpar & Hw & Hlive & Hpw & Hnf) [Hs0 _] Hpos.
  destruct st as [s lv]. cbn [store live] in *.
  pose proof (of_blocks_blocks s Hpar) as E. unfold not_free in Hnf.
  remember (blocks s) as bs eqn:Hbs0. clear Hbs0 Hpar. subst s.
  unfold client_call, client_safe, not_free. cbn [store live].
  assert (∀ bs' : list block,
            length (offsets_ (of_blocks bs')) = length (sizes_ (of_blocks bs')))
    as Hlen by (intros; simpl; by rewrite !length_fmap).
  destruct (allocate_covers bs size Hw Hs0)
    as [E|(r & bs' & E & Hr & Hsp & Hw' & Hin & Hcov)];
    rewrite E; cbn [mbind result_bind]; eexists; (split; [done|]);
    cbn [store live]; rewrite ?blocks_of_blocks.
  - rewrite Z.eqb_refl. done.
  - destruct (Z.eqb_spec r UINT32_MAX); [done|].
    destruct (within_consecutive _ _ _ Hw') as (_ & _ & _ & Hpos').
    split; [done|]. split; [done|]. split; [by constructor|].
    split; [split; [|done]|constructor].
    + rewrite Forall_forall in *. intros l Hl.
      destruct (Hlive l Hl) as [_ Hl2].
      apply no_common_disjoint; [done..|]. intros x Hx Hlx.
      by apply (disjoint_not_covered l bs x (Hnf l Hl) Hlx), Hin.
    + apply not_covered_disjoint; [done..|].
      intros x Hx Hc. apply Hcov in Hc. unfold in_range in Hx. simpl in Hx. tauto.
    + rewrite Forall_forall in *. intros l Hl.
      destruct (Hlive l Hl) as [_ Hl2].
      apply not_covered_disjoint; [by destruct l|done|].
      intros x Hx Hc. apply Hcov in Hc as [Hc _].
      apply (disjoint_not_covered l bs x); [|by destruct l|done].
      specialize (Hnf l Hl). by destruct l.
Qed.

Lemma deallocate_safe st offset size :
  client_safe st → valid_call st (Deallocate offset size) →
  ∃ st', client_call st (Deallocate offset size) = Ok st' ∧ client_safe st'.
Proof.
  intros (Hpar & Hw & Hlive & Hpw & Hnf) [Hne Hin].
  destruct st as [s lv]. cbn [store live] in *.
  pose proof (of_blocks_blocks s Hpar) as E. unfold not_free in Hnf.
  remember (blocks s) as bs eqn:Hbs0. clear Hbs0 Hpar. subst s.
  unfold client_call, client_safe, not_free. cbn [store live].
  assert (bs ≠ []) as Hne' by (by destruct bs).
  pose proof (proj1 (Forall_forall _ _) Hlive _ (proj1 (list_elem_of_In _ _) Hin))
    as [Hr Hpos].
  pose proof (proj1 (Forall_forall _ _) Hnf _ (proj1 (list_elem_of_In _ _) Hin))
    as Hfree. cbn [fst snd] in Hfree, Hpos.
  destruct (deallocate_within bs offset size Hw Hne' Hr Hpos Hfree)
    as (bs' & E & Hw').
  pose proof (within_in_space _ _ _ (Z.le_refl 0) (Z.le_refl _) Hw) as Hsp.
  destruct (deallocate_covers bs offset size Hne' Hsp Hr) as (bs2 & E2 & _ & Hcov).
  rewrite E in E2.
  assert (bs2 = bs') as ->.
  { apply (f_equal (λ r, match r with Ok s => blocks s | Err _ => [] end)) in E2.
    by rewrite !blocks_of_blocks in E2. }
  rewrite E. cbn [mbind result_bind]. eexists. split; [done|].
  cbn [store live]. rewrite blocks_of_blocks.
  destruct (within_consecutive _ _ _ Hw') as (_ & _ & _ & Hpos').
  split; [simpl; by rewrite !length_fmap|]. split; [done|].
  split; [by apply release_Forall|]. split; [by apply release_pairwise|].
  pose proof (release_disjoint _ _ Hpw Hin) as Hdis.
  rewrite Forall_forall in *. intros l Hl.
  assert (In l lv) as Hl' by (by apply list_elem_of_In, (release_subset (offset, size)), list_elem_of_In).
  destruct (Hlive l Hl') as [_ Hl2].
  apply not_covered_disjoint; [by destruct l|done|].
  intros x Hx Hc. apply Hcov in Hc as [Hc|Hc].
  - apply (disjoint_not_covered l bs x); [|by destruct l|done].
    specialize (Hnf l Hl'). by destruct l.
  - apply (disjoint_no_common (offset, size) l x); [by apply Hdis|done|by destruct l].
Qed.

Lemma client_run_safe cs : ∀ st,
  client_safe st → valid_calls st cs → Forall asks_room cs →
  ∃ st', client_run st cs = Ok st' ∧ client_safe st'.
Proof.
  induction cs as [|c cs IH]; intros st Hsafe Hvalid Hroom; [by exists st|].
  destruct Hvalid as [Hc Hcs]. apply Forall_cons_1 in Hroom as [Hr Hroom].
  assert (∃ st1, client_call st c = Ok st1 ∧ client_safe st1) as (st1 & E & Hsafe1).
  { destruct c; [by apply allocate_safe|by apply deallocate_safe]. }
  rewrite E in Hcs. destruct (IH st1 Hsafe1 Hcs Hroom) as (st' & E' & Hsafe').
  exists st'. simpl. rewrite E. by cbn [mbind result_bind].
Qed.

(** X7.  No address is handed out twice.  From a seed free list that obeys
    the invariants, along every sequence of valid calls whose requests ask
    for at least one address, each call returns, and after every call the
    free list obeys invariants 1 to 4, no two live allocations share an
    address, and no live allocation shares an address with a free block. *)
Theorem live_allocations_never_overlap
    (seed : coalescing_allocator) (cs : list call) (n : nat) :
  well_formed seed → free_list_inv seed →
  valid_calls (mk_client seed []) cs → Forall asks_room cs →
  ∃ st, client_run (mk_client seed []) (take n cs) = Ok st ∧
    free_list_inv (store st) ∧
    pairwise_disjoint (live st) ∧
    Forall (λ l : block, not_free (store st) l.1 l.2) (live st).
Proof.
  intros Hwf Hinv Hvalid Hroom.
  destruct (client_run_safe (take n cs) (mk_client seed []))
    as (st & E & Hpar & Hw & _ & Hpw & Hnf).
  - split; [apply Hwf|]. split; [by apply inv_within|]. by repeat split.
  - by apply valid_calls_take.
  - by apply Forall_take.
  - exists st. split; [done|]. split; [|done].
    rewrite <- (of_blocks_blocks _ Hpar). by apply within_inv.
Qed.

Lemma live_allocations_never_overlap_witness :
  ∃ st,
    client_run (mk_client (mk_allocator [0] [100]) [])
      (take 4 [Allocate 30; Allocate 60; Deallocate 0 30; Allocate 20]) = Ok st ∧
    free_list_inv (store st) ∧
    pairwise_disjoint (live st) ∧
    Forall (λ l : block, not_free (store st) l.1 l.2) (live st).
Proof.
  apply (live_allocations_never_overlap (mk_allocator [0] [100])
           [Allocate 30; Allocate 60; Deallocate 0 30; Allocate 20] 4).
  - concrete.
  - concrete.
  - simpl. unfold is_u32. rewrite UINT32_MAX_eq.
    repeat split; try lia; try discriminate; repeat constructor.
  - repeat constructor; simpl; lia.
Defined.

(** * Properties of the entity collection *)

Section collection_places.
Import collection.
Variable cfg : config.
Hypothesis valid : valid_config cfg.

Lemma pool_size_pow : pool_size cfg = 2 ^ pool_mul cfg.
Proof using valid.
  destruct valid as [[H0 H1] _]. unfold pool_size.
  rewrite Z.shiftl_1_l. apply wrap32_id. unfold is_u32. rewrite UINT32_MAX_eq.
  pose proof (Z.pow_lt_mono_r 2 (pool_mul cfg) 32 ltac:(lia) ltac:(lia) ltac:(lia)).
  pose proof (Z.pow_pos_nonneg 2 (pool_mul cfg) ltac:(lia) ltac:(lia)).
  change (2 ^ 32) with 4294967296 in *. lia.
Qed.

Lemma pool_size_bounds :
  1 <= pool_size cfg <= 2147483648 ∧ (has_revision cfg = true → 2 <= pool_size cfg).
Proof using valid.
  rewrite pool_size_pow. destruct valid as [[H0 H1] H2].
  pose proof (Z.pow_le_mono_r 2 (pool_mul cfg) 31 ltac:(lia) ltac:(lia)).
  pose proof (Z.pow_le_mono_r 2 0 (pool_mul cfg) ltac:(lia) ltac:(lia)).
  change (2 ^ 31) with 2147483648 in *. change (2 ^ 0) with 1 in *.
  split; [lia|]. intros Hr.
  pose proof (Z.pow_le_mono_r 2 1 (pool_mul cfg) ltac:(lia) ltac:(specialize (H2 Hr); lia)).
  change (2 ^ 1) with 2 in *. lia.
Qed.

Lemma pool_mod_ones : pool_mod cfg = Z.ones (pool_mul cfg).
Proof using valid.
  unfold pool_mod. pose proof pool_size_bounds as [Hb _].
  rewrite wrap32_id by (unfold is_u32; rewrite UINT32_MAX_eq; lia).
  rewrite pool_size_pow, Z.ones_equiv. lia.
Qed.

(** The offset of an index inside its pool. *)
Lemma index_mod nb : Z.land nb (pool_mod cfg) = nb mod pool_size cfg.
Proof using valid.
  rewrite pool_mod_ones, Z.land_ones, pool_size_pow; [done|]. apply valid.
Qed.

Lemma pool_div nb : Z.shiftr nb (pool_mul cfg) = nb / pool_size cfg.
Proof using valid.
  rewrite Z.shiftr_div_pow2, pool_size_pow; [done|]. apply valid.
Qed.

Lemma bit_page_words_eq :
  Z.of_nat (bit_page_words cfg) = (pool_size cfg + 63) / 64.
Proof using valid.
  unfold bit_page_words, word_mask, word_shift. pose proof pool_size_bounds as [Hb _].
  rewrite wrap32_id by (unfold is_u32; rewrite UINT32_MAX_eq; lia).
  rewrite Z.shiftr_div_pow2 by lia. change (2 ^ 6) with 64.
  pose proof (Z.div_pos (pool_size cfg + 63) 64 ltac:(lia) ltac:(lia)). lia.
Qed.

(** An index of the size type, taken apart: pool [p], word [w] of the
    pool's bit page, bit [b] of the word. *)
Lemma index_parts nb :
  is_u32 nb →
  ∃ p w b,
    nb = p * pool_size cfg + w * 64 + b ∧
    0 <= p ∧ 0 <= w < Z.of_nat (bit_page_words cfg) ∧ 0 <= b < 64 ∧
    w * 64 + b < pool_size cfg ∧
    Z.shiftr nb (pool_mul cfg) = p ∧
    Z.land nb (pool_mod cfg) = w * 64 + b ∧
    word_of cfg nb = Z.to_nat w ∧ bit_of cfg nb = b ∧
    page_of cfg nb = (Z.to_nat p * pages_per_pool cfg)%nat ∧
    bit_page cfg p = Z.of_nat (page_of cfg nb) ∧
    (has_revision cfg = true → hazard_page cfg p = 2 * p + 1).
Proof using valid.
  intros [Hnb0 Hnb1]. rewrite UINT32_MAX_eq in Hnb1.
  pose proof pool_size_bounds as [HP HP2].
  exists (nb / pool_size cfg), (nb mod pool_size cfg / 64),
    ((nb mod pool_size cfg) mod 64).
  pose proof (Z.div_mod nb (pool_size cfg) ltac:(lia)) as Hdm.
  pose proof (Z.mod_pos_bound nb (pool_size cfg) ltac:(lia)) as Hidx.
  pose proof (Z.div_pos nb (pool_size cfg) ltac:(lia) ltac:(lia)) as Hp0.
  set (idx := nb mod pool_size cfg) in *. set (p := nb / pool_size cfg) in *.
  pose proof (Z.div_mod idx 64 ltac:(lia)) as Hdm'.
  pose proof (Z.mod_pos_bound idx 64 ltac:(lia)) as Hb.
  pose proof (Z.div_pos idx 64 ltac:(lia) ltac:(lia)) as Hw0.
  assert (idx / 64 < (pool_size cfg + 63) / 64) as Hw.
  { apply Z.div_lt_upper_bound; [lia|].
    pose proof (Z.mul_div_le (pool_size cfg + 63) 64 ltac:(lia)).
    pose proof (Z.mod_pos_bound (pool_size cfg + 63) 64 ltac:(lia)).
    pose proof (Z.div_mod (pool_size cfg + 63) 64 ltac:(lia)). lia. }
  assert (p <= nb) as Hpnb by nia.
  assert (has_revision cfg = true → 2 * p <= nb) as Hp2.
  { intros Hr. specialize (HP2 Hr). nia. }
  split; [lia|]. split; [done|]. rewrite bit_page_words_eq.
  split; [lia|]. split; [done|]. split; [lia|].
  split; [apply pool_div|]. split; [rewrite index_mod; fold idx; lia|].
  unfold word_of, bit_of, page_of, word_shift, word_mask.
  rewrite index_mod, pool_div. fold idx p.
  rewrite Z.shiftr_div_pow2 by lia. change (2 ^ 6) with 64.
  change 63 with (Z.ones 6). rewrite Z.land_ones by lia. change (2 ^ 6) with 64.
  split; [done|]. split; [done|].
  unfold bit_page, hazard_page, pages_per_pool.
  destruct (has_revision cfg).
  - specialize (Hp2 eq_refl).
    rewrite !wrap32_id by (unfold is_u32; rewrite ?UINT32_MAX_eq;
      rewrite ?wrap32_id by (unfold is_u32; rewrite ?UINT32_MAX_eq; lia); lia).
    split; [lia|]. split; [lia|]. intros _. lia.
  - split; [lia|]. split; [lia|done].
Qed.

(** Two indices of the size type with the same page, word and bit are the
    same index. *)
Lemma place_inj nb nb' :
  is_u32 nb → is_u32 nb' →
  page_of cfg nb' = page_of cfg nb → word_of cfg nb' = word_of cfg nb →
  bit_of cfg nb' = bit_of cfg nb → nb' = nb.
Proof using valid.
  intros Hnb Hnb' Hp Hw Hb.
  destruct (index_parts nb Hnb)
    as (p & w & b & -> & Hp0 & Hw0 & Hb0 & _ & _ & _ & Ew & Eb & Ep & _).
  destruct (index_parts nb' Hnb')
    as (p' & w' & b' & -> & Hp0' & Hw0' & Hb0' & _ & _ & _ & Ew' & Eb' & Ep' & _).
  rewrite Ew, Ew' in Hw. rewrite Eb, Eb' in Hb. rewrite Ep, Ep' in Hp.
  assert (p' = p) as ->.
  { unfold pages_per_pool in Hp. destruct (has_revision cfg); lia. }
  assert (w' = w) as -> by lia. by subst.
Qed.

Lemma bit_page_of nb :
  is_u32 nb →
  bit_page cfg (Z.shiftr nb (pool_mul cfg)) = Z.of_nat (page_of cfg nb).
Proof using valid.
  intros Hnb. destruct (index_parts nb Hnb)
    as (p & w & b & _ & _ & _ & _ & _ & -> & _ & _ & _ & _ & E & _). done.
Qed.

Lemma hazard_page_of nb :
  is_u32 nb → has_revision cfg = true →
  hazard_page cfg (Z.shiftr nb (pool_mul cfg)) = Z.of_nat (S (page_of cfg nb)).
Proof using valid.
  intros Hnb Hr. destruct (index_parts nb Hnb)
    as (p & w & b & _ & Hp & _ & _ & _ & -> & _ & _ & _ & Ep & _ & E).
  rewrite (E Hr), Ep. unfold pages_per_pool. rewrite Hr. lia.
Qed.

Lemma page_of_bits nb :
  is_u32 nb → has_revision cfg && Nat.odd (page_of cfg nb) = false.
Proof using valid.
  intros Hnb. destruct (index_parts nb Hnb)
    as (p & w & b & _ & _ & _ & _ & _ & _ & _ & _ & _ & -> & _).
  unfold pages_per_pool. destruct (has_revision cfg); [|done].
  by rewrite Nat.odd_mul, andb_false_r.
Qed.

Lemma word_of_lt nb : is_u32 nb → (word_of cfg nb < bit_page_words cfg)%nat.
Proof using valid.
  intros Hnb. destruct (index_parts nb Hnb)
    as (p & w & b & _ & _ & Hw & _ & _ & _ & _ & -> & _). lia.
Qed.

Lemma bit_of_range nb : is_u32 nb → 0 <= bit_of cfg nb < 64.
Proof using valid.
  intros Hnb. destruct (index_parts nb Hnb)
    as (p & w & b & _ & _ & _ & Hb & _ & _ & _ & _ & -> & _). done.
Qed.

Lemma index_lt nb :
  is_u32 nb → (Z.to_nat (Z.land nb (pool_mod cfg)) < haz_page_bytes cfg)%nat.
Proof using valid.
  intros Hnb. destruct (index_parts nb Hnb)
    as (p & w & b & _ & _ & Hw & Hb & Hlt & _ & -> & _).
  unfold haz_page_bytes. lia.
Qed.

End collection_places.

(** ** Bits of a word *)

Lemma test_bit w b :
  0 <= b → negb (Z.land w (Z.shiftl 1 b) =? 0) = Z.testbit w b.
Proof.
  intros Hb. rewrite Z.shiftl_1_l.
  destruct (Z.testbit w b) eqn:E.
  - destruct (Z.eqb_spec (Z.land w (2 ^ b)) 0) as [H0|_]; [|done].
    apply (f_equal (λ z, Z.testbit z b)) in H0.
    rewrite Z.land_spec, E, Z.pow2_bits_eqb, Z.eqb_refl, Z.bits_0 in H0 by done.
    done.
  - destruct (Z.eqb_spec (Z.land w (2 ^ b)) 0) as [_|H0]; [done|].
    exfalso. apply H0, Z.bits_inj'. intros n Hn.
    rewrite Z.land_spec, Z.pow2_bits_eqb, Z.bits_0 by done.
    destruct (Z.eqb_spec b n) as [->|_]; [by rewrite E|].
    by rewrite andb_false_r.
Qed.

Lemma set_bit_bits w b n :
  0 <= b → Z.testbit (Z.lor w (Z.shiftl 1 b)) n = Z.testbit w n || (b =? n).
Proof. intros Hb. by rewrite Z.lor_spec, Z.shiftl_1_l, Z.pow2_bits_eqb. Qed.

Lemma unset_bit_bits w b n :
  0 <= b → 0 <= n < 64 →
  Z.testbit (Z.land w (collection.wrap64 (Z.lnot (Z.shiftl 1 b)))) n
    = Z.testbit w n && negb (b =? n).
Proof.
  intros Hb Hn. unfold collection.wrap64.
  rewrite <- Z.land_ones by lia.
  rewrite !Z.land_spec, Z.lnot_spec, Z.shiftl_1_l, Z.pow2_bits_eqb by lia.
  rewrite Z.testbit_ones by lia.
  destruct (Z.leb_spec 0 n), (Z.ltb_spec n 64); try lia.
  by rewrite !andb_true_r.
Qed.

(** ** Bits of the pages *)

Lemma bit_at_insert (items : list (list Z)) pg words w x x' pg' w' b' :
  items !! pg = Some words → words !! w = Some x →
  collection.bit_at (<[pg := <[w := x']> words]> items) pg' w' b' =
    if decide (pg' = pg ∧ w' = w) then Z.testbit x' b'
    else collection.bit_at items pg' w' b'.
Proof.
  intros Hpg Hw. unfold collection.bit_at.
  apply lookup_lt_Some in Hpg as Hpg'. apply lookup_lt_Some in Hw as Hw'.
  destruct (decide (pg' = pg)) as [->|Hne].
  - rewrite list_lookup_insert_eq, Hpg by done.
    destruct (decide (w' = w)) as [->|Hne].
    + rewrite list_lookup_insert_eq by done. by rewrite decide_True.
    + rewrite list_lookup_insert_ne by done. rewrite decide_False by tauto. done.
  - rewrite list_lookup_insert_ne by done. rewrite decide_False by tauto. done.
Qed.

Lemma bit_at_fresh cfg (items : list (list Z)) pg w b :
  collection.bit_at (items ++ collection.fresh_pages cfg) pg w b =
  collection.bit_at items pg w b.
Proof.
  unfold collection.bit_at.
  destruct (decide (pg < length items)%nat) as [Hlt|Hge].
  - by rewrite lookup_app_l.
  - rewrite (lookup_ge_None_2 items pg) by lia.
    destruct ((items ++ collection.fresh_pages cfg) !! pg) as [words|] eqn:E; [|done].
    assert (∃ n, words = replicate n 0) as [n ->].
    { rewrite lookup_app_r in E by lia. unfold collection.fresh_pages in E.
      destruct (pg - length items)%nat as [|[|k]]; simpl in E.
      - injection E as <-. eauto.
      - destruct (collection.has_revision cfg); [|done]. injection E as <-. eauto.
      - by destruct (collection.has_revision cfg). }
    destruct (replicate n 0 !! w) as [x|] eqn:Ex; [|done].
    apply lookup_replicate in Ex as [-> _]. apply Z.bits_0.
Qed.

(** ** The operations on a shaped collection *)

Section collection_ops.
Import collection.
Variable cfg : config.
Hypothesis valid : valid_config cfg.

Lemma shaped_bit_page c nb :
  shaped cfg c → is_u32 nb → (page_of cfg nb < length (items_ c))%nat →
  ∃ words x, items_ c !! page_of cfg nb = Some words ∧
    length words = bit_page_words cfg ∧ words !! word_of cfg nb = Some x.
Proof using valid.
  intros [_ Hsh] Hnb Hlt.
  destruct (lookup_lt_is_Some_2 _ _ Hlt) as [words Hw].
  pose proof (Hsh _ _ Hw) as Hlen. rewrite page_of_bits in Hlen by done.
  pose proof (word_of_lt cfg valid nb Hnb).
  destruct (lookup_lt_is_Some_2 words (word_of cfg nb)) as [x Hx]; [lia|].
  by exists words, x.
Qed.

(** [is_bit_set] reads inside the pages and returns the member bit. *)
Lemma is_bit_set_member c nb :
  shaped cfg c → is_u32 nb → is_bit_set cfg c nb = Ok (member cfg c nb).
Proof using valid.
  intros Hsh Hnb. unfold is_bit_set, member, bit_at.
  fold (page_of cfg nb) (word_of cfg nb) (bit_of cfg nb).
  rewrite bit_page_of by done.
  destruct (Z.leb_spec (Z.of_nat (length (items_ c))) (Z.of_nat (page_of cfg nb))).
  - by rewrite lookup_ge_None_2 by lia.
  - destruct (shaped_bit_page c nb Hsh Hnb) as (words & x & Hw & _ & Hx); [lia|].
    rewrite (at_lookup _ _ _ Hw), Hw. cbn [mbind result_bind].
    rewrite (at_lookup _ _ _ Hx), Hx. cbn [mbind result_bind].
    rewrite test_bit; [done|]. by apply bit_of_range.
Qed.

Lemma shaped_fresh c :
  shaped cfg c → shaped cfg (with_items c (items_ c ++ fresh_pages cfg)).
Proof.
  intros [[pools Hlen] Hsh]. split; simpl.
  - exists (S pools). rewrite length_app, Hlen. unfold fresh_pages, pages_per_pool.
    destruct (has_revision cfg); simpl; lia.
  - intros i page Hi. destruct (decide (i < length (items_ c))%nat) as [Hlt|Hge].
    + rewrite lookup_app_l in Hi by done. by apply Hsh.
    + rewrite lookup_app_r in Hi by lia.
      remember (i - length (items_ c))%nat as k eqn:Hk.
      assert (i = (length (items_ c) + k)%nat) as -> by lia. clear Hk Hge.
      rewrite Hlen. unfold fresh_pages, pages_per_pool in *.
      destruct (has_revision cfg); simpl in *.
      * rewrite Nat.odd_add, Nat.odd_mul. simpl. rewrite andb_false_r. simpl.
        destruct k as [|[|k]]; simpl in Hi;
          [injection Hi as <-|injection Hi as <-|done];
          by rewrite length_replicate.
      * destruct k as [|k]; simpl in Hi; [|done].
        injection Hi as <-. by rewrite length_replicate.
Qed.

Lemma shaped_insert c pg (page page' : list Z) :
  shaped cfg c → items_ c !! pg = Some page → length page' = length page →
  shaped cfg (with_items c (<[pg := page']> (items_ c))).
Proof.
  intros [[pools Hlen] Hsh] Hpg Hl. split; simpl.
  - exists pools. by rewrite length_insert.
  - intros i p Hi. destruct (decide (i = pg)) as [->|Hne].
    + rewrite list_lookup_insert_eq in Hi by (by eapply lookup_lt_Some).
      injection Hi as <-. rewrite Hl. by apply Hsh.
    + rewrite list_lookup_insert_ne in Hi by done. by apply Hsh.
Qed.

(** [set_bit] on an index whose pool has its pages or is the next pool to
    get them: the index becomes a member, no other index changes. *)
Lemma set_bit_run c nb :
  shaped cfg c → is_u32 nb → in_reach cfg c nb →
  ∃ c', set_bit cfg c nb = Ok c' ∧ shaped cfg c' ∧
    length_ c' = length_ c ∧ max_lnk_ c' = max_lnk_ c ∧
    (page_of cfg nb < length (items_ c'))%nat ∧
    (length (items_ c) ≤ length (items_ c'))%nat ∧
    (∀ i, i ≠ page_of cfg nb → (i < length (items_ c))%nat →
       items_ c' !! i = items_ c !! i) ∧
    ∀ nb', is_u32 nb' →
      member cfg c' nb' = member cfg c nb' || bool_decide (nb' = nb).
Proof using valid.
  intros Hsh Hnb Hreach. unfold in_reach in Hreach. unfold set_bit.
  fold (page_of cfg nb) (word_of cfg nb) (bit_of cfg nb).
  rewrite bit_page_of by done.
  set (items1 := if Z.of_nat (length (items_ c)) <=? Z.of_nat (page_of cfg nb)
                 then items_ c ++ fresh_pages cfg else items_ c).
  assert (shaped cfg (with_items c items1)) as Hsh1.
  { subst items1. destruct (_ <=? _); [by apply shaped_fresh|by destruct c]. }
  assert (page_of cfg nb < length items1)%nat as Hlt1.
  { subst items1. destruct (Z.leb_spec (Z.of_nat (length (items_ c)))
                             (Z.of_nat (page_of cfg nb))); [|lia].
    rewrite length_app. unfold fresh_pages. simpl. lia. }
  assert (∀ pg w b, bit_at items1 pg w b = bit_at (items_ c) pg w b) as Hbits.
  { intros. subst items1. destruct (_ <=? _); [apply bit_at_fresh|done]. }
  destruct (shaped_bit_page (with_items c items1) nb Hsh1 Hnb Hlt1)
    as (words & x & Hw & Hlen & Hx). simpl in Hw.
  rewrite (at_lookup _ _ _ Hw). cbn [mbind result_bind].
  rewrite (at_lookup _ _ _ Hx). cbn [mbind result_bind].
  unfold vec.assign.
  rewrite (proj2 (Nat.ltb_lt _ _) (lookup_lt_Some _ _ _ Hx)). cbn [mbind result_bind].
  rewrite (proj2 (Nat.ltb_lt _ _) Hlt1). cbn [mbind result_bind].
  eexists. split; [done|]. split.
  { apply (shaped_insert (with_items c items1) _ words); [done..|].
    by rewrite length_insert. }
  simpl. split; [done|]. split; [done|]. rewrite length_insert.
  split; [done|]. split.
  { subst items1. destruct (_ <=? _); [rewrite length_app|]; lia. }
  split.
  { intros i Hne Hlt. rewrite list_lookup_insert_ne by done.
    subst items1. destruct (_ <=? _); [by rewrite lookup_app_l|done]. }
  intros nb' Hnb'. unfold member. simpl.
  rewrite (bit_at_insert _ _ _ _ _ _ _ _ _ Hw Hx), set_bit_bits
    by (by apply bit_of_range).
  destruct (decide (page_of cfg nb' = page_of cfg nb ∧ word_of cfg nb' = word_of cfg nb))
    as [[Hp Hwd]|Hne].
  - destruct (Z.eqb_spec (bit_of cfg nb) (bit_of cfg nb')) as [Hb|Hb].
    + rewrite (place_inj cfg valid nb nb') by done.
      rewrite bool_decide_eq_true_2 by done. by rewrite !orb_true_r.
    + rewrite bool_decide_eq_false_2 by (intros ->; done).
      rewrite !orb_false_r, Hp, Hwd, <- Hbits. unfold bit_at. by rewrite Hw, Hx.
  - rewrite bool_decide_eq_false_2 by (intros ->; tauto).
    by rewrite orb_false_r, Hbits.
Qed.


Lemma unset_bit_run c nb :
  shaped cfg c → is_u32 nb → (page_of cfg nb < length (items_ c))%nat →
  ∃ c', unset_bit cfg c nb = Ok c' ∧ shaped cfg c' ∧
    length_ c' = length_ c ∧ max_lnk_ c' = max_lnk_ c ∧
    length (items_ c') = length (items_ c) ∧
    ∀ nb', is_u32 nb' →
      member cfg c' nb' = member cfg c nb' && negb (bool_decide (nb' = nb)).
Proof using valid.
  intros Hsh Hnb Hlt. unfold unset_bit.
  fold (page_of cfg nb) (word_of cfg nb) (bit_of cfg nb).
  destruct (shaped_bit_page c nb Hsh Hnb Hlt) as (words & x & Hw & Hlen & Hx).
  rewrite (at_lookup _ _ _ Hw). cbn [mbind result_bind].
  rewrite (at_lookup _ _ _ Hx). cbn [mbind result_bind].
  unfold vec.assign.
  rewrite (proj2 (Nat.ltb_lt _ _) (lookup_lt_Some _ _ _ Hx)). cbn [mbind result_bind].
  rewrite (proj2 (Nat.ltb_lt _ _) Hlt). cbn [mbind result_bind].
  eexists. split; [done|]. split.
  { apply (shaped_insert c _ words); [done..|]. by rewrite length_insert. }
  simpl. split; [done|]. split; [done|]. rewrite length_insert. split; [done|].
  intros nb' Hnb'. unfold member. simpl.
  pose proof (bit_of_range cfg valid nb Hnb).
  pose proof (bit_of_range cfg valid nb' Hnb').
  rewrite (bit_at_insert _ _ _ _ _ _ _ _ _ Hw Hx), unset_bit_bits by lia.
  destruct (decide (page_of cfg nb' = page_of cfg nb ∧ word_of cfg nb' = word_of cfg nb))
    as [[Hp Hwd]|Hne].
  - destruct (Z.eqb_spec (bit_of cfg nb) (bit_of cfg nb')) as [Hb|Hb].
    + rewrite (place_inj cfg valid nb nb') by done.
      rewrite bool_decide_eq_true_2 by done. by rewrite !andb_false_r.
    + rewrite bool_decide_eq_false_2 by (intros ->; done).
      rewrite !andb_true_r, Hp, Hwd. unfold bit_at. by rewrite Hw, Hx.
  - rewrite bool_decide_eq_false_2 by (intros ->; tauto).
    by rewrite andb_true_r.
Qed.

(** The hazard page of a pool that has its pages, and the byte of an index. *)
Lemma shaped_hazard_page c nb :
  shaped cfg c → is_u32 nb → has_revision cfg = true →
  (page_of cfg nb < length (items_ c))%nat →
  ∃ bytes v, items_ c !! S (page_of cfg nb) = Some bytes ∧
    length bytes = haz_page_bytes cfg ∧
    bytes !! Z.to_nat (Z.land nb (pool_mod cfg)) = Some v.
Proof using valid.
  intros [[pools Hlen] Hsh] Hnb Hr Hlt.
  pose proof (page_of_bits cfg valid nb Hnb) as Hodd. rewrite Hr in Hodd.
  simpl in Hodd.
  assert (S (page_of cfg nb) < length (items_ c))%nat as Hlt'.
  { rewrite Hlen in *. unfold pages_per_pool in *. rewrite Hr in *.
    destruct (decide (S (page_of cfg nb) = pools * 2)%nat) as [E|]; [|lia].
    apply (f_equal Nat.odd) in E. rewrite Nat.odd_succ, Nat.odd_mul in E.
    rewrite <- Nat.negb_odd, Hodd in E. simpl in E. by rewrite andb_false_r in E. }
  destruct (lookup_lt_is_Some_2 _ _ Hlt') as [bytes Hb].
  pose proof (Hsh _ _ Hb) as Hl. rewrite Hr, Nat.odd_succ, <- Nat.negb_odd, Hodd in Hl.
  simpl in Hl. pose proof (index_lt cfg valid nb Hnb).
  destruct (lookup_lt_is_Some_2 bytes (Z.to_nat (Z.land nb (pool_mod cfg))))
    as [v Hv]; [lia|].
  by exists bytes, v.
Qed.

Lemma get_hazard_stored c nb :
  is_u32 nb → has_revision cfg = true →
  ∀ v, stored_revision cfg c nb = Some v → get_hazard cfg c nb = Ok v.
Proof using valid.
  intros Hnb Hr v. unfold stored_revision, get_hazard.
  rewrite hazard_page_of, Nat2Z.id by done.
  destruct (items_ c !! S (page_of cfg nb)) as [bytes|] eqn:Hb; [|done].
  rewrite (at_lookup _ _ _ Hb). cbn [mbind result_bind option_bind]. simpl.
  intros Hv. by apply at_lookup.
Qed.

Lemma set_hazard_run c nb hz :
  shaped cfg c → is_u32 nb → has_revision cfg = true →
  (page_of cfg nb < length (items_ c))%nat →
  ∃ c', set_hazard cfg c nb hz = Ok c' ∧ shaped cfg c' ∧
    length_ c' = length_ c ∧ max_lnk_ c' = max_lnk_ c ∧
    length (items_ c') = length (items_ c) ∧
    stored_revision cfg c' nb = Some hz ∧
    ∀ nb', is_u32 nb' → member cfg c' nb' = member cfg c nb'.
Proof using valid.
  intros Hsh Hnb Hr Hlt. unfold set_hazard.
  destruct (shaped_hazard_page c nb Hsh Hnb Hr Hlt) as (bytes & v & Hb & Hlen & Hv).
  rewrite hazard_page_of, Nat2Z.id by done.
  rewrite (at_lookup _ _ _ Hb). cbn [mbind result_bind]. unfold vec.assign.
  rewrite (proj2 (Nat.ltb_lt _ _) (lookup_lt_Some _ _ _ Hv)). cbn [mbind result_bind].
  rewrite (proj2 (Nat.ltb_lt _ _) (lookup_lt_Some _ _ _ Hb)). cbn [mbind result_bind].
  eexists. split; [done|]. split.
  { apply (shaped_insert c _ bytes); [done..|]. by rewrite length_insert. }
  simpl. split; [done|]. split; [done|]. rewrite length_insert. split; [done|].
  split.
  { unfold stored_revision. simpl.
    rewrite list_lookup_insert_eq by (by eapply lookup_lt_Some). simpl.
    apply list_lookup_insert_eq. by eapply lookup_lt_Some. }
  intros nb' Hnb'. unfold member, bit_at. simpl.
  rewrite list_lookup_insert_ne; [done|].
  intros E. pose proof (page_of_bits cfg valid nb Hnb) as H1.
  pose proof (page_of_bits cfg valid nb' Hnb') as H2.
  rewrite Hr in H1, H2. simpl in H1, H2.
  rewrite <- E, Nat.odd_succ, <- Nat.negb_odd, H1 in H2. done.
Qed.

End collection_ops.

(** ** emplace and erase *)

Section collection_calls.
Import collection.
Variable cfg : config.
Hypothesis valid : valid_config cfg.

(** [emplace] of an index in reach, in full. *)
Lemma emplace_run c l :
  shaped cfg c → is_u32 (get l) → in_reach cfg c (get l) →
  ∃ c', emplace cfg c l = Ok c' ∧ shaped cfg c' ∧
    max_lnk_ c' = Z.max (get l) (max_lnk_ c) ∧
    length_ c' = (if member cfg c (get l) then length_ c
                  else wrap32 (length_ c + 1)) ∧
    (member cfg c (get l) = true → items_ c' = items_ c) ∧
    (has_revision cfg = true → member cfg c (get l) = false →
       stored_revision cfg c' (get l) = Some (wrap8 (revision l))) ∧
    ∀ nb, is_u32 nb →
      member cfg c' nb = member cfg c nb || bool_decide (nb = get l).
Proof using valid.
  intros Hsh Hidx Hreach. unfold emplace.
  set (c0 := mk (items_ c) (length_ c) (Z.max (get l) (max_lnk_ c))).
  assert (shaped cfg c0) as Hsh0 by done.
  rewrite (is_bit_set_member cfg valid c0 _ Hsh0 Hidx). cbn [mbind result_bind].
  change (member cfg c0 (get l)) with (member cfg c (get l)).
  destruct (member cfg c (get l)) eqn:Hm.
  - exists c0. do 5 (split; [done|]). split; [done|]. intros nb Hnb.
    change (member cfg c0 nb) with (member cfg c nb).
    destruct (bool_decide_reflect (nb = get l)) as [->|_];
      [by rewrite Hm|by rewrite orb_false_r].
  - destruct (set_bit_run cfg valid c0 (get l) Hsh0 Hidx Hreach)
      as (c1 & E1 & Hsh1 & Hl1 & Hk1 & Hlt1 & _ & _ & Hm1).
    rewrite E1. cbn [mbind result_bind].
    destruct (has_revision cfg) eqn:Hr.
    + destruct (set_hazard_run cfg valid c1 (get l) (wrap8 (revision l)) Hsh1 Hidx Hr Hlt1)
        as (c2 & E2 & Hsh2 & Hl2 & Hk2 & _ & Hst & Hm2).
      rewrite E2. cbn [mbind result_bind]. eexists. split; [done|].
      split; [done|]. simpl. rewrite Hk2, Hk1, Hl2, Hl1.
      do 3 (split; [done|]). split; [done|]. intros nb Hnb.
      change (member cfg (mk (items_ c2) _ _) nb) with (member cfg c2 nb).
      by rewrite Hm2, Hm1.
    + cbn [mbind result_bind]. eexists. split; [done|].
      split; [done|]. simpl. rewrite Hk1, Hl1.
      do 3 (split; [done|]). split; [done|]. intros nb Hnb.
      change (member cfg (mk (items_ c1) _ _) nb) with (member cfg c1 nb).
      by rewrite Hm1.
Qed.

(** [erase] of an entity whose revision is the stored one, in full. *)
Lemma erase_run c l :
  shaped cfg c → is_u32 (get l) → revision_matches cfg c l →
  ∃ c', erase cfg c l = Ok c' ∧ shaped cfg c' ∧
    max_lnk_ c' = max_lnk_ c ∧
    length (items_ c') = length (items_ c) ∧
    length_ c' = (if member cfg c (get l) then wrap32 (length_ c - 1)
                  else length_ c) ∧
    ∀ nb, is_u32 nb →
      member cfg c' nb = member cfg c nb && negb (bool_decide (nb = get l)).
Proof using valid.
  intros Hsh Hidx Hrev. unfold erase.
  rewrite (is_bit_set_member cfg valid c _ Hsh Hidx). cbn [mbind result_bind].
  destruct (member cfg c (get l)) eqn:Hm.
  - assert (page_of cfg (get l) < length (items_ c))%nat as Hlt.
    { unfold member, bit_at in Hm.
      destruct (items_ c !! page_of cfg (get l)) eqn:E; [|done].
      by eapply lookup_lt_Some. }
    assert ((if has_revision cfg
             then validate_hazard cfg c (get l) (wrap8 (revision l))
             else Ok ()) = Ok ()) as ->.
    { destruct (has_revision cfg) eqn:Hr; [|done]. unfold validate_hazard.
      rewrite (get_hazard_stored cfg valid c _ Hidx Hr _ (Hrev Hr Hm)).
      cbn [mbind result_bind]. by rewrite Z.eqb_refl. }
    cbn [mbind result_bind].
    destruct (unset_bit_run cfg valid c (get l) Hsh Hidx Hlt)
      as (c1 & E1 & Hsh1 & Hl1 & Hk1 & Hn1 & Hm1).
    rewrite E1. cbn [mbind result_bind]. eexists. split; [done|].
    split; [done|]. simpl. rewrite Hl1, Hk1. do 3 (split; [done|]).
    intros nb Hnb.
    change (member cfg (mk (items_ c1) _ _) nb) with (member cfg c1 nb).
    by apply Hm1.
  - exists c. do 5 (split; [done|]). intros nb Hnb.
    destruct (bool_decide_reflect (nb = get l)) as [->|_];
      [by rewrite Hm|by rewrite andb_true_r].
Qed.

End collection_calls.

(** X8.  [emplace] makes its entity a member and changes no other: on a
    collection whose pools all have their pages, for an index whose pool has
    its pages or is the next pool to get them, the call returns; afterwards
    [contains] answers true for that index and, for every other index, what
    it answered before; [size] goes up by one (modulo 2^32) when the index
    was not a member, and stays when it was. *)
Theorem collection_emplace_adds
    (cfg : collection.config) (c : collection.t) (l : collection.entity_type) :
  collection.valid_config cfg → collection.shaped cfg c →
  is_u32 (collection.get l) → collection.in_reach cfg c (collection.get l) →
  ∃ c', collection.emplace cfg c l = Ok c' ∧ collection.shaped cfg c' ∧
    collection.size c' =
      (if collection.member cfg c (collection.get l) then collection.size c
       else wrap32 (collection.size c + 1)) ∧
    ∀ k, is_u32 (collection.get k) →
      collection.contains cfg c' k =
        Ok (collection.member cfg c (collection.get k)
            || bool_decide (collection.get k = collection.get l)).
Proof.
  intros valid Hsh Hidx Hreach.
  destruct (emplace_run cfg valid c l Hsh Hidx Hreach)
    as (c' & E & Hsh' & _ & Hlen & _ & _ & Hm).
  exists c'. do 3 (split; [done|]). intros k Hk. unfold collection.contains.
  by rewrite is_bit_set_member, Hm.
Qed.

Lemma collection_emplace_adds_witness :
  ∃ c',
    collection.emplace (collection.mk_config 3 false) (collection.mk [[4]] 1 2)
      (collection.mk_entity 9 0) = Ok c' ∧
    collection.shaped (collection.mk_config 3 false) c' ∧
    collection.size c' =
      (if collection.member (collection.mk_config 3 false) (collection.mk [[4]] 1 2) 9
       then 1 else wrap32 (1 + 1)) ∧
    ∀ k, is_u32 (collection.get k) →
      collection.contains (collection.mk_config 3 false) c' k =
        Ok (collection.member (collection.mk_config 3 false)
              (collection.mk [[4]] 1 2) (collection.get k)
            || bool_decide (collection.get k = 9)).
Proof.
  apply (collection_emplace_adds (collection.mk_config 3 false)
           (collection.mk [[4]] 1 2) (collection.mk_entity 9 0)).
  - split; [simpl; lia|discriminate].
  - split; [by exists 1%nat|].
    intros [|[|i]] page H; simpl in H; [injection H as <-; reflexivity|done..].
  - unfold is_u32. rewrite UINT32_MAX_eq. simpl. lia.
  - unfold collection.in_reach. vm_compute. lia.
Defined.

(** X9.  [emplace] reaches one pool past the pages and no further: for an
    index whose pool lies beyond the first pool without pages, [set_bit]
    appends the pages of one pool and then writes outside [items_].  On a
    default-constructed collection this is every index from [pool_size] on. *)
Theorem collection_emplace_beyond_next_pool_faults
    (cfg : collection.config) (c : collection.t) (l : collection.entity_type) :
  collection.valid_config cfg → collection.shaped cfg c →
  is_u32 (collection.get l) → ¬ collection.in_reach cfg c (collection.get l) →
  collection.emplace cfg c l = Err OutOfBounds.
Proof.
  intros valid Hsh Hidx Hreach. unfold collection.in_reach in Hreach.
  unfold collection.emplace.
  rewrite is_bit_set_member by done. cbn [mbind result_bind].
  assert (∀ a b, collection.member cfg
            (collection.mk (collection.items_ c) a b) (collection.get l) = false)
    as ->.
  { intros. unfold collection.member, collection.bit_at. cbn [collection.items_].
    by rewrite lookup_ge_None_2 by lia. }
  unfold collection.set_bit. cbn [collection.items_].
  rewrite bit_page_of by done.
  destruct (Z.leb_spec (Z.of_nat (length (collection.items_ c)))
              (Z.of_nat (collection.page_of cfg (collection.get l)))); [|lia].
  rewrite Nat2Z.id.
  assert (vec.at_ (collection.items_ c ++ collection.fresh_pages cfg)
            (collection.page_of cfg (collection.get l)) = Err OutOfBounds)
    as ->; [|done].
  unfold vec.at_. rewrite lookup_ge_None_2; [done|].
  rewrite length_app. destruct Hsh as [[pools Hlen] _].
  pose proof (page_of_bits cfg valid _ Hidx) as Hodd.
  unfold collection.fresh_pages, collection.pages_per_pool in *.
  destruct (collection.has_revision cfg); simpl in *; [|lia].
  destruct (decide (collection.page_of cfg (collection.get l)
                    = S (length (collection.items_ c)))) as [E|]; [|lia].
  rewrite E, Hlen, Nat.odd_succ, Nat.even_mul in Hodd. simpl in Hodd.
  by rewrite orb_true_r in Hodd.
Qed.

Lemma collection_emplace_beyond_next_pool_faults_witness :
  collection.emplace (collection.mk_config 3 false) collection.empty_collection
    (collection.mk_entity 8 0) = Err OutOfBounds.
Proof.
  apply (collection_emplace_beyond_next_pool_faults (collection.mk_config 3 false)
           collection.empty_collection (collection.mk_entity 8 0)).
  - split; [simpl; lia|discriminate].
  - split; [by exists 0%nat|]. intros i page H. by destruct i.
  - unfold is_u32. rewrite UINT32_MAX_eq. simpl. lia.
  - unfold collection.in_reach. vm_compute. lia.
Defined.

(** X10.  [erase] takes its entity out and changes no other: on a
    collection whose pools all have their pages, for an entity that carries
    the stored revision (nothing is asked without revisions, or of an entity
    that is not a member), the call returns; afterwards [contains] answers
    false for that index and, for every other index, what it answered before;
    [size] goes down by one (modulo 2^32) when the index was a member, and
    stays when it was not. *)
Theorem collection_erase_removes
    (cfg : collection.config) (c : collection.t) (l : collection.entity_type) :
  collection.valid_config cfg → collection.shaped cfg c →
  is_u32 (collection.get l) → collection.revision_matches cfg c l →
  ∃ c', collection.erase cfg c l = Ok c' ∧ collection.shaped cfg c' ∧
    collection.size c' =
      (if collection.member cfg c (collection.get l)
       then wrap32 (collection.size c - 1) else collection.size c) ∧
    ∀ k, is_u32 (collection.get k) →
      collection.contains cfg c' k =
        Ok (collection.member cfg c (collection.get k)
            && negb (bool_decide (collection.get k = collection.get l))).
Proof.
  intros valid Hsh Hidx Hrev.
  destruct (erase_run cfg valid c l Hsh Hidx Hrev)
    as (c' & E & Hsh' & _ & _ & Hlen & Hm).
  exists c'. do 3 (split; [done|]). intros k Hk. unfold collection.contains.
  by rewrite is_bit_set_member, Hm.
Qed.

Lemma collection_erase_removes_witness :
  ∃ c',
    collection.erase (collection.mk_config 3 false) (collection.mk [[36]] 2 5)
      (collection.mk_entity 5 0) = Ok c' ∧
    collection.shaped (collection.mk_config 3 false) c' ∧
    collection.size c' =
      (if collection.member (collection.mk_config 3 false) (collection.mk [[36]] 2 5) 5
       then wrap32 (2 - 1) else 2) ∧
    ∀ k, is_u32 (collection.get k) →
      collection.contains (collection.mk_config 3 false) c' k =
        Ok (collection.member (collection.mk_config 3 false)
              (collection.mk [[36]] 2 5) (collection.get k)
            && negb (bool_decide (collection.get k = 5))).
Proof.
  apply (collection_erase_removes (collection.mk_config 3 false)
           (collection.mk [[36]] 2 5) (collection.mk_entity 5 0)).
  - split; [simpl; lia|discriminate].
  - split; [by exists 1%nat|].
    intros [|[|i]] page H; simpl in H; [injection H as <-; reflexivity|done..].
  - unfold is_u32. rewrite UINT32_MAX_eq. simpl. lia.
  - intros H. discriminate H.
Defined.

(** X11.  With revisions, an entity goes out only under the revision it
    came in with.  After [emplace] of an entity that was not a member, [erase]
    of the same index with another revision (modulo 256) fails the assertion
    of [validate_hazard]; with the same revision it returns and the index is
    no longer a member. *)
Theorem collection_revision_guards_erase
    (cfg : collection.config) (c : collection.t) (l l' : collection.entity_type) :
  collection.valid_config cfg → collection.has_revision cfg = true →
  collection.shaped cfg c → is_u32 (collection.get l) →
  collection.in_reach cfg c (collection.get l) →
  collection.member cfg c (collection.get l) = false →
  collection.get l' = collection.get l →
  ∃ c', collection.emplace cfg c l = Ok c' ∧
    if collection.wrap8 (collection.revision l')
       =? collection.wrap8 (collection.revision l)
    then ∃ c'', collection.erase cfg c' l' = Ok c'' ∧
           collection.contains cfg c'' l = Ok false
    else collection.erase cfg c' l' = Err AssertionFailed.
Proof.
  intros valid Hr Hsh Hidx Hreach Hm Hget.
  destruct (emplace_run cfg valid c l Hsh Hidx Hreach)
    as (c' & E & Hsh' & _ & _ & _ & Hst & Hm').
  specialize (Hst Hr Hm). exists c'. split; [done|].
  pose proof (Hm' _ Hidx) as Hmem. rewrite bool_decide_eq_true_2, orb_true_r in Hmem by done.
  destruct (Z.eqb_spec (collection.wrap8 (collection.revision l'))
              (collection.wrap8 (collection.revision l))) as [Heq|Hne].
  - destruct (erase_run cfg valid c' l') as (c'' & E' & Hsh'' & _ & _ & _ & Hm'').
    + done.
    + by rewrite Hget.
    + intros _ _. by rewrite Hget, Heq.
    + exists c''. split; [done|]. unfold collection.contains.
      rewrite is_bit_set_member, Hm'' by done.
      by rewrite Hget, bool_decide_eq_true_2, andb_false_r.
  - unfold collection.erase. rewrite Hget.
    rewrite is_bit_set_member, Hmem, Hr by done. cbn [mbind result_bind].
    unfold collection.validate_hazard.
    rewrite (get_hazard_stored cfg valid c' _ Hidx Hr _ Hst).
    cbn [mbind result_bind].
    destruct (Z.eqb_spec (collection.wrap8 (collection.revision l))
                (collection.wrap8 (collection.revision l'))); [congruence|done].
Qed.

Lemma collection_revision_guards_erase_witness :
  ∃ c',
    collection.emplace (collection.mk_config 3 true) collection.empty_collection
      (collection.mk_entity 5 7) = Ok c' ∧
    if collection.wrap8 (collection.revision (collection.mk_entity 5 8))
       =? collection.wrap8 (collection.revision (collection.mk_entity 5 7))
    then ∃ c'', collection.erase (collection.mk_config 3 true) c'
                  (collection.mk_entity 5 8) = Ok c'' ∧
           collection.contains (collection.mk_config 3 true) c''
             (collection.mk_entity 5 7) = Ok false
    else collection.erase (collection.mk_config 3 true) c'
           (collection.mk_entity 5 8) = Err AssertionFailed.
Proof.
  apply (collection_revision_guards_erase (collection.mk_config 3 true)
           collection.empty_collection (collection.mk_entity 5 7)
           (collection.mk_entity 5 8)).
  - split; [simpl; lia|simpl; lia].
  - reflexivity.
  - split; [by exists 0%nat|]. intros i page H. by destruct i.
  - unfold is_u32. rewrite UINT32_MAX_eq. simpl. lia.
  - unfold collection.in_reach. vm_compute. lia.
  - reflexivity.
  - reflexivity.
Defined.

(** X12.  [emplace] is idempotent: once an entity has been emplaced, to
    emplace its index again, under whatever revision, returns and changes
    nothing: not the pages, not [size], not the stored revision. *)
Theorem collection_emplace_twice
    (cfg : collection.config) (c : collection.t) (l l2 : collection.entity_type) :
  collection.valid_config cfg → collection.shaped cfg c →
  is_u32 (collection.get l) → collection.in_reach cfg c (collection.get l) →
  collection.get l2 = collection.get l →
  ∃ c', collection.emplace cfg c l = Ok c' ∧ collection.emplace cfg c' l2 = Ok c'.
Proof.
  intros valid Hsh Hidx Hreach Hget.
  destruct (emplace_run cfg valid c l Hsh Hidx Hreach)
    as (c' & E & Hsh' & Hmax & _ & _ & _ & Hm').
  exists c'. split; [done|].
  pose proof (Hm' _ Hidx) as Hmem. rewrite bool_decide_eq_true_2, orb_true_r in Hmem by done.
  unfold collection.emplace. rewrite Hget.
  rewrite is_bit_set_member by done. cbn [mbind result_bind].
  change (collection.member cfg (collection.mk (collection.items_ c') _ _)
            (collection.get l))
    with (collection.member cfg c' (collection.get l)).
  rewrite Hmem. destruct c' as [items len mx]. simpl in *. f_equal. f_equal. lia.
Qed.

Lemma collection_emplace_twice_witness :
  ∃ c',
    collection.emplace (collection.mk_config 3 true) collection.empty_collection
      (collection.mk_entity 5 7) = Ok c' ∧
    collection.emplace (collection.mk_config 3 true) c' (collection.mk_entity 5 9)
      = Ok c'.
Proof.
  apply (collection_emplace_twice (collection.mk_config 3 true)
           collection.empty_collection (collection.mk_entity 5 7)
           (collection.mk_entity 5 9)).
  - split; [simpl; lia|simpl; lia].
  - split; [by exists 0%nat|]. intros i page H. by destruct i.
  - unfold is_u32. rewrite UINT32_MAX_eq. simpl. lia.
  - unfold collection.in_reach. vm_compute. lia.
  - reflexivity.
Defined.

(** ** Traversal, and what a run of calls keeps *)

Section collection_runs.
Import collection.
Variable cfg : config.
Hypothesis valid : valid_config cfg.

Lemma member_page c nb :
  member cfg c nb = true → (page_of cfg nb < length (items_ c))%nat.
Proof.
  unfold member, bit_at.
  destruct (items_ c !! page_of cfg nb) eqn:E; [|done].
  intros _. by eapply lookup_lt_Some.
Qed.

(** One turn of the loop of [for_each_l]: the entity is made of the index
    and the stored revision. *)
Lemma entity_of_member c nb :
  shaped cfg c → is_u32 nb → member cfg c nb = true →
  (if has_revision cfg
   then hz ← get_hazard cfg c nb; Ok (mk_entity nb hz)
   else Ok (mk_entity nb 0)) = Ok (entity_at cfg c nb).
Proof using valid.
  intros Hsh Hnb Hm. unfold entity_at.
  destruct (has_revision cfg) eqn:Hr; [|done].
  destruct (shaped_hazard_page cfg valid c nb Hsh Hnb Hr (member_page c nb Hm))
    as (bytes & v & Hb & _ & Hv).
  assert (stored_revision cfg c nb = Some v) as Hst.
  { unfold stored_revision. by rewrite Hb. }
  by rewrite (get_hazard_stored cfg valid c nb Hnb Hr v Hst), Hst.
Qed.

Lemma for_each_l_loop_run {V St : Type} c
    (find : entity_type → option V) (lambda : entity_type → V → St → St)
    todo first acc :
  shaped cfg c → 0 <= first → first + Z.of_nat todo <= UINT32_MAX + 1 →
  for_each_l_loop cfg c find lambda todo first acc
  = Ok (foldl (visit cfg c find lambda) acc (seqZ first (Z.of_nat todo))).
Proof using valid.
  intros Hsh. revert first acc.
  induction todo as [|todo IH]; intros first acc H0 Hle; [done|].
  assert (is_u32 first) as Hu by (unfold is_u32; lia).
  cbn [for_each_l_loop]. rewrite is_bit_set_member by done.
  cbn [mbind result_bind].
  rewrite seqZ_cons by lia. cbn [foldl].
  replace (Z.pred (Z.of_nat (S todo))) with (Z.of_nat todo) by lia.
  assert ((if member cfg c first
           then l ← (if has_revision cfg
                     then hz ← get_hazard cfg c first; Ok (mk_entity first hz)
                     else Ok (mk_entity first 0));
                match find l with
                | Some v => Ok (lambda l v acc)
                | None => Ok acc
                end
           else Ok acc) = Ok (visit cfg c find lambda acc first)) as ->.
  { unfold visit. destruct (member cfg c first) eqn:Hm; [|done].
    rewrite entity_of_member by done. cbn [mbind result_bind].
    by destruct (find (entity_at cfg c first)). }
  cbn [mbind result_bind].
  destruct todo as [|todo'].
  { by rewrite seqZ_nil. }
  rewrite wrap32_id by (unfold is_u32; lia).
  apply IH; lia.
Qed.

Lemma for_each_l_run {V St : Type} c
    (find : entity_type → option V) (lambda : entity_type → V → St → St)
    first last acc :
  shaped cfg c → 0 <= first <= last → last <= UINT32_MAX →
  for_each_l cfg c find lambda first last acc
  = Ok (foldl (visit cfg c find lambda) acc (seqZ first (last - first))).
Proof using valid.
  intros Hsh Hfl Hl. unfold for_each_l.
  rewrite wrap32_id by (unfold is_u32; lia).
  rewrite for_each_l_loop_run by (done || lia).
  by rewrite Z2Nat.id by lia.
Qed.

Lemma wrap32_succ z : wrap32 (wrap32 z + 1) = wrap32 (z + 1).
Proof. unfold wrap32. apply Zplus_mod_idemp_l. Qed.

Lemma wrap32_pred z : wrap32 (wrap32 z - 1) = wrap32 (z - 1).
Proof. unfold wrap32. apply Zminus_mod_idemp_l. Qed.

(** What [emplace] and [erase] keep. *)
Lemma apply_op_keeps c o :
  shaped cfg c → op_in_order cfg c o →
  ∃ c', apply_op cfg c o = Ok c' ∧ shaped cfg c' ∧
    (0 <= max_lnk_ c → 0 <= max_lnk_ c') ∧
    (counted cfg c → counted cfg c') ∧ (covered cfg c → covered cfg c').
Proof using valid.
  intros Hsh Hin. destruct o as [l|l]; destruct Hin as [Hidx Hin]; cbn [apply_op].
  - destruct (emplace_run cfg valid c l Hsh Hidx Hin)
      as (c' & E & Hsh' & Hmax & Hlen & _ & _ & Hm).
    exists c'. do 2 (split; [done|]). split; [lia|]. split.
    + intros (L & Hnd & HL & Hsz). unfold counted, size in *.
      destruct (member cfg c (get l)) eqn:Hml.
      * exists L. split; [done|]. split; [|congruence].
        intros nb. rewrite HL. split.
        -- intros [Hnb Hmem]. split; [done|]. by rewrite Hm, Hmem.
        -- intros [Hnb Hmem]. split; [done|]. rewrite Hm in Hmem by done.
           destruct (bool_decide_reflect (nb = get l)) as [->|_]; [done|].
           by rewrite orb_false_r in Hmem.
      * exists (get l :: L). split.
        { constructor; [|done]. rewrite HL. intros [_ H]. congruence. }
        split.
        -- intros nb. cbn [In]. rewrite HL. split.
           ++ intros [<-|[Hnb Hmem]].
              ** split; [done|]. by rewrite Hm, bool_decide_eq_true_2, orb_true_r.
              ** split; [done|]. by rewrite Hm, Hmem.
           ++ intros [Hnb Hmem]. rewrite Hm in Hmem by done.
              destruct (bool_decide_reflect (nb = get l)) as [->|_]; [by left|].
              right. split; [done|]. by rewrite orb_false_r in Hmem.
        -- rewrite Hlen, Hsz, wrap32_succ. f_equal. cbn [length]. lia.
    + intros Hcov nb Hnb Hmem. rewrite Hm in Hmem by done. rewrite Hmax.
      destruct (bool_decide_reflect (nb = get l)) as [->|_]; [lia|].
      rewrite orb_false_r in Hmem. specialize (Hcov nb Hnb Hmem). lia.
  - destruct (erase_run cfg valid c l Hsh Hidx Hin)
      as (c' & E & Hsh' & Hmax & _ & Hlen & Hm).
    exists c'. do 2 (split; [done|]). split; [lia|]. split.
    + intros (L & Hnd & HL & Hsz). unfold counted, size in *.
      destruct (member cfg c (get l)) eqn:Hml.
      * assert (In (get l) L) as Hin' by (by apply HL).
        destruct (in_split _ _ Hin') as (L1 & L2 & ->).
        destruct (NoDup_remove _ _ _ Hnd) as [Hnd' Hnot].
        exists (L1 ++ L2). split; [done|]. split.
        -- intros nb. split.
           ++ intros Hnb'. assert (In nb (L1 ++ get l :: L2)) as H1.
              { apply in_app_iff. apply in_app_iff in Hnb'. simpl. tauto. }
              apply HL in H1 as [Hnb Hmem]. split; [done|].
              rewrite Hm, Hmem by done. rewrite bool_decide_eq_false_2; [done|].
              intros ->. done.
           ++ intros [Hnb Hmem]. rewrite Hm in Hmem by done.
              apply andb_prop in Hmem as [Hmem Hne].
              destruct (bool_decide_reflect (nb = get l)) as [|Hne']; [done|].
              assert (In nb (L1 ++ get l :: L2)) as H1 by (by apply HL).
              apply in_app_iff. apply in_app_iff in H1. simpl in H1.
              destruct H1 as [|[|]]; [tauto|congruence|tauto].
        -- rewrite Hlen, Hsz, wrap32_pred. f_equal.
           rewrite !length_app. cbn [length]. lia.
      * exists L. split; [done|]. split; [|congruence].
        intros nb. rewrite HL. split.
        -- intros [Hnb Hmem]. split; [done|]. rewrite Hm, Hmem by done.
           rewrite bool_decide_eq_false_2; [done|]. intros ->. congruence.
        -- intros [Hnb Hmem]. split; [done|]. rewrite Hm in Hmem by done.
           by apply andb_prop in Hmem as [Hmem _].
    + intros Hcov nb Hnb Hmem. rewrite Hm in Hmem by done. rewrite Hmax.
      apply andb_prop in Hmem as [Hmem _]. by apply Hcov.
Qed.

Lemma run_ops_keeps ops : ∀ c,
  shaped cfg c → ops_in_order cfg c ops →
  ∃ c', run_ops cfg c ops = Ok c' ∧ shaped cfg c' ∧
    (0 <= max_lnk_ c → 0 <= max_lnk_ c') ∧
    (counted cfg c → counted cfg c') ∧ (covered cfg c → covered cfg c').
Proof using valid.
  induction ops as [|o ops IH]; intros c Hsh Hin.
  { by exists c. }
  destruct Hin as [Ho Hrest].
  destruct (apply_op_keeps c o Hsh Ho) as (c1 & E & Hsh1 & Hn1 & Hc1 & Hv1).
  destruct (IH c1 Hsh1 (Hrest c1 E)) as (c' & E' & Hsh' & Hn' & Hc' & Hv').
  exists c'. cbn [run_ops]. rewrite E. cbn [mbind result_bind].
  do 2 (split; [done|]). do 2 (split; [auto|]). auto.
Qed.

Lemma empty_shaped : shaped cfg empty_collection.
Proof. split; [by exists 0%nat|]. intros i page H. by destruct i. Qed.

Lemma empty_no_member nb : member cfg empty_collection nb = false.
Proof. done. Qed.

Lemma empty_counted : counted cfg empty_collection.
Proof.
  exists []. split; [constructor|]. split; [|done].
  intros nb. rewrite empty_no_member. simpl. split; [done|]. by intros [_ ?].
Qed.

Lemma empty_covered : covered cfg empty_collection.
Proof. intros nb _. by rewrite empty_no_member. Qed.

End collection_runs.

(** X13.  [for_each_l] from [first] up to [last] goes through the indices
    in ascending order and calls the lambda for exactly the members among them
    that the container holds, each as the entity of its index and, with
    revisions, of the revision stored for it; on a collection whose pools all
    have their pages it reads inside the pages only. *)
Theorem collection_for_each_l_visits_members {V St : Type}
    (cfg : collection.config) (c : collection.t)
    (find : collection.entity_type → option V)
    (lambda : collection.entity_type → V → St → St)
    (first last : Z) (acc : St) :
  collection.valid_config cfg → collection.shaped cfg c →
  0 <= first <= last → last <= UINT32_MAX →
  collection.for_each_l cfg c find lambda first last acc
  = Ok (foldl (collection.visit cfg c find lambda) acc
          (seqZ first (last - first))).
Proof. intros valid. by apply for_each_l_run. Qed.

Lemma collection_for_each_l_visits_members_witness :
  collection.for_each_l (collection.mk_config 3 false) (collection.mk [[36]] 2 5)
    (λ l, if collection.get l =? 2 then None else Some tt)
    (λ l _ acc, acc ++ [collection.get l]) 1 8 []
  = Ok (foldl (collection.visit (collection.mk_config 3 false)
                 (collection.mk [[36]] 2 5)
                 (λ l, if collection.get l =? 2 then None else Some tt)
                 (λ l _ acc, acc ++ [collection.get l])) []
          (seqZ 1 (8 - 1))).
Proof.
  apply (collection_for_each_l_visits_members (collection.mk_config 3 false)
           (collection.mk [[36]] 2 5)
           (λ l, if collection.get l =? 2 then None else Some tt)
           (λ l _ acc, acc ++ [collection.get l]) 1 8 []).
  - split; [simpl; lia|discriminate].
  - split; [by exists 1%nat|].
    intros [|[|i]] page H; simpl in H; [injection H as <-; reflexivity|done..].
  - lia.
  - rewrite UINT32_MAX_eq. lia.
Defined.

(** X14.  [size()] counts the members.  Through any run of [emplace] and
    [erase] calls on a default-constructed collection, each for an index the
    pages reach and each [erase] under the stored revision, every call
    returns, and at the end the indices [contains] answers true for are as
    many as [size()] says, modulo 2^32. *)
Theorem collection_size_counts_members
    (cfg : collection.config) (ops : list collection.op) :
  collection.valid_config cfg →
  collection.ops_in_order cfg collection.empty_collection ops →
  ∃ c', collection.run_ops cfg collection.empty_collection ops = Ok c' ∧
    ∃ L : list Z, List.NoDup L ∧
      (∀ k, In (collection.get k) L ↔
            is_u32 (collection.get k) ∧ collection.contains cfg c' k = Ok true) ∧
      collection.size c' = wrap32 (Z.of_nat (length L)).
Proof.
  intros valid Hin.
  destruct (run_ops_keeps cfg valid ops _ (empty_shaped cfg) Hin)
    as (c' & E & Hsh & _ & Hc & _).
  exists c'. split; [done|].
  destruct (Hc (empty_counted cfg)) as (L & Hnd & HL & Hsz).
  exists L. split; [done|]. split; [|done].
  intros k. rewrite HL. unfold collection.contains. split.
  - intros [Hk Hm]. split; [done|]. by rewrite is_bit_set_member, Hm.
  - intros [Hk Hm]. split; [done|]. rewrite is_bit_set_member in Hm by done.
    congruence.
Qed.

Lemma collection_size_counts_members_witness :
  ∃ c', collection.run_ops (collection.mk_config 3 false) collection.empty_collection
          [collection.Emplace (collection.mk_entity 5 0);
           collection.Emplace (collection.mk_entity 2 0);
           collection.Erase (collection.mk_entity 5 0)] = Ok c' ∧
    ∃ L : list Z, List.NoDup L ∧
      (∀ k, In (collection.get k) L ↔
            is_u32 (collection.get k) ∧
            collection.contains (collection.mk_config 3 false) c' k = Ok true) ∧
      collection.size c' = wrap32 (Z.of_nat (length L)).
Proof.
  apply (collection_size_counts_members (collection.mk_config 3 false)
           [collection.Emplace (collection.mk_entity 5 0);
            collection.Emplace (collection.mk_entity 2 0);
            collection.Erase (collection.mk_entity 5 0)]).
  - split; [simpl; lia|discriminate].
  - simpl. split.
    { split; [unfold is_u32; rewrite UINT32_MAX_eq; lia|].
      unfold collection.in_reach. vm_compute. lia. }
    intros c1 H1. vm_compute in H1. injection H1 as <-. split.
    { split; [unfold is_u32; rewrite UINT32_MAX_eq; lia|].
      unfold collection.in_reach. vm_compute. lia. }
    intros c2 H2. vm_compute in H2. injection H2 as <-. split.
    { split; [unfold is_u32; rewrite UINT32_MAX_eq; lia|].
      intros H. discriminate H. }
    done.
Defined.

(** X15.  [for_each] reaches every member.  After any run of [emplace] and
    [erase] calls on a default-constructed collection (each for an index the
    pages reach, each [erase] under the stored revision) that has not come to
    the last index of the size type, every member lies below [range()], and
    [for_each] calls the lambda for the members the container holds, in
    ascending order of index. *)
Theorem collection_for_each_reaches_members {V St : Type}
    (cfg : collection.config) (ops : list collection.op)
    (find : collection.entity_type → option V)
    (lambda : collection.entity_type → V → St → St) (acc : St) :
  collection.valid_config cfg →
  collection.ops_in_order cfg collection.empty_collection ops →
  ∃ c', collection.run_ops cfg collection.empty_collection ops = Ok c' ∧
    (collection.max_lnk_ c' < UINT32_MAX →
     (∀ k, is_u32 (collection.get k) → collection.contains cfg c' k = Ok true →
           collection.get k < collection.range c') ∧
     collection.for_each cfg c' find lambda acc
     = Ok (foldl (collection.visit cfg c' find lambda) acc
             (seqZ 0 (collection.range c')))).
Proof.
  intros valid Hin.
  destruct (run_ops_keeps cfg valid ops _ (empty_shaped cfg) Hin)
    as (c' & E & Hsh & H0 & _ & Hc).
  exists c'. split; [done|]. intros Hmax.
  specialize (Hc (empty_covered cfg)).
  assert (0 <= collection.max_lnk_ c') as H0' by (by apply H0).
  assert (collection.range c' = collection.max_lnk_ c' + 1) as Hr.
  { unfold collection.range. apply wrap32_id. unfold is_u32. lia. }
  split.
  - intros k Hk Hm. unfold collection.contains in Hm.
    rewrite is_bit_set_member in Hm by done. injection Hm as Hm. specialize (Hc _ Hk Hm). lia.
  - unfold collection.for_each. rewrite for_each_l_run by (done || lia).
    by rewrite Z.sub_0_r.
Qed.

Lemma collection_for_each_reaches_members_witness :
  ∃ c', collection.run_ops (collection.mk_config 3 false) collection.empty_collection
          [collection.Emplace (collection.mk_entity 5 0);
           collection.Emplace (collection.mk_entity 2 0)] = Ok c' ∧
    (collection.max_lnk_ c' < UINT32_MAX →
     (∀ k, is_u32 (collection.get k) →
           collection.contains (collection.mk_config 3 false) c' k = Ok true →
           collection.get k < collection.range c') ∧
     collection.for_each (collection.mk_config 3 false) c'
       (λ _, Some tt) (λ l (_ : unit) acc, acc ++ [collection.get l]) []
     = Ok (foldl (collection.visit (collection.mk_config 3 false) c'
                    (λ _, Some tt) (λ l (_ : unit) acc, acc ++ [collection.get l]))
             [] (seqZ 0 (collection.range c')))).
Proof.
  apply (collection_for_each_reaches_members (collection.mk_config 3 false)
           [collection.Emplace (collection.mk_entity 5 0);
            collection.Emplace (collection.mk_entity 2 0)]
           (λ _, Some tt) (λ l (_ : unit) acc, acc ++ [collection.get l]) []).
  - split; [simpl; lia|discriminate].
  - simpl. split.
    { split; [unfold is_u32; rewrite UINT32_MAX_eq; lia|].
      unfold collection.in_reach. vm_compute. lia. }
    intros c1 H1. vm_compute in H1. injection H1 as <-. split.
    { split; [unfold is_u32; rewrite UINT32_MAX_eq; lia|].
      unfold collection.in_reach. vm_compute. lia. }
    done.
Defined.

(** X16.  [clear()] resets the counters and leaves the pages as they are:
    afterwards [size()] is 0 and [empty()] holds, yet [contains] answers for
    every index what it answered before; to [erase] an entity that was a
    member then takes [size()] below zero, to the greatest value of the size
    type. *)
Theorem collection_clear_keeps_members
    (cfg : collection.config) (c : collection.t) (l : collection.entity_type) :
  collection.valid_config cfg → collection.shaped cfg c →
  is_u32 (collection.get l) → collection.member cfg c (collection.get l) = true →
  collection.revision_matches cfg c l →
  collection.size (collection.clear c) = 0 ∧
  collection.empty (collection.clear c) = true ∧
  (∀ k, collection.contains cfg (collection.clear c) k = collection.contains cfg c k) ∧
  ∃ c', collection.erase cfg (collection.clear c) l = Ok c' ∧
    collection.size c' = UINT32_MAX.
Proof.
  intros valid Hsh Hidx Hm Hrev. do 3 (split; [done|]).
  destruct (erase_run cfg valid (collection.clear c) l) as (c' & E & _ & _ & _ & Hlen & _).
  - done.
  - done.
  - done.
  - exists c'. split; [done|]. unfold collection.size. rewrite Hlen.
    change (collection.member cfg (collection.clear c) (collection.get l))
      with (collection.member cfg c (collection.get l)).
    by rewrite Hm.
Qed.

Lemma collection_clear_keeps_members_witness :
  collection.size (collection.clear (collection.mk [[36]] 2 5)) = 0 ∧
  collection.empty (collection.clear (collection.mk [[36]] 2 5)) = true ∧
  (∀ k, collection.contains (collection.mk_config 3 false)
          (collection.clear (collection.mk [[36]] 2 5)) k
        = collection.contains (collection.mk_config 3 false)
            (collection.mk [[36]] 2 5) k) ∧
  ∃ c', collection.erase (collection.mk_config 3 false)
          (collection.clear (collection.mk [[36]] 2 5))
          (collection.mk_entity 5 0) = Ok c' ∧
    collection.size c' = UINT32_MAX.
Proof.
  apply (collection_clear_keeps_members (collection.mk_config 3 false)
           (collection.mk [[36]] 2 5) (collection.mk_entity 5 0)).
  - split; [simpl; lia|discriminate].
  - split; [by exists 1%nat|].
    intros [|[|i]] page H; simpl in H; [injection H as <-; reflexivity|done..].
  - unfold is_u32. rewrite UINT32_MAX_eq. simpl. lia.
  - reflexivity.
  - intros H. discriminate H.
Defined.

(** X17.  [emplace] and then [erase] of the same entity is a round trip for
    the members and for [size()]: when the index was not a member, both calls
    return, and afterwards [contains] answers for every index what it
    answered at the start and [size()] is what it was.  The pages the first
    call has appended stay. *)
Theorem collection_emplace_erase_round_trip
    (cfg : collection.config) (c : collection.t) (l : collection.entity_type) :
  collection.valid_config cfg → collection.shaped cfg c →
  is_u32 (collection.size c) →
  is_u32 (collection.get l) → collection.in_reach cfg c (collection.get l) →
  collection.member cfg c (collection.get l) = false →
  ∃ c' c'', collection.emplace cfg c l = Ok c' ∧ collection.erase cfg c' l = Ok c'' ∧
    collection.size c'' = collection.size c ∧
    (length (collection.items_ c) ≤ length (collection.items_ c''))%nat ∧
    ∀ k, is_u32 (collection.get k) →
      collection.contains cfg c'' k = collection.contains cfg c k.
Proof.
  intros valid Hsh Hsz Hidx Hreach Hm.
  destruct (emplace_run cfg valid c l Hsh Hidx Hreach)
    as (c' & E & Hsh' & _ & Hlen & _ & Hst & Hm').
  pose proof (Hm' _ Hidx) as Hmem.
  rewrite bool_decide_eq_true_2, orb_true_r in Hmem by done.
  destruct (erase_run cfg valid c' l Hsh' Hidx)
    as (c'' & E' & Hsh'' & _ & Hit & Hlen' & Hm'').
  { intros Hr _. by apply Hst. }
  exists c', c''. do 2 (split; [done|]). split.
  { unfold collection.size in *. rewrite Hlen', Hmem, Hlen, Hm, wrap32_pred.
    replace (collection.length_ c + 1 - 1) with (collection.length_ c) by lia.
    by apply wrap32_id. }
  split.
  { rewrite Hit. unfold collection.emplace in E.
    rewrite is_bit_set_member in E by done. cbn [mbind result_bind] in E.
    change (collection.member cfg (collection.mk (collection.items_ c) _ _)
              (collection.get l))
      with (collection.member cfg c (collection.get l)) in E.
    rewrite Hm in E.
    destruct (set_bit_run cfg valid
                (collection.mk (collection.items_ c) (collection.length_ c)
                   (Z.max (collection.get l) (collection.max_lnk_ c)))
                (collection.get l) Hsh Hidx Hreach)
      as (c1 & E1 & Hsh1 & _ & _ & Hlt1 & Hle1 & _).
    rewrite E1 in E. cbn [mbind result_bind] in E.
    destruct (collection.has_revision cfg) eqn:Hr.
    - destruct (set_hazard_run cfg valid c1 (collection.get l)
                  (collection.wrap8 (collection.revision l)) Hsh1 Hidx Hr Hlt1)
        as (c2 & E2 & _ & _ & _ & Hl2 & _).
      rewrite E2 in E. cbn [mbind result_bind] in E. injection E as <-.
      simpl in *. lia.
    - cbn [mbind result_bind] in E. injection E as <-. simpl in *. lia. }
  intros k Hk. unfold collection.contains.
  rewrite !is_bit_set_member, Hm'', Hm' by done. f_equal.
  destruct (bool_decide_reflect (collection.get k = collection.get l)) as [->|_].
  - by rewrite Hm.
  - by rewrite orb_false_r, andb_true_r.
Qed.

Lemma collection_emplace_erase_round_trip_witness :
  ∃ c' c'',
    collection.emplace (collection.mk_config 3 true) collection.empty_collection
      (collection.mk_entity 5 7) = Ok c' ∧
    collection.erase (collection.mk_config 3 true) c' (collection.mk_entity 5 7)
      = Ok c'' ∧
    collection.size c'' = collection.size collection.empty_collection ∧
    (length (collection.items_ collection.empty_collection)
     ≤ length (collection.items_ c''))%nat ∧
    ∀ k, is_u32 (collection.get k) →
      collection.contains (collection.mk_config 3 true) c'' k
      = collection.contains (collection.mk_config 3 true)
          collection.empty_collection k.
Proof.
  apply (collection_emplace_erase_round_trip (collection.mk_config 3 true)
           collection.empty_collection (collection.mk_entity 5 7)).
  - split; [simpl; lia|simpl; lia].
  - split; [by exists 0%nat|]. intros i page H. by destruct i.
  - unfold is_u32. rewrite UINT32_MAX_eq. simpl. lia.
  - unfold is_u32. rewrite UINT32_MAX_eq. simpl. lia.
  - unfold collection.in_reach. vm_compute. lia.
  - reflexivity.
Defined.

(** X18.  The pages hold the indices below [capacity()] without revisions,
    and below half of it with revisions, where [capacity()] counts the hazard
    pages as well: as long as the product does not wrap, [contains] answers
    false for every index [nb] with [pages_per_pool * nb >= capacity()]. *)
Theorem collection_no_member_beyond_capacity
    (cfg : collection.config) (c : collection.t) (k : collection.entity_type) :
  collection.valid_config cfg → collection.shaped cfg c →
  Z.of_nat (length (collection.items_ c)) * collection.pool_size cfg <= UINT32_MAX →
  is_u32 (collection.get k) →
  collection.capacity cfg c
    <= Z.of_nat (collection.pages_per_pool cfg) * collection.get k →
  collection.contains cfg c k = Ok false.
Proof.
  intros valid Hsh Hcap Hk Hle. unfold collection.contains.
  rewrite is_bit_set_member by done. f_equal.
  pose proof (pool_size_bounds cfg valid) as [Hps _].
  unfold collection.capacity in Hle.
  rewrite (wrap32_id (Z.of_nat _)) in Hle by (unfold is_u32; nia).
  rewrite wrap32_id in Hle by (unfold is_u32; nia).
  destruct (index_parts cfg valid _ Hk)
    as (p & w & b & Hnb & Hp & Hw & Hb & Hlt & _ & _ & _ & _ & Hpage & _).
  destruct Hsh as [[pools Hlen] _].
  unfold collection.member, collection.bit_at.
  rewrite lookup_ge_None_2; [done|].
  rewrite Hpage, Hlen. rewrite Hlen in Hle.
  assert (0 < Z.of_nat (collection.pages_per_pool cfg)) as Hpp.
  { unfold collection.pages_per_pool. destruct (collection.has_revision cfg); lia. }
  assert (Z.of_nat pools <= p) as Hpools by nia.
  nia.
Qed.

Lemma collection_no_member_beyond_capacity_witness :
  collection.contains (collection.mk_config 3 true)
    (collection.mk [[36]; [0; 0; 9; 0; 0; 4; 0; 0]] 2 5)
    (collection.mk_entity 8 0) = Ok false.
Proof.
  apply (collection_no_member_beyond_capacity (collection.mk_config 3 true)
           (collection.mk [[36]; [0; 0; 9; 0; 0; 4; 0; 0]] 2 5)
           (collection.mk_entity 8 0)).
  - split; [simpl; lia|simpl; lia].
  - split; [by exists 1%nat|].
    intros [|[|[|i]]] page H; simpl in H;
      [injection H as <-; reflexivity|injection H as <-; reflexivity|done..].
  - rewrite UINT32_MAX_eq. vm_compute. discriminate.
  - unfold is_u32. rewrite UINT32_MAX_eq. simpl. lia.
  - vm_compute. discriminate.
Defined.
